(** * Differential growth of a cellular mesh: the frame engine

    A shallow embedding of [src/simulation.cpp] (class [Simulation]) and of
    [PlyLoader::connect] from [src/ply_loader.cpp].

    Representation choices.
    - A [Particle*] is represented by the position of the particle in the
      [cells] vector.  [cells] only ever grows by [push_back] and is never
      reordered, so that position identifies the heap object for the whole
      run; pointer comparison [p != q] becomes comparison of positions and a
      ring ([links]) is a list of positions.  The field [index] is kept as a
      separate piece of data, as in the source.
    - [double] and [float] values, and Eigen's [Vector3d], are kept abstract
      behind the interface [Numeric]: every operation of the source on them
      appears as an operation of that interface, including the narrowing
      conversion to [float].  Nothing is assumed about rounding.  The
      scalar fields of [Particle] and [Parameters], whose declarations are
      not at hand, are taken to be [double]; counters ([int], [size_t]) are
      unbounded integers, populations being bounded by [MAX_POP].
    - Worker threads are executed one after the other, in the order in which
      [std::thread]s are created. *)

From stdpp Require Import base list.
From Stdlib Require Import ZArith QArith Lia.

Local Open Scope Z_scope.

(** ** Numbers and vectors *)

Class Numeric := {
  real : Type;                          (* double *)
  vec3 : Type;                          (* Vec3 = Eigen::Vector3d *)
  of_int : Z → real;                    (* conversion of an integer *)
  to_float : real → real;               (* (float) x, and float-typed locals *)
  radd : real → real → real;
  rsub : real → real → real;
  rmul : real → real → real;
  rdiv : real → real → real;
  rltb : real → real → bool;            (* x < y *)
  risnan : real → bool;                 (* std::isnan *)
  rpow : real → real → real;            (* std::pow *)
  vadd : vec3 → vec3 → vec3;
  vsub : vec3 → vec3 → vec3;
  vscale : vec3 → real → vec3;          (* v *= s *)
  vdiv : vec3 → real → vec3;            (* v /= s *)
  vx : vec3 → real;                     (* v.x() *)
  vy : vec3 → real;                     (* v.y() *)
  vz : vec3 → real;                     (* v.z() *)
  vec3_of : real → real → real → vec3;  (* Vec3(x, y, z) *)
  half : real;                          (* the literal 0.5 *)
  squaredNorm : vec3 → real;
  norm : vec3 → real;
  normalized : vec3 → vec3;             (* the value of v after v.normalize() *)
}.

(** [x > y] is [y < x], as for the built-in comparison on floating point. *)
Definition rgtb `{Numeric} (x y : real) : bool := rltb y x.

(** Division of two [float] operands: the quotient is a [float] again. *)
Definition fdiv `{Numeric} (x y : real) : real := to_float (rdiv x y).

(** Subtraction of two [float] operands. *)
Definition fsub `{Numeric} (x y : real) : real := to_float (rsub x y).

(** ** Parameters *)

Inductive Food :=
  | RANDOM | AREA | X_COORD | RADIAL | COLLISIONS | CURVATURE
  | INHERIT | HYBRID | SHIFT | TENTACLE.

Inductive Split := ZERO | LONG.

Inductive Shape := SPHERE | PLANE | ENVIRONMENT | MESH.

#[global] Instance Food_eq_dec : EqDecision Food.
Proof. solve_decision. Defined.
#[global] Instance Split_eq_dec : EqDecision Split.
Proof. solve_decision. Defined.
#[global] Instance Shape_eq_dec : EqDecision Shape.
Proof. solve_decision. Defined.

Record Parameters `{Numeric} := {
  init_shape : Shape;
  food_mode : Food;
  split_mode : Split;
  threshold : real;
  max_degree : Z;
  spring_factor : real;
  planar_factor : real;
  bulge_factor : real;
  spring_length : real;
  collision_radius : real;
  collision_factor : real;
  collision_age_threshold : Z;
  dampening : real;
  curvature_factor : real;
}.

(** ** Cells *)

Record Particle `{Numeric} := {
  index : Z;
  position : vec3;
  normal : vec3;
  delta : vec3;
  links : list nat;
  food : real;
  age : Z;
  generation : Z;
  inherited : real;
  area : real;
  curvature : real;
  collisions : Z;
  collision_target : vec3;
  frozen : bool;
  environs : bool;
  special : bool;
  special_baby : bool;
}.

Section Setters.
Context `{Numeric}.

Definition set_links (p : Particle) (l : list nat) : Particle :=
  {| index := index p; position := position p; normal := normal p;
     delta := delta p; links := l; food := food p; age := age p;
     generation := generation p; inherited := inherited p; area := area p;
     curvature := curvature p; collisions := collisions p;
     collision_target := collision_target p; frozen := frozen p;
     environs := environs p; special := special p;
     special_baby := special_baby p |}.

Definition set_food (p : Particle) (f : real) : Particle :=
  {| index := index p; position := position p; normal := normal p;
     delta := delta p; links := links p; food := f; age := age p;
     generation := generation p; inherited := inherited p; area := area p;
     curvature := curvature p; collisions := collisions p;
     collision_target := collision_target p; frozen := frozen p;
     environs := environs p; special := special p;
     special_baby := special_baby p |}.

Definition set_frozen (p : Particle) (b : bool) : Particle :=
  {| index := index p; position := position p; normal := normal p;
     delta := delta p; links := links p; food := food p; age := age p;
     generation := generation p; inherited := inherited p; area := area p;
     curvature := curvature p; collisions := collisions p;
     collision_target := collision_target p; frozen := b;
     environs := environs p; special := special p;
     special_baby := special_baby p |}.

Definition set_special_baby (p : Particle) (b : bool) : Particle :=
  {| index := index p; position := position p; normal := normal p;
     delta := delta p; links := links p; food := food p; age := age p;
     generation := generation p; inherited := inherited p; area := area p;
     curvature := curvature p; collisions := collisions p;
     collision_target := collision_target p; frozen := frozen p;
     environs := environs p; special := special p;
     special_baby := b |}.

Definition set_delta (p : Particle) (d : vec3) : Particle :=
  {| index := index p; position := position p; normal := normal p;
     delta := d; links := links p; food := food p; age := age p;
     generation := generation p; inherited := inherited p; area := area p;
     curvature := curvature p; collisions := collisions p;
     collision_target := collision_target p; frozen := frozen p;
     environs := environs p; special := special p;
     special_baby := special_baby p |}.

(** The two collision accumulators are always written together. *)
Definition set_collision (p : Particle) (t : vec3) (n : Z) : Particle :=
  {| index := index p; position := position p; normal := normal p;
     delta := delta p; links := links p; food := food p; age := age p;
     generation := generation p; inherited := inherited p; area := area p;
     curvature := curvature p; collisions := n;
     collision_target := t; frozen := frozen p;
     environs := environs p; special := special p;
     special_baby := special_baby p |}.

End Setters.

(** ** Methods of [Particle] used by the engine

    [particle.cpp] is not part of the sources at hand.  The methods whose
    meaning the specification fixes are modelled from it; the others are
    operations of the interface [ParticleOps]. *)

Section ParticleSpec.
Context `{Numeric}.

(** Modelled from the spec: [Particle::connected_to(other)] (particle.cpp is
    missing) is the membership test of [other] against [links]. *)
Definition connected_to (p : Particle) (other : nat) : bool :=
  bool_decide (other ∈ links p).

(** Modelled from the spec: [Particle::add_link(other)] (particle.cpp is
    missing) appends [other] to this ring. *)
Definition add_link (p : Particle) (other : nat) : Particle :=
  set_links p (links p ++ [other]).

(** Modelled from the spec: [Particle::get_num_links()] (particle.cpp is
    missing) is the size of the ring. *)
Definition get_num_links (p : Particle) : Z := Z.of_nat (length (links p)).

(** The ring of the particle at position [a], empty for a dangling position. *)
Definition ring_of (cells : list Particle) (a : nat) : list nat :=
  from_option links [] (cells !! a).

(** Modelled from the spec: [Particle::good_loop()] (particle.cpp is
    missing) holds iff every consecutive pair [links[i]],
    [links[(i+1) mod k]] of the ring is itself directly linked. *)
Definition good_loop (cells : list Particle) (p : Particle) : bool :=
  let k := length (links p) in
  forallb (λ i,
    match links p !! i, links p !! ((i + 1) mod k)%nat with
    | Some a, Some b => bool_decide (b ∈ ring_of cells a)
    | _, _ => false
    end) (seq 0 k).

End ParticleSpec.

(** The methods of [Particle] that are left abstract.  Each is given the
    whole population, because it reads its neighbours through [links].
    [calculate], [calculate_curvature] and [update] return the new state of
    the receiver only: within a phase a cell writes its own fields and
    nothing else.  [split] changes the rings of the neighbours as well, so
    it returns the new state of every cell; it has no access to the vector
    [cells] itself, whose size it therefore cannot change. *)
Class ParticleOps `{Numeric} := {
  (* new Particle(index) *)
  Particle_new : Z → Particle;
  (* p->calculate(spring_factor, planar_factor, bulge_factor, spring_length) *)
  calculate : real → real → real → real → list Particle → Particle → Particle;
  (* p->calculate_curvature() *)
  calculate_curvature : list Particle → Particle → Particle;
  (* p->update(dampening) *)
  Particle_update : real → Particle → Particle;
  (* cells[parent]->split(cells[child], long_axis): the state of the cell at
     each position after the call *)
  Particle_split : list Particle → nat → nat → bool → nat → Particle → Particle;
}.

(** ** [Simulation::init]: the worker count *)

(** [std::thread::hardware_concurrency()] is an [unsigned int]; the
    subtraction is done on 32-bit unsigned values and wraps around. *)
Definition uint_max : Z := 2 ^ 32.

Definition uint_sub (a b : Z) : Z := (a - b) mod uint_max.

(** [num_threads = std::max(uint(1), std::thread::hardware_concurrency() - 2)] *)
Definition init_num_threads (hardware_concurrency : Z) : Z :=
  Z.max 1 (uint_sub hardware_concurrency 2).

(** ** [PlyLoader::connect] *)

Module PlyLoader.
Section Connect.
Context `{Numeric}.

(** [cells[i]->add_link(cells[j])] *)
Definition link (cells : list Particle) (i j : nat) : list Particle :=
  alter (λ p, add_link p j) i cells.

(** [cells[i]->connected_to(cells[j])] for positions within the vector. *)
Definition linked (cells : list Particle) (i j : nat) : bool :=
  from_option (λ p, connected_to p j) false (cells !! i).

(** [connect(i, j)].  [None] stands for an access past the end of [cells],
    which the source does not check. *)
Definition connect (i j : nat) (cells : list Particle) : option (list Particle) :=
  if decide (i < length cells ∧ j < length cells)%nat then
    let cells1 := if negb (linked cells i j) then link cells i j else cells in
    let cells2 := if negb (linked cells1 j i) then link cells1 j i else cells1 in
    Some cells2
  else None.

(** The state after [connect(i, j)] on a vector that holds both cells. *)
Definition connected (cells : list Particle) (i j : nat) : list Particle :=
  let cells1 := if negb (linked cells i j) then link cells i j else cells in
  if negb (linked cells1 j i) then link cells1 j i else cells1.

End Connect.
End PlyLoader.

(** ** What the engine takes from its surroundings *)

(** [MAX_POP] comes from [simulation.h], which is not at hand; [std::rand]
    is the C library's generator, modelled as a step on its hidden state. *)
Class Platform := {
  MAX_POP : nat;
  RAND_MAX : Z;
  rand_state : Type;
  rand : rand_state → Z * rand_state;
}.

(** The two spatial indexes ([tree::KDTree<Particle*, 3>] and [Grid]); a
    payload, like a grid entry, designates a cell by its position in
    [cells]. *)
Class Accelerators `{Numeric} := {
  KDTree : Type;
  tree_new : KDTree;
  (* tree.addPoint(point, payload, false) *)
  addPoint : KDTree → vec3 → nat → KDTree;
  splitOutstanding : KDTree → KDTree;
  (* the payloads of tree.searchCapacityLimitedBall(center, radius_sq, k) *)
  searchCapacityLimitedBall : KDTree → vec3 → real → nat → list nat;
  Grid : Type;
  (* new Grid(mx, mn, collision_radius) *)
  Grid_new : vec3 → vec3 → real → Grid;
  (* g->add_point(position, index) *)
  add_point : Grid → vec3 → Z → Grid;
  (* g->create_box_list(sorted, boxes) *)
  create_box_list : Grid → Grid;
  (* g->set_box(p) *)
  set_box : Grid → Particle → Grid;
  (* g->get_neighbors(p) *)
  get_neighbors : Grid → Particle → list nat;
}.

(** ** The engine *)

Section Engine.
Context `{Numeric} `{!ParticleOps} `{!Platform} `{!Accelerators}.

Record Simulation := {
  param : Parameters;
  cells : list Particle;
  frame_num : Z;
  frozen_num : Z;
  num_threads : nat;
  rng : rand_state;
}.

Definition with_cells (s : Simulation) (c : list Particle) : Simulation :=
  {| param := param s; cells := c; frame_num := frame_num s;
     frozen_num := frozen_num s; num_threads := num_threads s; rng := rng s |}.

(** *** Loops over cells *)

(** One iteration [Particle* p = cells[idx]; body(p)] of a loop whose body
    writes the fields of [p] only. *)
Definition visit (body : list Particle → nat → Particle → Particle)
    (cells : list Particle) (idx : nat) : list Particle :=
  match cells !! idx with
  | Some p => <[idx := body cells idx p]> cells
  | None => cells
  end.

(** [for (size_t idx = min; idx < max; ++idx) body(cells[idx])] *)
Definition for_range (body : list Particle → nat → Particle → Particle)
    (min max : nat) (cells : list Particle) : list Particle :=
  fold_left (visit body) (seq min (max - min)) cells.

(** [for (auto& p : cells) body(p)] *)
Definition for_each (body : list Particle → nat → Particle → Particle)
    (cells : list Particle) : list Particle :=
  for_range body 0 (length cells) cells.

(** One iteration of a loop over the cells that also carries a value of its
    own from cell to cell (the state of [rand], a counter). *)
Definition visit_with {A} (body : list Particle → Particle → A → Particle * A)
    (st : list Particle * A) (idx : nat) : list Particle * A :=
  match st.1 !! idx with
  | Some p => let '(p', a') := body st.1 p st.2 in (<[idx := p']> st.1, a')
  | None => st
  end.

(** The bounds [low], [high] handed to worker [i] of [W], for [n] cells. *)
Definition worker_range (n W i : nat) : nat * nat :=
  ((i * n) `div` W, ((i + 1) * n) `div` W)%nat.

(** The threads started by [add_cpu_forces] and [collision_tree], each
    running [worker(low, high)], run in the order of their creation. *)
Definition run_workers (worker : nat → nat → list Particle → list Particle)
    (W : nat) (cells : list Particle) : list Particle :=
  fold_left
    (λ c i, let '(low, high) := worker_range (length cells) W i in
            worker low high c)
    (seq 0 W) cells.

(** The positions visited by the workers, in the order of [run_workers]. *)
Definition worker_indices (n W : nat) : list nat :=
  flat_map (λ i, seq (worker_range n W i).1
                     ((worker_range n W i).2 - (worker_range n W i).1))
           (seq 0 W).

(** *** [set_matrices] *)

(** A matrix is the list of its rows.  A row of [V] or [N] is [None] until
    it is written ([resize] does not initialise).  Writing a row outside
    the matrix, or reading the index of a dangling neighbour, is an error
    ([None]). *)
Definition set_row {A} (M : list (option A)) (i : Z) (x : A) : option (list (option A)) :=
  if decide (0 ≤ i < Z.of_nat (length M)) then Some (<[Z.to_nat i := Some x]> M)
  else None.

(** The first loop: [V.row(p->index) << position; N.row(p->index) << normal]. *)
Definition write_rows (cells : list Particle) (VN : list (option vec3) * list (option vec3))
    : option (list (option vec3) * list (option vec3)) :=
  foldl (λ acc p,
           '(V, N) ← acc;
           V' ← set_row V (index p) (position p);
           N' ← set_row N (index p) (normal p);
           Some (V', N'))
        (Some VN) cells.

(** The rows after the first loop when every write is within the matrix:
    the rows [index p] are overwritten in the order of [cells]. *)
Definition rows_written (sel : Particle → vec3) (M : list (option vec3))
    (cells : list Particle) : list (option vec3) :=
  foldl (λ M p, <[Z.to_nat (index p) := Some (sel p)]> M) M cells.

(** [links[i]->index] *)
Definition index_at (cells : list Particle) (a : nat) : option Z :=
  index <$> cells !! a.

(** The faces emitted for one cell: for each slot [i] of the ring,
    [(p->index, links[(i+1) % size]->index, links[i]->index)]. *)
Definition faces_of (cells : list Particle) (p : Particle) : option (list (Z * Z * Z)) :=
  mapM (λ i,
          c ← links p !! i;
          b ← links p !! ((i + 1) mod length (links p))%nat;
          c_index ← index_at cells c;
          b_index ← index_at cells b;
          Some (index p, b_index, c_index))
       (seq 0 (length (links p))).

(** The rows [r] are the fan of cell [p]: one row per ring slot [i],
    namely [(p.index, links[(i+1) mod k].index, links[i].index)]. *)
Definition fan_of (cells : list Particle) (p : Particle) (r : list (Z * Z * Z)) : Prop :=
  length r = length (links p) ∧
  ∀ i c b qc qb,
    links p !! i = Some c →
    links p !! ((i + 1) mod length (links p))%nat = Some b →
    cells !! c = Some qc → cells !! b = Some qb →
    r !! i = Some (index p, index qb, index qc).

Record Matrices := {
  mat_V : list (option vec3);
  mat_N : list (option vec3);
  mat_F : list (Z * Z * Z);
}.

Definition set_matrices (cells : list Particle) : option Matrices :=
  let V := replicate (length cells) None in
  let N := replicate (length cells) None in
  '(V, N) ← write_rows cells (V, N);
  (* num_faces is the sum of the ring sizes; F has that many rows, and the
     third loop fills row cur_face = 0, 1, ... in turn *)
  F ← mapM (faces_of cells) cells;
  Some {| mat_V := V; mat_N := N; mat_F := concat F |}.

(** The value of [num_faces] after the second loop. *)
Definition num_faces (cells : list Particle) : nat :=
  foldl (λ n p, n + length (links p))%nat 0%nat cells.

(** *** [add_food] *)

(** [p->food += x] *)
Definition feed (p : Particle) (x : real) : Particle := set_food p (radd (food p) x).

(** [!std::isnan(amount) && amount > 0] *)
Definition usable (amount : real) : bool :=
  negb (risnan amount) && rgtb amount (of_int 0).

(** The body of the loop of [add_food] for the cell [p]. *)
Definition add_food_cell (prm : Parameters) (frame : Z) (cells : list Particle)
    (p : Particle) (r : rand_state) : Particle * rand_state :=
  if environs p || frozen p then (set_food p (of_int 0), r)
  else match food_mode prm with
  | RANDOM =>
      let '(n, r') := rand r in
      (feed p (fdiv (to_float (of_int n)) (to_float (of_int RAND_MAX))), r')
  | AREA => (feed p (area p), r)
  | X_COORD => (feed p (radd (vx (position p)) (of_int 50)), r)
  | RADIAL =>
      let dist := to_float (norm (position p)) in
      let dist := if rltb dist half then to_float half else dist in
      let dist := to_float (rpow dist (of_int 2)) in
      (feed p (rdiv (of_int 100) dist), r)
  | COLLISIONS =>
      (if bool_decide (collisions p > 0)
       then feed p (rdiv (of_int 1) (of_int (collisions p))) else p, r)
  | CURVATURE =>
      let p := calculate_curvature cells p in
      let amount := curvature p in
      (if usable amount then feed p (rpow amount (curvature_factor prm)) else p, r)
  | INHERIT => (feed p (inherited p), r)
  | HYBRID =>
      let p := calculate_curvature cells p in
      let amount := to_float (curvature p) in
      (if usable amount then feed p (rmul amount (area p)) else p, r)
  | SHIFT =>
      if bool_decide (frame < 250) then (feed p (area p), r)
      else
        let p := calculate_curvature cells p in
        let amount := to_float (curvature p) in
        (if usable amount then feed p amount else p, r)
  | TENTACLE =>
      if special p then
        let p := feed p (area p) in
        (if bool_decide (Z.rem frame 1500 = 1499) then set_special_baby p true else p, r)
      else if bool_decide (generation p < 2) then (feed p (area p), r)
      else (p, r)
  end.

(** The cells and the state of [rand] when the loop of [add_food] reaches
    position [i]. *)
Definition add_food_reached (s : Simulation) (i : nat) : list Particle * rand_state :=
  fold_left (visit_with (add_food_cell (param s) (frame_num s)))
            (seq 0 i) (cells s, rng s).

Definition add_food (s : Simulation) : Simulation :=
  let st := fold_left (visit_with (add_food_cell (param s) (frame_num s)))
                      (seq 0 (length (cells s))) (cells s, rng s) in
  {| param := param s; cells := st.1; frame_num := frame_num s;
     frozen_num := frozen_num s; num_threads := num_threads s; rng := st.2 |}.

(** *** [split] *)

(** What one iteration of the loop of [split] did with cell [i]; a record
    of the run, not data of the program. *)
Inductive split_event :=
  | Skipped (i : nat)                (* frozen or environs: continue *)
  | Passed (i : nat)                 (* neither condition holds *)
  | Full (i : nat)                   (* new_pop == MAX_POP: return *)
  | Froze (i : nat)                  (* not a good loop: frozen, continue *)
  | Spawned (i child : nat).         (* a new cell was appended *)

Definition event_cell (e : split_event) : nat :=
  match e with
  | Skipped i | Passed i | Full i | Froze i | Spawned i _ => i
  end.

(** The position of the cell appended by an iteration, if any. *)
Definition spawned (e : split_event) : option nat :=
  match e with Spawned _ child => Some child | _ => None end.

Inductive split_step :=
  | Next (cells : list Particle) (new_pop : nat)
  | Return (cells : list Particle).

(** [food > threshold || get_num_links() > max_degree] *)
Definition wants_split (prm : Parameters) (p : Particle) : bool :=
  rgtb (food p) (threshold prm) || bool_decide (get_num_links p > max_degree prm).

(** [if (!cells[a]->good_loop()) cells[a]->frozen = true] *)
Definition freeze_if_bad (cells : list Particle) (a : nat) : list Particle :=
  match cells !! a with
  | Some c => if negb (good_loop cells c) then <[a := set_frozen c true]> cells else cells
  | None => cells
  end.

(** [cells.push_back(new Particle(new_pop))], then
    [cells[i]->split(cells.back(), split_mode == LONG)]. *)
Definition spawn (prm : Parameters) (cells : list Particle) (i new_pop : nat) : list Particle :=
  let grown := cells ++ [Particle_new (Z.of_nat new_pop)] in
  let back := (length grown - 1)%nat in
  imap (Particle_split grown i back (bool_decide (split_mode prm = LONG))) grown.

(** The cell appended when [cells[i]] splits, as [Particle::split] leaves
    it: it is created with the index [new_pop]. *)
Definition newborn (prm : Parameters) (cells : list Particle) (i np : nat) : Particle :=
  Particle_split (cells ++ [Particle_new (Z.of_nat np)]) i np
    (bool_decide (split_mode prm = LONG)) np (Particle_new (Z.of_nat np)).

(** The body of the loop of [split] at index [i].  The loop keeps
    [i < fixed_pop <= cells.size()], so [cells[i]] exists. *)
Definition split_body (prm : Parameters) (i : nat) (cells : list Particle) (new_pop : nat)
    : split_step * split_event :=
  match cells !! i with
  | None => (Next cells new_pop, Skipped i)
  | Some p =>
      if frozen p || environs p then (Next cells new_pop, Skipped i)
      else if wants_split prm p then
        if bool_decide (new_pop = MAX_POP) then (Return cells, Full i)
        else if negb (good_loop cells p) then
          (Next (<[i := set_frozen p true]> cells) new_pop, Froze i)
        else
          (Next (freeze_if_bad (spawn prm cells i new_pop) new_pop) (S new_pop),
           Spawned i new_pop)
      else (Next cells new_pop, Passed i)
  end.

(** [for (auto i = 0; i < fixed_pop; i++)], over the indices still to visit. *)
Fixpoint split_loop (prm : Parameters) (todo : list nat) (cells : list Particle)
    (new_pop : nat) : list Particle * list split_event :=
  match todo with
  | [] => (cells, [])
  | i :: todo' =>
      match split_body prm i cells new_pop with
      | (Next cells' new_pop', e) =>
          let '(out, log) := split_loop prm todo' cells' new_pop' in (out, e :: log)
      | (Return cells', e) => (cells', [e])
      end
  end.

(** [split()], with the record of its run. *)
Definition split_run (prm : Parameters) (cells : list Particle)
    : list Particle * list split_event :=
  let new_pop := length cells in
  let fixed_pop := new_pop in
  split_loop prm (seq 0 fixed_pop) cells new_pop.

Definition split (s : Simulation) : Simulation :=
  with_cells s (split_run (param s) (cells s)).1.

(** The state in which the loop of [split] leaves the iterations [todo]:
    the cells and [new_pop], or [None] when one of them returned. *)
Fixpoint split_prefix (prm : Parameters) (todo : list nat) (cells : list Particle)
    (new_pop : nat) : option (list Particle * nat) :=
  match todo with
  | [] => Some (cells, new_pop)
  | i :: todo' =>
      match (split_body prm i cells new_pop).1 with
      | Next cells' new_pop' => split_prefix prm todo' cells' new_pop'
      | Return _ => None
      end
  end.

(** The cells and [new_pop] when the loop of [split] reaches index [i];
    [None] when it has returned before. *)
Definition split_reached (prm : Parameters) (cells : list Particle) (i : nat)
    : option (list Particle * nat) :=
  split_prefix prm (seq 0 i) cells (length cells).

(** The cells that an iteration of the loop of [split] leaves. *)
Definition step_cells (st : split_step) : list Particle :=
  match st with Next cells _ | Return cells => cells end.

(** What the engine needs of [Particle::split] (particle.cpp is missing)
    for a frozen cell to stay frozen: the call made for a splitting cell
    does not clear the flag of any cell. *)
Definition split_preserves_frozen : Prop :=
  ∀ grown parent child long_axis k q,
    frozen q = true →
    frozen (Particle_split grown parent child long_axis k q) = true.

(** *** Collision *)

(** The body of the inner loop of [collision_update_cell_range] for the
    returned payload [q], [p] being the cell at position [idx]. *)
Definition collide (c_sq : real) (cells : list Particle) (idx : nat)
    (p : Particle) (q : nat) : Particle :=
  match cells !! q with
  | Some qc =>
      let disp := vsub (position p) (position qc) in
      let dist := to_float (squaredNorm disp) in
      if bool_decide (idx ≠ q) && negb (connected_to p q) then
        let disp := normalized disp in
        let disp := vscale disp (rdiv (rsub c_sq dist) c_sq) in
        set_collision p (vadd (collision_target p) disp) (collisions p + 1)
      else p
  | None => p
  end.

(** The body of the outer loop: all payloads of the ball query around [p]. *)
Definition collision_scan (c_sq : real) (tree : KDTree) (max_neighbors : nat)
    (cells : list Particle) (idx : nat) (p : Particle) : Particle :=
  fold_left (collide c_sq cells idx)
            (searchCapacityLimitedBall tree (position p) c_sq max_neighbors) p.

Definition collision_update_cell_range (prm : Parameters) (min max : nat)
    (tree : KDTree) (max_neighbors : nat) (cells : list Particle) : list Particle :=
  let c_sq := rmul (collision_radius prm) (collision_radius prm) in
  for_range (collision_scan c_sq tree max_neighbors) min max cells.

(** [tree.addPoint] for every cell in turn, then [tree.splitOutstanding()]. *)
Definition build_tree (cells : list Particle) : KDTree :=
  splitOutstanding
    (foldl (λ t ip, addPoint t (position ip.2) ip.1) tree_new (imap pair cells)).

(** The last loop of each collision routine, for one cell. *)
Definition collision_finalize (prm : Parameters) (p : Particle) : Particle :=
  if bool_decide (collisions p ≠ 0) then
    let t := vdiv (collision_target p) (to_float (of_int (collisions p))) in
    let t := vscale t (collision_factor prm) in
    set_delta (set_collision p t (collisions p)) t
  else p.

Definition max_neighbors : nat := 10.

Definition collision_tree (s : Simulation) : Simulation :=
  let prm := param s in
  let tree := build_tree (cells s) in
  let scanned :=
    run_workers (λ low high, collision_update_cell_range prm low high tree max_neighbors)
                (num_threads s) (cells s) in
  with_cells s (for_each (λ _ _, collision_finalize prm) scanned).

(** The terms in which the collision phase is specified: the push that a
    point at [qpos] exerts on a cell at [ppos], i.e.
    [((r² − |pq|²)/r²) · (p−q)/|p−q|], the squared distance being held in a
    [float]; and the cells designated by those returned payloads [q] with
    [q ≠ p] and [q] not in [p.links]. *)
Definition repulsion (c_sq : real) (ppos qpos : vec3) : vec3 :=
  let disp := vsub ppos qpos in
  vscale (normalized disp) (rdiv (rsub c_sq (to_float (squaredNorm disp))) c_sq).

Definition colliders (cells : list Particle) (i : nat) (p : Particle)
    (found : list nat) : list Particle :=
  omap (λ q, if decide (q ≠ i ∧ q ∉ links p) then cells !! q else None) found.

(** The test [dist < c_sq] of the grid variant for the neighbour [n] of a
    cell at [ppos]. *)
Definition in_ball (c_sq : real) (cells : list Particle) (ppos : vec3) (n : nat) : bool :=
  match cells !! n with
  | Some qc => rltb (to_float (squaredNorm (vsub ppos (position qc)))) c_sq
  | None => false
  end.

(** The accumulators of [p] after the pushes of the cells [hits]. *)
Definition pushed (c_sq : real) (p : Particle) (hits : list Particle) : Particle :=
  set_collision p
    (foldl (λ t q, vadd t (repulsion c_sq (position p) (position q)))
           (collision_target p) hits)
    (collisions p + Z.of_nat (length hits)).

(** *** The grid variant *)

Definition int_max : Z := 2 ^ 31 - 1.

(** [if (m < x) m = x], [m] being a [float] and [x] a [double]. *)
Definition raise_to (m x : real) : real := if rltb m x then to_float x else m.

(** [if (m > x) m = x] *)
Definition lower_to (m x : real) : real := if rgtb m x then to_float x else m.

(** The bounding box computed by the first loop of [make_grid]. *)
Definition bounding_box (cells : list Particle) : vec3 * vec3 :=
  let big := int_max in
  let hi := to_float (of_int (- big)) in
  let lo := to_float (of_int big) in
  let '(mx, my, mz, nx, ny, nz) :=
    foldl (λ '(mx, my, mz, nx, ny, nz) p,
             let pos := position p in
             (raise_to mx (vx pos), raise_to my (vy pos), raise_to mz (vz pos),
              lower_to nx (vx pos), lower_to ny (vy pos), lower_to nz (vz pos)))
          (hi, hi, hi, lo, lo, lo) cells in
  (vec3_of mx my mz, vec3_of nx ny nz).

Definition make_grid (prm : Parameters) (cells : list Particle) : Grid :=
  let '(mx, mn) := bounding_box cells in
  let g := Grid_new mx mn (collision_radius prm) in
  foldl (λ g p, add_point g (position p) (index p)) g cells.

(** The body of the inner loop of [collision_grid] for the neighbour [n]. *)
Definition collide_grid (c_sq : real) (cells : list Particle) (idx : nat)
    (p : Particle) (n : nat) : Particle :=
  match cells !! n with
  | Some qc =>
      let disp := vsub (position p) (position qc) in
      let dist := to_float (squaredNorm disp) in
      if bool_decide (idx ≠ n) && rltb dist c_sq && negb (connected_to p n) then
        let dist := to_float (squaredNorm disp) in
        let disp := normalized disp in
        let disp := vscale disp (fdiv (fsub c_sq dist) c_sq) in
        set_collision p (vadd (collision_target p) disp) (collisions p + 1)
      else p
  | None => p
  end.



Definition grid_scan (prm : Parameters) (c_sq : real) (g : Grid)
    (cells : list Particle) (idx : nat) (p : Particle) : Particle :=
  if bool_decide (age p > collision_age_threshold prm) then p
  else fold_left (collide_grid c_sq cells idx) (get_neighbors g p) p.

(** The grid as the scan of [collision_grid] finds it: made, its box list
    created, and [set_box] called for every cell. *)
Definition prepare_grid (prm : Parameters) (cells : list Particle) : Grid :=
  let g := make_grid prm cells in
  let g := create_box_list g in
  foldl set_box g cells.

Definition collision_grid (s : Simulation) : Simulation :=
  let prm := param s in
  let g := prepare_grid prm (cells s) in
  let c_sq := to_float (rmul (collision_radius prm) (collision_radius prm)) in
  let scanned := for_each (grid_scan prm c_sq g) (cells s) in
  with_cells s (for_each (λ _ _, collision_finalize prm) scanned).

(** *** Forces and integration *)

(** The body of the loop of [parallel_cpu_forces]. *)
Definition force_body (prm : Parameters) (cells : list Particle) (idx : nat)
    (p : Particle) : Particle :=
  if bool_decide (init_shape prm = ENVIRONMENT) && (environs p || frozen p) then p
  else if negb (frozen p) then
    calculate (spring_factor prm) (planar_factor prm) (bulge_factor prm)
              (spring_length prm) cells p
  else p.

Definition parallel_cpu_forces (prm : Parameters) (min max : nat)
    (cells : list Particle) : list Particle :=
  for_range (force_body prm) min max cells.

Definition add_cpu_forces (s : Simulation) : Simulation :=
  with_cells s (run_workers (parallel_cpu_forces (param s)) (num_threads s) (cells s)).

(** The body of the loop of [update_position], on the cell and the running
    value of [frozen_num]. *)
Definition update_position_cell (prm : Parameters) (cells : list Particle)
    (p : Particle) (n : Z) : Particle * Z :=
  if frozen p then (p, n + 1) else (Particle_update (dampening prm) p, n).

Definition update_position (s : Simulation) : Simulation :=
  let st := fold_left (visit_with (update_position_cell (param s)))
                      (seq 0 (length (cells s))) (cells s, 0) in
  {| param := param s; cells := st.1; frame_num := frame_num s;
     frozen_num := st.2; num_threads := num_threads s; rng := rng s |}.

(** *** [update]: one frame *)

Definition growth (s : Simulation) : Simulation :=
  if bool_decide (length (cells s) < MAX_POP)%nat then split (add_food s) else s.

Definition update (s : Simulation) : Simulation :=
  let s := growth s in
  let s := collision_tree s in
  let s := add_cpu_forces s in
  let s := update_position s in
  {| param := param s; cells := cells s; frame_num := frame_num s + 1;
     frozen_num := frozen_num s; num_threads := num_threads s; rng := rng s |}.

(** [n] frames. *)
Definition frames (n : nat) (s : Simulation) : Simulation := Nat.iter n update s.

End Engine.

(** ** The remaining routines *)

Section MoreSetters.
Context `{Numeric}.

Definition set_inherited (p : Particle) (x : real) : Particle :=
  {| index := index p; position := position p; normal := normal p;
     delta := delta p; links := links p; food := food p; age := age p;
     generation := generation p; inherited := x; area := area p;
     curvature := curvature p; collisions := collisions p;
     collision_target := collision_target p; frozen := frozen p;
     environs := environs p; special := special p;
     special_baby := special_baby p |}.

Definition set_special (p : Particle) (b : bool) : Particle :=
  {| index := index p; position := position p; normal := normal p;
     delta := delta p; links := links p; food := food p; age := age p;
     generation := generation p; inherited := inherited p; area := area p;
     curvature := curvature p; collisions := collisions p;
     collision_target := collision_target p; frozen := frozen p;
     environs := environs p; special := b;
     special_baby := special_baby p |}.

Definition set_generation (p : Particle) (g : Z) : Particle :=
  {| index := index p; position := position p; normal := normal p;
     delta := delta p; links := links p; food := food p; age := age p;
     generation := g; inherited := inherited p; area := area p;
     curvature := curvature p; collisions := collisions p;
     collision_target := collision_target p; frozen := frozen p;
     environs := environs p; special := special p;
     special_baby := special_baby p |}.

(** [p->position = pos; p->normal = n] *)
Definition place (p : Particle) (pos n : vec3) : Particle :=
  {| index := index p; position := pos; normal := n;
     delta := delta p; links := links p; food := food p; age := age p;
     generation := generation p; inherited := inherited p; area := area p;
     curvature := curvature p; collisions := collisions p;
     collision_target := collision_target p; frozen := frozen p;
     environs := environs p; special := special p;
     special_baby := special_baby p |}.

End MoreSetters.

Section MoreEngine.
Context `{Numeric} `{!ParticleOps} `{!Platform} `{!Accelerators}.

(** *** [init] *)

(** The body of the INHERIT loop of [init]:
    [p->inherited += std::pow((double) std::rand() / RAND_MAX, 100.0)]. *)
Definition seed_inherited (cells : list Particle) (p : Particle) (r : rand_state)
    : Particle * rand_state :=
  let '(n, r') := rand r in
  (set_inherited p
     (radd (inherited p) (rpow (rdiv (of_int n) (of_int RAND_MAX)) (of_int 100))),
   r').

(** [init(_param)] on the engine [s], [geometry] being the result of
    [Geometry::create_geometry(param)] (geometry.cpp is not at hand) and
    [hardware_concurrency] the value the platform reports.  [None] stands
    for the access [cells[0]] on an empty population. *)
Definition init (geometry : list Particle) (hardware_concurrency : Z)
    (_param : Parameters) (s : Simulation) : option Simulation :=
  let num_threads := Z.to_nat (init_num_threads hardware_concurrency) in
  let st :=
    if decide (food_mode _param = INHERIT)
    then fold_left (visit_with seed_inherited) (seq 0 (length geometry))
                   (geometry, rng s)
    else (geometry, rng s) in
  cells ←
    (if decide (food_mode _param = TENTACLE) then
       match st.1 with
       | [] => None
       | p0 :: rest =>
           Some ((λ p, set_generation p 99) <$> (set_special p0 true :: rest))
       end
     else Some st.1);
  Some {| param := _param; cells := cells; frame_num := 0;
          frozen_num := frozen_num s; num_threads := num_threads; rng := st.2 |}.

(** *** [freeze_bad_particles] *)

Definition freeze_bad (cells : list Particle) (idx : nat) (p : Particle) : Particle :=
  if negb (environs p || frozen p || good_loop cells p) then set_frozen p true
  else p.

Definition freeze_bad_particles (s : Simulation) : Simulation :=
  with_cells s (for_each freeze_bad (cells s)).

(** *** [brute_force_collision] *)

(** The inner loop over [j] for the cell [cells[i]]; its body is that of
    the grid variant. *)
Definition brute_scan (c_sq : real) (cells : list Particle) (i : nat)
    (p : Particle) : Particle :=
  fold_left (collide_grid c_sq cells i) (seq 0 (length cells)) p.

Definition brute_force_collision (s : Simulation) : Simulation :=
  let prm := param s in
  let c_sq := to_float (rmul (collision_radius prm) (collision_radius prm)) in
  let scanned := for_each (brute_scan c_sq) (cells s) in
  with_cells s (for_each (λ _ _, collision_finalize prm) scanned).

(** *** [PlyLoader::create_sim] *)

(** What [igl::readPLY] delivers: the rows of [V], [F] and [N]. *)
Record Ply := {
  ply_V : list (real * real * real);
  ply_F : list (Z * Z * Z);
  ply_N : list (real * real * real);
}.

Inductive loaded :=
  | Cells (cells : list Particle)
  | Thrown          (* throw_runtime_error: the file could not be read *)
  | OutOfRange.     (* an access past the end of a matrix or of [cells] *)

Definition row_vec (r : real * real * real) : vec3 := vec3_of r.1.1 r.1.2 r.2.

(** The first loop, for row [i] of [V]: the new particle, or [None] when
    [N] is not empty and has no row [i]. *)
Definition load_vertex (N : list (real * real * real)) (i : nat)
    (v : real * real * real) : option Particle :=
  let p := Particle_new (Z.of_nat i) in
  let pos := row_vec v in
  match N with
  | [] => Some (place p pos (normalized pos))
  | _ => n ← N !! i; Some (place p pos (normalized (row_vec n)))
  end.

(** An entry of [F] converted to [size_t]: a negative entry becomes an
    index beyond any vector. *)
Definition face_index (z : Z) : option nat :=
  if decide (0 ≤ z) then Some (Z.to_nat z) else None.

(** [connect(F(i, a), F(i, b))] *)
Definition connect_entries (a b : Z) (cells : list Particle) : option (list Particle) :=
  i ← face_index a; j ← face_index b; PlyLoader.connect i j cells.

(** The body of the second loop for one row of [F]. *)
Definition connect_face (cells : option (list Particle)) (f : Z * Z * Z)
    : option (list Particle) :=
  c ← cells;
  c ← connect_entries f.1.1 f.1.2 c;
  c ← connect_entries f.1.1 f.2 c;
  connect_entries f.1.2 f.2 c.

(** [create_sim()] on a loader whose member [cells] holds [cells0]; [ply]
    is [None] when [igl::readPLY] fails. *)
Definition create_sim (ply : option Ply) (cells0 : list Particle) : loaded :=
  match ply with
  | None => Thrown
  | Some m =>
      match mapM id (imap (load_vertex (ply_N m)) (ply_V m)) with
      | None => OutOfRange
      | Some fresh =>
          match foldl connect_face (Some (cells0 ++ fresh)) (ply_F m) with
          | Some cells => Cells cells
          | None => OutOfRange
          end
      end
  end.

(** *** Terms in which the loops are specified *)

(** A loop whose body reads and writes the visited cell and the carried
    value only: the cells it leaves and the final carried value. *)
Fixpoint thread {A} (f : Particle → A → Particle * A) (l : list Particle) (a : A)
    : list Particle * A :=
  match l with
  | [] => ([], a)
  | p :: l =>
      let '(p', a') := f p a in
      let '(l', a'') := thread f l a' in
      (p' :: l', a'')
  end.

(** The bounds of worker [i]: [i * n / W]. *)
Definition worker_low (n W i : nat) : nat := (worker_range n W i).1.
Definition worker_high (n W i : nat) : nat := (worker_range n W i).2.

(** The fields of a cell that no collision routine writes. *)
Definition outside_collision (p : Particle)
    : Z * vec3 * vec3 * list nat * real * Z * Z * real * real * real * bool * bool * bool * bool :=
  (index p, position p, normal p, links p, food p, age p, generation p,
   inherited p, area p, curvature p, frozen p, environs p, special p,
   special_baby p).

(** The adjacency that [connect] is meant to keep: membership in rings is
    symmetric, a ring holds no cell twice, and ring members are cells. *)
Definition wired (cells : list Particle) : Prop :=
  (∀ a b, b ∈ ring_of cells a → a ∈ ring_of cells b) ∧
  (∀ a, NoDup (ring_of cells a)) ∧
  (∀ a b, b ∈ ring_of cells a → b < length cells)%nat.

Definition no_self_loop (cells : list Particle) : Prop :=
  ∀ a, a ∉ ring_of cells a.

(** The cells [a] and [b] are the two entries [x] and [y] of a row of [F],
    in either order. *)
Definition pair_of (x y : Z) (a b : nat) : Prop :=
  (Z.of_nat a = x ∧ Z.of_nat b = y) ∨ (Z.of_nat a = y ∧ Z.of_nat b = x).

(** The cells [a] and [b] are two corners of the face [f] that
    [create_sim] connects. *)
Definition edge_of (f : Z * Z * Z) (a b : nat) : Prop :=
  pair_of f.1.1 f.1.2 a b ∨ pair_of f.1.1 f.2 a b ∨ pair_of f.1.2 f.2 a b.

(** Every entry of the face [f] is the number of one of [n] rows. *)
Definition in_rows (n : nat) (f : Z * Z * Z) : Prop :=
  (0 ≤ f.1.1 < Z.of_nat n) ∧ (0 ≤ f.1.2 < Z.of_nat n) ∧ (0 ≤ f.2 < Z.of_nat n).

End MoreEngine.

(** ** Instances used in the examples

    The theorems below hold for every instance of the interfaces.  The
    examples run the engine on small populations, for which they fix:
    exact rational arithmetic, simple particle methods, a small [MAX_POP]
    and linear-scan spatial indexes. *)

Module Exact.

Definition Qsqrt (q : Q) : Q :=
  let q := Qred q in Z.sqrt (Qnum q) # Pos.sqrt (Qden q).

Definition V3 : Type := Q * Q * Q.

Definition v3_map2 (f : Q → Q → Q) (a b : V3) : V3 :=
  (Qred (f a.1.1 b.1.1), Qred (f a.1.2 b.1.2), Qred (f a.2 b.2)).

Definition v3_map (f : Q → Q) (a : V3) : V3 :=
  (Qred (f a.1.1), Qred (f a.1.2), Qred (f a.2)).

Definition v3_sq (a : V3) : Q :=
  Qred (a.1.1 * a.1.1 + a.1.2 * a.1.2 + a.2 * a.2)%Q.

Definition Qltb (x y : Q) : bool := negb (Qle_bool y x).

(** Rationals in lowest terms.  Narrowing to [float] loses nothing, there
    is no NaN, [rpow] is exact at integral exponents and [norm] at squares
    of rationals; [normalized] leaves the zero vector alone. *)
#[export] Instance numeric : Numeric := {|
  real := Q;
  vec3 := V3;
  of_int := inject_Z;
  to_float := λ x, x;
  radd := λ x y, Qred (x + y);
  rsub := λ x y, Qred (x - y);
  rmul := λ x y, Qred (x * y);
  rdiv := λ x y, Qred (x / y);
  rltb := Qltb;
  risnan := λ _, false;
  rpow := λ x y, Qred (Qpower x (Qnum (Qred y)));
  vadd := v3_map2 Qplus;
  vsub := v3_map2 Qminus;
  vscale := λ v s, v3_map (λ x, x * s)%Q v;
  vdiv := λ v s, v3_map (λ x, x / s)%Q v;
  vx := λ v, v.1.1;
  vy := λ v, v.1.2;
  vz := λ v, v.2;
  vec3_of := λ x y z, (x, y, z);
  half := (1 # 2)%Q;
  squaredNorm := v3_sq;
  norm := λ v, Qsqrt (v3_sq v);
  normalized := λ v,
    if Qltb 0 (v3_sq v) then v3_map (λ x, x / Qsqrt (v3_sq v))%Q v else v;
|}.

Definition zero3 : V3 := (0, 0, 0)%Q.

(** A fresh cell at [pos] with ring [l]. *)
Definition cell (idx : Z) (pos : V3) (l : list nat) : Particle :=
  {| index := idx; position := pos; normal := zero3; delta := zero3;
     links := l; food := 0%Q; age := 0; generation := 0; inherited := 0%Q;
     area := 0%Q; curvature := 0%Q; collisions := 0;
     collision_target := zero3; frozen := false; environs := false;
     special := false; special_baby := false |}.

Definition set_position (p : Particle) (pos : V3) : Particle :=
  {| index := index p; position := pos; normal := normal p;
     delta := delta p; links := links p; food := food p; age := age p;
     generation := generation p; inherited := inherited p; area := area p;
     curvature := curvature p; collisions := collisions p;
     collision_target := collision_target p; frozen := frozen p;
     environs := environs p; special := special p;
     special_baby := special_baby p |}.

(** The spring term of [calculate]: for each neighbour [q],
    [spring_factor * (|pq| - spring_length) * (q - p)/|pq|] is added to
    [delta]. *)
Definition spring (sf sl : Q) (cells : list Particle) (p : Particle) : Particle :=
  set_delta p
    (foldl (λ d a,
              match cells !! a with
              | Some q =>
                  let pq := vsub (position q) (position p) in
                  vadd d (vscale (normalized pq) (sf * (norm pq - sl))%Q)
              | None => d
              end)
           (delta p) (links p)).

(** [update(dampening)]: [position += dampening * delta], then the
    per-frame accumulators are reset. *)
Definition integrate (damp : Q) (p : Particle) : Particle :=
  let p := set_position p (vadd (position p) (vscale (delta p) damp)) in
  set_delta (set_collision p zero3 0) zero3.

(** A minimal [split]: parent and child become linked, the child is put
    at the parent's position and the food is shared equally. *)
Definition bud (grown : list Particle) (parent child : nat) (long_axis : bool)
    (k : nat) (q : Particle) : Particle :=
  match grown !! parent with
  | None => q
  | Some p =>
      if bool_decide (k = parent) then
        set_food (set_links q (links q ++ [child])) (Qred (food p / 2))
      else if bool_decide (k = child) then
        set_food (set_links (set_position q (position p)) [parent]) (Qred (food p / 2))
      else q
  end.

#[export] Instance ops : ParticleOps := {|
  Particle_new := λ idx, cell idx zero3 [];
  calculate := λ sf pf bf sl cells p, spring sf sl cells p;
  calculate_curvature := λ cells p, p;
  Particle_update := integrate;
  Particle_split := bud;
|}.

(** A population of at most four cells and a linear congruential [rand]. *)
#[export] Instance platform : Platform := {|
  MAX_POP := 4;
  RAND_MAX := 2 ^ 31 - 1;
  rand_state := Z;
  rand := λ r, let r' := (1103515245 * r + 12345) mod 2 ^ 31 in (r', r');
|}.

(** Linear scans: the tree is the list of its points and answers a ball
    query with the first [k] points inside the ball; the grid has a single
    bucket, so every cell is a neighbour of every cell. *)
#[export] Instance scans : Accelerators := {|
  KDTree := list (V3 * nat);
  tree_new := [];
  addPoint := λ t pt payload, t ++ [(pt, payload)];
  splitOutstanding := λ t, t;
  searchCapacityLimitedBall := λ t c r_sq k,
    take k (map snd (filter (λ e, Is_true (Qle_bool (v3_sq (vsub c e.1)) r_sq)) t));
  Grid := list Z;
  Grid_new := λ _ _ _, [];
  add_point := λ g _ idx, g ++ [idx];
  create_box_list := λ g, g;
  set_box := λ g _, g;
  get_neighbors := λ g _, map Z.to_nat g;
|}.

(** Parameters of the examples: all factors are 1, the radius is 1. *)
Definition params (shape : Shape) (mode : Food) (thr : Q) (age_thr : Z) : Parameters :=
  {| init_shape := shape; food_mode := mode; split_mode := ZERO;
     threshold := thr; max_degree := 6; spring_factor := 1%Q;
     planar_factor := 1%Q; bulge_factor := 1%Q; spring_length := 1%Q;
     collision_radius := 1%Q; collision_factor := 1%Q;
     collision_age_threshold := age_thr; dampening := 1%Q;
     curvature_factor := 3%Q |}.

(** Three cells without any link, and the same three as a triangle. *)
Definition loose : list Particle :=
  [cell 0 (0, 0, 0)%Q []; cell 1 (1, 0, 0)%Q []; cell 2 (0, 1, 0)%Q []].

Definition triangle : list Particle :=
  [cell 0 (0, 0, 0)%Q [1; 2]%nat; cell 1 (1, 0, 0)%Q [2; 0]%nat;
   cell 2 (0, 1, 0)%Q [0; 1]%nat].

(** Two cells half a unit apart that are not linked (radius 1). *)
Definition crowd : list Particle :=
  [cell 0 (0, 0, 0)%Q []; cell 1 (1 # 2, 0, 0)%Q []].

(** A cell well fed (food 5) whose two neighbours are not linked to each
    other, so that its ring is not a good loop. *)
Definition ragged : list Particle :=
  [set_food (cell 0 (0, 0, 0)%Q [1; 2]%nat) 5%Q;
   cell 1 (2, 0, 0)%Q [0%nat]; cell 2 (0, 2, 0)%Q [0%nat]].

(** A single cell of curvature 2 and area 1/10. *)
Definition curved : list Particle :=
  [{| index := 0; position := zero3; normal := zero3; delta := zero3;
      links := []; food := 0%Q; age := 0; generation := 0; inherited := 0%Q;
      area := (1 # 10)%Q; curvature := 2%Q; collisions := 0;
      collision_target := zero3; frozen := false; environs := false;
      special := false; special_baby := false |}].

(** The first cell of [crowd], frozen. *)
Definition frozen_crowd : list Particle :=
  [set_frozen (cell 0 (0, 0, 0)%Q []) true; cell 1 (1 # 2, 0, 0)%Q []].



(** The cells [l], each given the food [f]. *)
Definition fed (f : Q) (l : list Particle) : list Particle :=
  (λ p, set_food p f) <$> l.

(** A file of three vertices and one face, without normals, and the same
    file with a face that names a fourth vertex. *)
Definition sheet : Ply :=
  {| ply_V := [(0, 0, 0); (1, 0, 0); (0, 1, 0)]%Q; ply_F := [(0, 1, 2)];
     ply_N := [] |}.

Definition torn : Ply :=
  {| ply_V := [(0, 0, 0); (1, 0, 0); (0, 1, 0)]%Q; ply_F := [(0, 1, 3)];
     ply_N := [] |}.

(** Twelve unlinked cells on a line, a sixteenth of a unit apart: every
    cell is within the radius 1 of every other. *)
Definition cluster : list Particle :=
  imap (λ j _, cell (Z.of_nat j) (Qred (Z.of_nat j # 16), 0, 0)%Q []) (replicate 12 ()).

Definition sim (prm : Parameters) (c : list Particle) (frame : Z) : Simulation :=
  {| param := prm; cells := c; frame_num := frame; frozen_num := 0;
     num_threads := 2; rng := 1 |}.

End Exact.

(** ** Binary floating point

    The arithmetic of the program on the values that the examples below
    meet: an operation on [double]s rounds its exact result to a
    significand of 53 bits, narrowing to [float] rounds to 24 bits, both to
    nearest with ties to even.  Overflow, underflow, infinities and NaN are
    not represented (they do not arise in the examples), [std::pow] is
    taken at integral exponents and [sqrt] at squares of rationals. *)

Module Binary.

(** [2^e] for an integer exponent. *)
Definition pow2 (e : Z) : Q :=
  if decide (0 ≤ e) then inject_Z (2 ^ e) else (1 # Z.to_pos (2 ^ (- e)))%Q.

(** Rounding of a rational to the nearest binary number with a significand
    of [prec] bits, ties to even. *)
Definition round (prec : Z) (q : Q) : Q :=
  let q := Qred q in
  if Qeq_bool q 0 then 0%Q else
  let a := if Qle_bool 0 q then q else Qred (- q) in
  let e0 := Z.log2 (Z.abs (Qnum q)) - Z.log2 (Zpos (Qden q)) in
  let e := if Qle_bool (pow2 e0) a then e0 else e0 - 1 in
  let ulp := pow2 (e - prec + 1) in
  let m := Qred (a / ulp) in
  let fl := Qnum m / Zpos (Qden m) in
  let rest := Qred (m - inject_Z fl) in
  let up :=
    match Qcompare rest (1 # 2) with
    | Lt => false
    | Gt => true
    | Eq => Z.odd fl
    end in
  let n := if up then fl + 1 else fl in
  Qred ((if Qle_bool 0 q then inject_Z n else inject_Z (- n)) * ulp).

Definition double (q : Q) : Q := round 53 q.
Definition float (q : Q) : Q := round 24 q.

Definition V3 : Type := Q * Q * Q.

Definition v3_map2 (f : Q → Q → Q) (a b : V3) : V3 :=
  (double (f a.1.1 b.1.1), double (f a.1.2 b.1.2), double (f a.2 b.2)).

Definition v3_map (f : Q → Q) (a : V3) : V3 :=
  (double (f a.1.1), double (f a.1.2), double (f a.2)).

(** [x*x + y*y + z*z], every operation rounded. *)
Definition v3_sq (a : V3) : Q :=
  double (double (double (a.1.1 * a.1.1) + double (a.1.2 * a.1.2))
          + double (a.2 * a.2)).

#[export] Instance numeric : Numeric := {|
  real := Q;
  vec3 := V3;
  of_int := λ z, double (inject_Z z);
  to_float := float;
  radd := λ x y, double (x + y);
  rsub := λ x y, double (x - y);
  rmul := λ x y, double (x * y);
  rdiv := λ x y, double (x / y);
  rltb := Exact.Qltb;
  risnan := λ _, false;
  rpow := λ x y, double (Qpower x (Qnum (Qred y)));
  vadd := v3_map2 Qplus;
  vsub := v3_map2 Qminus;
  vscale := λ v s, v3_map (λ x, x * s)%Q v;
  vdiv := λ v s, v3_map (λ x, x / s)%Q v;
  vx := λ v, v.1.1;
  vy := λ v, v.1.2;
  vz := λ v, v.2;
  vec3_of := λ x y z, (x, y, z);
  half := (1 # 2)%Q;
  squaredNorm := v3_sq;
  norm := λ v, double (Exact.Qsqrt (v3_sq v));
  normalized := λ v,
    if Exact.Qltb 0 (v3_sq v)
    then v3_map (λ x, x / double (Exact.Qsqrt (v3_sq v)))%Q v else v;
|}.

Definition zero3 : V3 := (0, 0, 0)%Q.

Definition cell (idx : Z) (pos : V3) (l : list nat) : Particle :=
  {| index := idx; position := pos; normal := zero3; delta := zero3;
     links := l; food := 0%Q; age := 0; generation := 0; inherited := 0%Q;
     area := 0%Q; curvature := 0%Q; collisions := 0;
     collision_target := zero3; frozen := false; environs := false;
     special := false; special_baby := false |}.

(** The linear scans of [Exact.scans]. *)
#[export] Instance scans : Accelerators := {|
  KDTree := list (V3 * nat);
  tree_new := [];
  addPoint := λ t pt payload, t ++ [(pt, payload)];
  splitOutstanding := λ t, t;
  searchCapacityLimitedBall := λ t c r_sq k,
    take k (map snd (filter (λ e, Is_true (Qle_bool (v3_sq (vsub c e.1)) r_sq)) t));
  Grid := list Z;
  Grid_new := λ _ _ _, [];
  add_point := λ g _ idx, g ++ [idx];
  create_box_list := λ g, g;
  set_box := λ g _, g;
  get_neighbors := λ g _, map Z.to_nat g;
|}.

(** All factors are 1; the collision radius is [radius]. *)
Definition params (radius : Q) : Parameters :=
  {| init_shape := SPHERE; food_mode := AREA; split_mode := ZERO;
     threshold := 1%Q; max_degree := 6; spring_factor := 1%Q;
     planar_factor := 1%Q; bulge_factor := 1%Q; spring_length := 1%Q;
     collision_radius := radius; collision_factor := 1%Q;
     collision_age_threshold := 0; dampening := 1%Q;
     curvature_factor := 3%Q |}.

(** Two cells half a unit apart that are not linked. *)
Definition crowd : list Particle :=
  [cell 0 (0, 0, 0)%Q []; cell 1 (1 # 2, 0, 0)%Q []].

#[export] Instance platform : Platform := Exact.platform.

Definition sim (prm : Parameters) (c : list Particle) : Simulation :=
  {| param := prm; cells := c; frame_num := 0; frozen_num := 0;
     num_threads := 2; rng := 1 |}.

End Binary.

(** * Properties *)

(** ** The worker count *)

Lemma init_num_threads_regular (hw : Z) :
  2 ≤ hw < uint_max → init_num_threads hw = Z.max 1 (hw - 2).
Proof.
  intros Hhw. unfold init_num_threads, uint_sub.
  rewrite Z.mod_small; [done | unfold uint_max in *; lia].
Qed.

(** C7: when the platform reports 0 or 1 hardware threads, the unsigned
    subtraction wraps around and the worker count is [2^32 - 2] or
    [2^32 - 1], not [max(1, hardware_parallelism - 2) = 1]; from 2 upwards
    (here at 2, 3 and 8) the count is the expected one. *)
Theorem init_num_threads_wraps :
  init_num_threads 0 = 4294967294 ∧ init_num_threads 1 = 4294967295 ∧
  init_num_threads 2 = 1 ∧ init_num_threads 3 = 1 ∧ init_num_threads 8 = 6.
Proof. repeat split; reflexivity. Qed.

(** ** [connect] *)

Section ConnectProps.
Context `{Numeric}.
Import PlyLoader.

Implicit Types (cells : list Particle) (i j k : nat).

Lemma ring_of_link cells i j k :
  ring_of (link cells i j) k =
  if bool_decide (k = i) then
    (if bool_decide (i < length cells)%nat then ring_of cells i ++ [j] else [])
  else ring_of cells k.
Proof.
  unfold ring_of, link. case_bool_decide as Hk.
  - subst k. case_bool_decide as Hi.
    + destruct (lookup_lt_is_Some_2 cells i Hi) as [p Hp].
      by rewrite list_lookup_alter_eq, Hp.
    + rewrite list_lookup_alter_eq.
      by rewrite (lookup_ge_None_2 cells i) by lia.
  - by rewrite list_lookup_alter_ne.
Qed.

Lemma linked_ring cells i j : linked cells i j = bool_decide (j ∈ ring_of cells i).
Proof.
  unfold linked, ring_of, connected_to. by destruct (cells !! i).
Qed.

Lemma link_length cells i j : length (link cells i j) = length cells.
Proof. apply length_alter. Qed.

Lemma link_other cells i j k : k ≠ i → link cells i j !! k = cells !! k.
Proof. intros. unfold link. by rewrite list_lookup_alter_ne. Qed.

Lemma link_comm cells i j a b :
  i ≠ j → link (link cells i a) j b = link (link cells j b) i a.
Proof. intros. unfold link. by rewrite list_alter_alter_ne. Qed.

Lemma ring_of_link_ne cells i j k : k ≠ i → ring_of (link cells i j) k = ring_of cells k.
Proof. intros. by rewrite ring_of_link, bool_decide_eq_false_2. Qed.

Lemma ring_of_link_eq cells i j :
  (i < length cells)%nat → ring_of (link cells i j) i = ring_of cells i ++ [j].
Proof. intros. by rewrite ring_of_link, !bool_decide_eq_true_2. Qed.

Lemma connect_in_range cells i j :
  (i < length cells)%nat → (j < length cells)%nat →
  connect i j cells = Some (connected cells i j).
Proof. intros. unfold connect. by rewrite decide_True. Qed.

Lemma connected_comm cells i j : connected cells i j = connected cells j i.
Proof.
  destruct (decide (i = j)) as [->|Hne]; [done|].
  unfold connected. rewrite !linked_ring.
  assert (j ≠ i) as Hne' by congruence.
  destruct (bool_decide (j ∈ ring_of cells i)) eqn:Hij;
    destruct (bool_decide (i ∈ ring_of cells j)) eqn:Hji; simpl;
    rewrite ?linked_ring; rewrite ?ring_of_link_ne by done;
    rewrite ?Hij, ?Hji; simpl; try done.
  by rewrite link_comm.
Qed.

(** [connect] fails in both orders or in none, with the same result. *)
Lemma connect_comm cells i j : connect i j cells = connect j i cells.
Proof.
  unfold connect.
  destruct (decide (i < length cells ∧ j < length cells)%nat) as [[Hi Hj]|Hn].
  - rewrite decide_True by lia. f_equal. apply connected_comm.
  - by rewrite decide_False by lia.
Qed.

Lemma connected_length cells i j : length (connected cells i j) = length cells.
Proof.
  unfold connected.
  repeat (destruct (negb _); rewrite ?link_length); done.
Qed.

(** The ring of [i] after [connect(i, j)]: [j] is appended iff absent. *)
Lemma connected_ring_l cells i j :
  (i < length cells)%nat →
  ring_of (connected cells i j) i =
  if bool_decide (j ∈ ring_of cells i) then ring_of cells i else ring_of cells i ++ [j].
Proof.
  intros Hi. unfold connected. rewrite !linked_ring.
  destruct (decide (i = j)) as [->|Hne].
  - destruct (bool_decide (j ∈ ring_of cells j)) eqn:Hjj; simpl.
    + by rewrite Hjj.
    + rewrite ring_of_link_eq by done.
      rewrite bool_decide_eq_true_2
        by (apply elem_of_app; right; by apply list_elem_of_singleton).
      simpl. by apply ring_of_link_eq.
  - destruct (bool_decide (j ∈ ring_of cells i)) eqn:Hij; simpl;
      destruct (negb _); rewrite ?ring_of_link_ne, ?ring_of_link_eq by done; done.
Qed.

Lemma connected_other cells i j k :
  k ≠ i → k ≠ j → connected cells i j !! k = cells !! k.
Proof.
  intros. unfold connected.
  repeat (destruct (negb _); rewrite ?link_other by done); done.
Qed.

Lemma connected_linked cells i j :
  (i < length cells)%nat → j ∈ ring_of (connected cells i j) i.
Proof.
  intros. rewrite connected_ring_l by done.
  case_bool_decide; [done|].
  apply elem_of_app; right. by apply list_elem_of_singleton.
Qed.

Lemma connected_fixpoint cells i j :
  (i < length cells)%nat → (j < length cells)%nat →
  connected (connected cells i j) i j = connected cells i j.
Proof.
  intros Hi Hj.
  pose proof (connected_linked cells i j Hi) as Hij.
  pose proof (connected_linked cells j i Hj) as Hji.
  rewrite <-(connected_comm cells i j) in Hji.
  unfold connected at 1. rewrite !linked_ring.
  rewrite (bool_decide_eq_true_2 _ Hij). simpl.
  by rewrite (bool_decide_eq_true_2 _ Hji).
Qed.

(** C9: on a vector that holds both cells, [connect(i, j)] succeeds; a
    second call with the same arguments changes nothing; [connect(j, i)]
    gives the same state; afterwards each of the two cells is in the ring
    of the other; and each ring is the old ring with the other cell appended
    iff it was absent, every other cell being untouched. *)
Theorem connect_idempotent_commutative (cells : list Particle) (i j : nat) :
  (i < length cells)%nat → (j < length cells)%nat →
  ∃ cells',
    connect i j cells = Some cells' ∧
    connect i j cells' = Some cells' ∧
    connect j i cells = Some cells' ∧
    (j ∈ ring_of cells' i ∧ i ∈ ring_of cells' j) ∧
    (j ∈ ring_of cells' i ↔ i ∈ ring_of cells' j) ∧
    ring_of cells' i =
      (if bool_decide (j ∈ ring_of cells i) then ring_of cells i
       else ring_of cells i ++ [j]) ∧
    ring_of cells' j =
      (if bool_decide (i ∈ ring_of cells j) then ring_of cells j
       else ring_of cells j ++ [i]) ∧
    (∀ k, k ≠ i → k ≠ j → cells' !! k = cells !! k).
Proof.
  intros Hi Hj. exists (connected cells i j).
  assert (j ∈ ring_of (connected cells i j) i) as Hij
    by by apply connected_linked.
  assert (i ∈ ring_of (connected cells i j) j) as Hji
    by (rewrite connected_comm; by apply connected_linked).
  split_and!; try done.
  - by apply connect_in_range.
  - rewrite connect_in_range by (by rewrite connected_length).
    by rewrite connected_fixpoint.
  - rewrite connect_comm. by apply connect_in_range.
  - by apply connected_ring_l.
  - rewrite connected_comm. by apply connected_ring_l.
  - intros k ??. by apply connected_other.
Qed.

End ConnectProps.

Lemma connect_idempotent_commutative_witness :
  ∃ cells',
    PlyLoader.connect 0 1 Exact.loose = Some cells' ∧
    PlyLoader.connect 0 1 cells' = Some cells' ∧
    PlyLoader.connect 1 0 Exact.loose = Some cells' ∧
    (1%nat ∈ ring_of cells' 0 ∧ 0%nat ∈ ring_of cells' 1) ∧
    (1%nat ∈ ring_of cells' 0 ↔ 0%nat ∈ ring_of cells' 1) ∧
    ring_of cells' 0 = [1%nat] ∧ ring_of cells' 1 = [0%nat] ∧
    (∀ k, k ≠ 0%nat → k ≠ 1%nat → cells' !! k = Exact.loose !! k).
Proof.
  apply (connect_idempotent_commutative Exact.loose 0 1); simpl; lia.
Defined.

(** ** [set_matrices] *)

Section SnapshotProps.
Context `{Numeric}.

Implicit Types (cells : list Particle) (p : Particle).

Lemma rows_written_length sel M cells : length (rows_written sel M cells) = length M.
Proof.
  revert M. induction cells as [|p l IH]; intros M; simpl; [done|].
  unfold rows_written in *. simpl. by rewrite IH, length_insert.
Qed.

Lemma write_rows_Some cells V N :
  length V = length N →
  Forall (λ p, 0 ≤ index p < Z.of_nat (length V)) cells →
  write_rows cells (V, N) =
  Some (rows_written position V cells, rows_written normal N cells).
Proof.
  revert V N. induction cells as [|p l IH]; intros V N HVN Hin; [done|].
  apply Forall_cons in Hin as [Hp Hl]. simpl in Hp.
  unfold write_rows, rows_written in *. simpl.
  unfold set_row. rewrite decide_True by lia.
  simpl. rewrite decide_True by lia. simpl.
  apply IH; rewrite ?length_insert; done.
Qed.

(** A row that no later cell writes keeps its content. *)
Lemma rows_written_other sel M cells (k : nat) :
  Forall (λ p, 0 ≤ index p) cells →
  Z.of_nat k ∉ index <$> cells →
  rows_written sel M cells !! k = M !! k.
Proof.
  revert M. induction cells as [|p l IH]; intros M Hpos Hk; [done|].
  apply Forall_cons in Hpos as [Hp Hl].
  rewrite fmap_cons in Hk. apply not_elem_of_cons in Hk as [Hkp Hkl].
  unfold rows_written in *. simpl. rewrite IH by done.
  apply list_lookup_insert_ne. lia.
Qed.

Lemma rows_written_lookup sel M cells p :
  Forall (λ p, 0 ≤ index p < Z.of_nat (length M)) cells →
  NoDup (index <$> cells) →
  p ∈ cells →
  rows_written sel M cells !! Z.to_nat (index p) = Some (Some (sel p)).
Proof.
  revert M. induction cells as [|q l IH]; intros M Hin Hnd Hp.
  { by apply elem_of_nil in Hp. }
  apply Forall_cons in Hin as [Hq Hl].
  rewrite fmap_cons in Hnd. apply NoDup_cons in Hnd as [Hql Hnd].
  change (rows_written sel M (q :: l))
    with (rows_written sel (<[Z.to_nat (index q) := Some (sel q)]> M) l).
  destruct (decide (index p ∈ index <$> l)) as [Hpl|Hpl].
  - (* a later cell has this index: by distinctness it is [p] itself *)
    apply elem_of_cons in Hp as [->|Hp]; [by destruct Hql|].
    apply IH; [by rewrite length_insert | done | done].
  - apply elem_of_cons in Hp as [->|Hp].
    2: { destruct Hpl. by apply list_elem_of_fmap_2. }
    rewrite rows_written_other.
    + apply list_lookup_insert_eq. lia.
    + eapply Forall_impl; [exact Hl|]. simpl. lia.
    + by rewrite Z2Nat.id by lia.
Qed.

Lemma num_faces_sum cells :
  num_faces cells = sum_list ((λ p, length (links p)) <$> cells).
Proof.
  unfold num_faces.
  assert (∀ n, foldl (λ n p, n + length (links p))%nat n cells =
               (n + sum_list ((λ p, length (links p)) <$> cells))%nat) as Hgen.
  { induction cells as [|p l IH]; intros n; simpl; [lia|].
    rewrite IH. symmetry. apply Nat.add_assoc. }
  by rewrite Hgen.
Qed.

(** The faces of one cell whose neighbours are cells. *)
Lemma faces_of_Some cells p :
  Forall (λ a, a < length cells)%nat (links p) →
  ∃ r, faces_of cells p = Some r ∧ length r = length (links p) ∧
    ∀ i c b qc qb,
      links p !! i = Some c →
      links p !! ((i + 1) mod length (links p))%nat = Some b →
      cells !! c = Some qc → cells !! b = Some qb →
      r !! i = Some (index p, index qb, index qc).
Proof.
  intros Hring. unfold faces_of.
  set (g := λ i : nat, _).
  assert (is_Some (mapM g (seq 0 (length (links p))))) as [r Hr].
  { apply mapM_is_Some_2, Forall_lookup_2. intros n i Hn.
    apply lookup_seq in Hn as [-> Hlt]. simpl.
    assert ((n + 1) mod length (links p) < length (links p))%nat as Hlt'
      by (apply Nat.mod_upper_bound; lia).
    destruct (lookup_lt_is_Some_2 _ _ Hlt) as [c Hc].
    destruct (lookup_lt_is_Some_2 _ _ Hlt') as [b Hb].
    pose proof (Forall_lookup_1 _ _ _ _ Hring Hc) as Hc'.
    pose proof (Forall_lookup_1 _ _ _ _ Hring Hb) as Hb'.
    destruct (lookup_lt_is_Some_2 _ _ Hc') as [qc Hqc].
    destruct (lookup_lt_is_Some_2 _ _ Hb') as [qb Hqb].
    unfold g, index_at. simpl. rewrite Hc, Hb. simpl. rewrite Hqc, Hqb. by eexists. }
  exists r. split; [done|].
  pose proof (mapM_Some_1 _ _ _ Hr) as H2.
  pose proof (Forall2_length _ _ _ H2) as Hlen. rewrite length_seq in Hlen.
  split; [done|].
  intros i c b qc qb Hc Hb Hqc Hqb.
  assert (i < length (links p))%nat as Hlt by (by eapply lookup_lt_Some).
  destruct (Forall2_lookup_l _ _ _ i i H2) as (y & Hy & Hgy).
  { by apply lookup_seq_lt. }
  rewrite Hy. f_equal.
  unfold g, index_at in Hgy. rewrite Hc, Hb in Hgy. simpl in Hgy.
  rewrite Hqc, Hqb in Hgy. simpl in Hgy. congruence.
Qed.

Lemma length_concat_fans cells (l : list Particle) (rows : list (list (Z * Z * Z))) :
  Forall2 (fan_of cells) l rows →
  length (concat rows) = sum_list ((λ p, length (links p)) <$> l).
Proof.
  induction 1 as [|p r l rows [Hlen _] _ IH]; [done|].
  simpl. rewrite length_app, IH, Hlen. done.
Qed.

Lemma fans_of_faces cells (l : list Particle) (rows : list (list (Z * Z * Z))) :
  Forall (λ p, Forall (λ a, a < length cells)%nat (links p)) l →
  Forall2 (λ p r, faces_of cells p = Some r) l rows →
  Forall2 (fan_of cells) l rows.
Proof.
  intros Hring. induction 1 as [|p r l' rows' Hr _ IH]; constructor.
  - apply Forall_cons in Hring as [Hp _].
    destruct (faces_of_Some cells p Hp) as (r' & Hr' & Hfan).
    rewrite Hr in Hr'. by injection Hr' as <-.
  - apply IH. by apply Forall_cons in Hring as [_ ?].
Qed.

(** C8: when the indices of the cells are distinct row numbers and every
    ring member is a cell, [set_matrices] succeeds; [V] and [N] have one row
    per cell and row [index p] holds the position, respectively the normal,
    of [p]; [F] has as many rows as there are ring slots in total, and is
    the concatenation, in the order of [cells], of the fans of the cells. *)
Theorem set_matrices_layout (cells : list Particle) :
  Forall (λ p, 0 ≤ index p < Z.of_nat (length cells)) cells →
  NoDup (index <$> cells) →
  Forall (λ p, Forall (λ a, a < length cells)%nat (links p)) cells →
  ∃ M rows,
    set_matrices cells = Some M ∧
    length (mat_V M) = length cells ∧
    length (mat_N M) = length cells ∧
    (∀ p, p ∈ cells →
       mat_V M !! Z.to_nat (index p) = Some (Some (position p)) ∧
       mat_N M !! Z.to_nat (index p) = Some (Some (normal p))) ∧
    length (mat_F M) = num_faces cells ∧
    num_faces cells = sum_list ((λ p, length (links p)) <$> cells) ∧
    mat_F M = concat rows ∧
    Forall2 (fan_of cells) cells rows.
Proof.
  intros Hidx Hnd Hring.
  assert (is_Some (mapM (faces_of cells) cells)) as [rows Hrows].
  { apply mapM_is_Some_2. eapply Forall_impl; [exact Hring|].
    intros p Hp. simpl. destruct (faces_of_Some cells p Hp) as (r & -> & _).
    by eexists. }
  assert (Forall2 (fan_of cells) cells rows) as Hfans.
  { apply mapM_Some_1 in Hrows. by apply fans_of_faces. }
  exists {| mat_V := rows_written position (replicate (length cells) None) cells;
            mat_N := rows_written normal (replicate (length cells) None) cells;
            mat_F := concat rows |}, rows.
  cbn [mat_V mat_N mat_F].
  split_and!; try done.
  - unfold set_matrices.
    rewrite write_rows_Some; [| done | by rewrite length_replicate].
    simpl. by rewrite Hrows.
  - by rewrite rows_written_length, length_replicate.
  - by rewrite rows_written_length, length_replicate.
  - intros p Hp.
    split; apply rows_written_lookup; rewrite ?length_replicate; done.
  - rewrite num_faces_sum. by eapply length_concat_fans.
  - apply num_faces_sum.
Qed.

End SnapshotProps.

Lemma set_matrices_layout_witness :
  ∃ M rows,
    set_matrices Exact.triangle = Some M ∧
    length (mat_V M) = 3%nat ∧
    length (mat_N M) = 3%nat ∧
    (∀ p, p ∈ Exact.triangle →
       mat_V M !! Z.to_nat (index p) = Some (Some (position p)) ∧
       mat_N M !! Z.to_nat (index p) = Some (Some (normal p))) ∧
    length (mat_F M) = num_faces Exact.triangle ∧
    num_faces Exact.triangle = 6%nat ∧
    mat_F M = concat rows ∧
    Forall2 (fan_of Exact.triangle) Exact.triangle rows.
Proof.
  apply (set_matrices_layout Exact.triangle).
  - repeat constructor; simpl; lia.
  - apply (bool_decide_unpack _). vm_compute. exact I.
  - repeat constructor; simpl; lia.
Defined.

(** ** Loops over cells *)

Section SweepProps.
Context `{Numeric}.

Implicit Types (cells : list Particle) (p : Particle) (l : list nat).
Implicit Types (body : list Particle → nat → Particle → Particle).

(** The cells after the loop body has run at the positions [l], in turn. *)
Abbreviation sweep body l cells := (fold_left (visit body) l cells).

Lemma visit_length body cells idx : length (visit body cells idx) = length cells.
Proof. unfold visit. destruct (cells !! idx); [apply length_insert | done]. Qed.

Lemma visit_other body cells idx k :
  k ≠ idx → visit body cells idx !! k = cells !! k.
Proof.
  intros. unfold visit. destruct (cells !! idx); [|done].
  by apply list_lookup_insert_ne.
Qed.

Lemma visit_at body cells idx p :
  cells !! idx = Some p → visit body cells idx !! idx = Some (body cells idx p).
Proof.
  intros Hp. unfold visit. rewrite Hp.
  apply list_lookup_insert_eq. by eapply lookup_lt_Some.
Qed.

Lemma sweep_length body l cells : length (sweep body l cells) = length cells.
Proof.
  revert cells. induction l as [|i l IH]; intros cells; simpl; [done|].
  by rewrite IH, visit_length.
Qed.

Lemma sweep_untouched body l cells k :
  k ∉ l → sweep body l cells !! k = cells !! k.
Proof.
  revert cells. induction l as [|i l IH]; intros cells Hk; simpl; [done|].
  apply not_elem_of_cons in Hk as [Hki Hkl].
  by rewrite IH, visit_other.
Qed.

(** A cell on which the body does nothing stays as it is, wherever the
    loop runs. *)
Lemma sweep_inert body l cells k p :
  cells !! k = Some p →
  (∀ c, body c k p = p) →
  sweep body l cells !! k = Some p.
Proof.
  revert cells. induction l as [|i l IH]; intros cells Hp Hbody; simpl; [done|].
  apply IH; [|done].
  destruct (decide (k = i)) as [->|Hne].
  - by rewrite (visit_at _ _ _ p), Hbody.
  - by rewrite visit_other.
Qed.

(** The loop over [0 .. n): cell [i] ends as the body leaves it when the
    loop reaches it, that is, on the cells as they are after the loop over
    [0 .. i). *)
Lemma sweep_seq_lookup body cells (lo n i : nat) p :
  cells !! i = Some p → (lo ≤ i < lo + n)%nat →
  sweep body (seq lo n) cells !! i =
  Some (body (sweep body (seq lo (i - lo)) cells) i p).
Proof.
  intros Hp Hi.
  replace n with ((i - lo) + S (n - S (i - lo)))%nat at 1 by lia.
  rewrite seq_app, fold_left_app. simpl.
  replace (lo + (i - lo))%nat with i by lia.
  rewrite sweep_untouched.
  2: { rewrite elem_of_seq. lia. }
  apply visit_at. rewrite sweep_untouched; [done|].
  rewrite elem_of_seq. lia.
Qed.

Lemma for_each_lookup body cells i p :
  cells !! i = Some p →
  for_each body cells !! i = Some (body (for_range body 0 i cells) i p).
Proof.
  intros Hp. unfold for_each, for_range. rewrite !Nat.sub_0_r.
  rewrite (sweep_seq_lookup _ _ _ _ _ p); [by rewrite Nat.sub_0_r | done |].
  apply lookup_lt_Some in Hp. lia.
Qed.

(** A field that the body never changes has its old value after the loop. *)
Lemma sweep_preserves {A} (f : Particle → A) body l cells k :
  (∀ c i p, f (body c i p) = f p) →
  f <$> (sweep body l cells !! k) = f <$> (cells !! k).
Proof.
  intros Hf. revert cells. induction l as [|i l IH]; intros cells; simpl; [done|].
  rewrite IH. destruct (decide (k = i)) as [->|Hne].
  - unfold visit. destruct (cells !! i) as [p|] eqn:Hp; [|by rewrite Hp].
    rewrite list_lookup_insert_eq by (by eapply lookup_lt_Some).
    simpl. by rewrite Hf.
  - by rewrite visit_other.
Qed.

(** *** The partition of the cells among the workers *)

Lemma run_workers_sweep body W cells :
  run_workers (for_range body) W cells =
  sweep body (worker_indices (length cells) W) cells.
Proof.
  unfold run_workers, worker_indices.
  generalize (length cells) as n. intros n.
  generalize (seq 0 W) as ws. intros ws. revert cells.
  induction ws as [|w ws IH]; intros cells; simpl; [done|].
  rewrite fold_left_app, <-IH. done.
Qed.

Lemma worker_prefix (n W k : nat) :
  (0 < W)%nat →
  flat_map (λ i, seq (worker_range n W i).1
                     ((worker_range n W i).2 - (worker_range n W i).1))
           (seq 0 k)
  = seq 0 ((k * n) `div` W).
Proof.
  intros HW. induction k as [|k IH].
  { simpl. by rewrite Nat.Div0.div_0_l. }
  rewrite seq_S, flat_map_app, IH. simpl. rewrite app_nil_r.
  assert ((k * n) `div` W ≤ ((k + 1) * n) `div` W)%nat as Hmono.
  { apply Nat.Div0.div_le_mono. lia. }
  replace (n + k * n)%nat with ((k + 1) * n)%nat by lia.
  rewrite <-seq_app. f_equal. lia.
Qed.

(** With at least one worker, the ranges are the cells [0 .. n) in order. *)
Lemma worker_indices_all (n W : nat) : (0 < W)%nat → worker_indices n W = seq 0 n.
Proof.
  intros HW. unfold worker_indices. rewrite worker_prefix by done.
  by rewrite (Nat.mul_comm W n), Nat.div_mul by lia.
Qed.

Lemma run_workers_for_each body W cells :
  (0 < W)%nat → run_workers (for_range body) W cells = for_each body cells.
Proof.
  intros. rewrite run_workers_sweep, worker_indices_all by done.
  unfold for_each, for_range. by rewrite Nat.sub_0_r.
Qed.

Lemma run_workers_length body W cells :
  length (run_workers (for_range body) W cells) = length cells.
Proof. rewrite run_workers_sweep. apply sweep_length. Qed.

Lemma for_each_length body cells : length (for_each body cells) = length cells.
Proof. apply sweep_length. Qed.

End SweepProps.

(** ** The collision phase *)

Section CollisionProps.
Context `{Numeric} `{!ParticleOps} `{!Platform} `{!Accelerators}.

Implicit Types (cells : list Particle) (p : Particle).

Lemma set_collision_same p : set_collision p (collision_target p) (collisions p) = p.
Proof. by destruct p. Qed.

Lemma collide_as_set c_sq cells i p q :
  collide c_sq cells i p q =
  match colliders cells i p [q] with
  | [qc] => set_collision p
              (vadd (collision_target p) (repulsion c_sq (position p) (position qc)))
              (collisions p + 1)
  | _ => p
  end.
Proof.
  unfold collide, colliders, connected_to, repulsion. simpl.
  destruct (cells !! q) as [qc|]; [|by case_decide].
  destruct (decide (q ≠ i ∧ q ∉ links p)) as [[Hqi Hql]|Hn].
  - rewrite bool_decide_eq_true_2 by congruence.
    by rewrite bool_decide_eq_false_2.
  - destruct (decide (i = q)) as [->|Hne].
    { by rewrite bool_decide_eq_false_2 by (by intros ?). }
    rewrite bool_decide_eq_true_2 by done.
    rewrite bool_decide_eq_true_2; [done|].
    destruct (decide (q ∈ links p)); [done|]. destruct Hn. split; congruence.
Qed.

Lemma fold_collide_from c_sq cells i p found t n :
  fold_left (collide c_sq cells i) found (set_collision p t n) =
  set_collision p
    (foldl (λ t q, vadd t (repulsion c_sq (position p) (position q))) t
           (colliders cells i p found))
    (n + Z.of_nat (length (colliders cells i p found))).
Proof.
  revert t n. induction found as [|q found IH]; intros t n; simpl.
  { f_equal. lia. }
  rewrite collide_as_set.
  assert (colliders cells i (set_collision p t n) [q] = colliders cells i p [q])
    as -> by done.
  unfold colliders at 2 3. unfold colliders at 1. simpl.
  destruct (decide (q ≠ i ∧ q ∉ links p)) as [Hq|Hq]; simpl.
  - destruct (cells !! q) as [qc|]; simpl.
    + change (set_collision (set_collision p t n) ?t' ?n')
        with (set_collision p t' n').
      rewrite IH. f_equal. lia.
    + apply IH.
  - apply IH.
Qed.

(** The inner loop adds one push per collider, in the order of the result
    of the query. *)
Lemma fold_collide c_sq cells i p found :
  fold_left (collide c_sq cells i) found p =
  pushed c_sq p (colliders cells i p found).
Proof.
  rewrite <-(set_collision_same p) at 1. apply fold_collide_from.
Qed.

Lemma collision_scan_pushed c_sq tree k cells i p :
  collision_scan c_sq tree k cells i p =
  pushed c_sq p
    (colliders cells i p (searchCapacityLimitedBall tree (position p) c_sq k)).
Proof. apply fold_collide. Qed.

(** The scan of one cell reads nothing but positions from the other cells. *)
Lemma colliders_positions cells cells' i p found :
  (∀ q, position <$> cells !! q = position <$> cells' !! q) →
  position <$> colliders cells i p found = position <$> colliders cells' i p found.
Proof.
  intros Hpos. unfold colliders.
  induction found as [|q found IH]; simpl; [done|].
  specialize (Hpos q).
  destruct (decide (q ≠ i ∧ q ∉ links p)); [|done].
  destruct (cells !! q), (cells' !! q); simplify_eq/=; [|done].
  by f_equal.
Qed.

Lemma pushed_positions c_sq p (hits hits' : list Particle) :
  position <$> hits = position <$> hits' →
  pushed c_sq p hits = pushed c_sq p hits'.
Proof.
  intros Hpos. unfold pushed.
  assert (length hits = length hits') as Hlen.
  { by rewrite <-(length_fmap position hits), Hpos, length_fmap. }
  rewrite Hlen. f_equal.
  generalize (collision_target p) as t.
  revert hits' Hpos Hlen. induction hits as [|q hits IH]; intros [|q' hits'] Hpos Hlen t;
    simpl in *; try done.
  injection Hpos as Hq Hpos. rewrite Hq. apply IH; [done | lia].
Qed.

Lemma pushed_position c_sq p hits : position (pushed c_sq p hits) = position p.
Proof. done. Qed.

(** *** The grid variant *)

Lemma in_ball_positions c_sq cells cells' ppos n :
  position <$> cells !! n = position <$> cells' !! n →
  in_ball c_sq cells ppos n = in_ball c_sq cells' ppos n.
Proof.
  intros Hpos. unfold in_ball.
  destruct (cells !! n) as [q1|], (cells' !! n) as [q2|]; simpl in Hpos; try done.
  injection Hpos as Hpos. by rewrite Hpos.
Qed.

Lemma collide_grid_positions c_sq cells cells' i p n :
  position <$> cells !! n = position <$> cells' !! n →
  collide_grid c_sq cells i p n = collide_grid c_sq cells' i p n.
Proof.
  intros Hpos. unfold collide_grid.
  destruct (cells !! n) as [q1|], (cells' !! n) as [q2|]; simpl in Hpos; try done.
  injection Hpos as Hpos. by rewrite Hpos.
Qed.

Lemma collide_grid_position c_sq cells i p n :
  position (collide_grid c_sq cells i p n) = position p.
Proof.
  unfold collide_grid. destruct (cells !! n); [|done]. by destruct (_ && _).
Qed.

Lemma grid_scan_position (prm : Parameters) c_sq g cells i p :
  position (grid_scan prm c_sq g cells i p) = position p.
Proof.
  unfold grid_scan. destruct (bool_decide _); [done|].
  generalize (get_neighbors g p) as nb. intros nb. revert p.
  induction nb as [|n nb IH]; intros p; [done|].
  simpl. by rewrite IH, collide_grid_position.
Qed.

Lemma grid_scan_positions (prm : Parameters) c_sq g cells cells' i p :
  (∀ q, position <$> cells !! q = position <$> cells' !! q) →
  grid_scan prm c_sq g cells i p = grid_scan prm c_sq g cells' i p.
Proof.
  intros Hpos. unfold grid_scan. destruct (bool_decide _); [done|].
  generalize (get_neighbors g p) as nb. intros nb. revert p.
  induction nb as [|n nb IH]; intros p; [done|].
  simpl. by rewrite IH, (collide_grid_positions _ cells cells').
Qed.

(** The state of a cell after [collision_grid]. *)
Lemma collision_grid_lookup (s : Simulation) (i : nat) p :
  cells s !! i = Some p →
  let c_sq := to_float (rmul (collision_radius (param s)) (collision_radius (param s))) in
  cells (collision_grid s) !! i =
  Some (collision_finalize (param s)
          (grid_scan (param s) c_sq (prepare_grid (param s) (cells s)) (cells s) i p)).
Proof.
  intros Hp c_sq. unfold collision_grid. cbn [cells with_cells].
  fold c_sq. set (scan := grid_scan _ c_sq _).
  erewrite for_each_lookup; [done|].
  rewrite (for_each_lookup _ _ _ p) by done. f_equal.
  apply grid_scan_positions. intros q. unfold for_range.
  apply sweep_preserves. intros c k r. apply grid_scan_position.
Qed.

(** [collision_tree] as two loops over the cells. *)
Lemma collision_tree_unfold (s : Simulation) :
  cells (collision_tree s) =
  for_each (λ _ _, collision_finalize (param s))
    (run_workers
       (for_range
          (collision_scan
             (rmul (collision_radius (param s)) (collision_radius (param s)))
             (build_tree (cells s)) max_neighbors))
       (num_threads s) (cells s)).
Proof. reflexivity. Qed.

(** The state of a cell after [collision_tree]. *)
Lemma collision_tree_lookup (s : Simulation) (i : nat) p :
  (0 < num_threads s)%nat →
  cells s !! i = Some p →
  let c_sq := rmul (collision_radius (param s)) (collision_radius (param s)) in
  cells (collision_tree s) !! i =
  Some (collision_finalize (param s)
          (pushed c_sq p
             (colliders (cells s) i p
                (searchCapacityLimitedBall (build_tree (cells s)) (position p)
                   c_sq max_neighbors)))).
Proof.
  intros HW Hp c_sq.
  rewrite collision_tree_unfold, run_workers_for_each by done.
  fold c_sq. set (scan := collision_scan c_sq _ _).
  assert (∀ c k q, position (scan c k q) = position q) as Hpos.
  { intros c k q.
    exact (f_equal position (collision_scan_pushed _ _ _ c k q)). }
  erewrite for_each_lookup; [done|].
  rewrite (for_each_lookup _ _ _ p) by done. f_equal.
  unfold scan at 1. rewrite collision_scan_pushed.
  apply pushed_positions, colliders_positions.
  intros q. unfold for_range. by apply sweep_preserves.
Qed.

Lemma collision_tree_length (s : Simulation) :
  length (cells (collision_tree s)) = length (cells s).
Proof.
  by rewrite collision_tree_unfold, for_each_length, run_workers_length.
Qed.

Lemma collision_grid_length (s : Simulation) :
  length (cells (collision_grid s)) = length (cells s).
Proof.
  unfold collision_grid. cbn [cells with_cells]. by rewrite !for_each_length.
Qed.

(** C1: with at least one worker, the collision phase leaves every cell
    [p] as follows.  Let [hits] be the cells [q] returned by the
    capacity-limited ball query around [p] (radius² [r²], at most 10
    points) with [q ≠ p] and [q] not in [p.links].  For each of them the
    vector [((r² − |pq|²)/r²) · (p−q)/|p−q|] has been added to
    [collision_target] and [collisions] has been incremented; then, if
    [collisions > 0], [collision_target] has been divided by [collisions]
    and scaled by [collision_factor], and [delta] has been assigned that
    vector, whatever it held; a cell with [collisions = 0] is as before. *)
Theorem collision_tree_contribution (s : Simulation) (i : nat) (p : Particle) :
  (0 < num_threads s)%nat →
  cells s !! i = Some p →
  let c_sq := rmul (collision_radius (param s)) (collision_radius (param s)) in
  let found :=
    searchCapacityLimitedBall (build_tree (cells s)) (position p) c_sq 10 in
  let hits := colliders (cells s) i p found in
  let scanned := pushed c_sq p hits in
  cells (collision_tree s) !! i = Some (collision_finalize (param s) scanned) ∧
  collision_target scanned =
    foldl (λ t q, vadd t (repulsion c_sq (position p) (position q)))
          (collision_target p) hits ∧
  collisions scanned = collisions p + Z.of_nat (length hits) ∧
  (collisions scanned > 0 →
     let average :=
       vdiv (collision_target scanned) (to_float (of_int (collisions scanned))) in
     delta (collision_finalize (param s) scanned) =
       vscale average (collision_factor (param s)) ∧
     collision_target (collision_finalize (param s) scanned) =
       vscale average (collision_factor (param s))) ∧
  (collisions scanned = 0 → collision_finalize (param s) scanned = scanned).
Proof.
  intros HW Hp c_sq found hits scanned.
  split_and!; try done.
  - by apply collision_tree_lookup.
  - intros Hn average. unfold collision_finalize.
    rewrite bool_decide_eq_true_2 by lia. done.
  - intros Hn. unfold collision_finalize.
    by rewrite bool_decide_eq_false_2 by lia.
Qed.

End CollisionProps.

Section CollisionExamples.
Import Exact.

Lemma collision_tree_contribution_witness :
  let s := Exact.sim (Exact.params SPHERE AREA 1%Q 0) Exact.crowd 0 in
  cells (collision_tree s) !! 0%nat =
  Some (set_delta
          (set_collision (Exact.cell 0 (0, 0, 0)%Q []) (- 3 # 4, 0, 0)%Q 1)
          (- 3 # 4, 0, 0)%Q).
Proof.
  refine (eq_trans
    (proj1 (collision_tree_contribution
              (Exact.sim (Exact.params SPHERE AREA 1%Q 0) Exact.crowd 0) 0
              (Exact.cell 0 (0, 0, 0)%Q []) _ _)) _).
  - simpl. lia.
  - reflexivity.
  - vm_compute. reflexivity.
Defined.


End CollisionExamples.

(** ** Loops that carry a value of their own *)

Section SweepWithProps.
Context `{Numeric} {A : Type}.

Implicit Types (body : list Particle → Particle → A → Particle * A).
Implicit Types (st : list Particle * A) (l : list nat) (p : Particle).

Lemma visit_with_length body st idx :
  length (visit_with body st idx).1 = length st.1.
Proof.
  unfold visit_with. destruct (st.1 !! idx); [|done].
  destruct (body _ _ _). apply length_insert.
Qed.

Lemma visit_with_other body st idx k :
  k ≠ idx → (visit_with body st idx).1 !! k = st.1 !! k.
Proof.
  intros. unfold visit_with. destruct (st.1 !! idx); [|done].
  destruct (body _ _ _). by apply list_lookup_insert_ne.
Qed.

Lemma visit_with_at body st idx p :
  st.1 !! idx = Some p →
  (visit_with body st idx).1 !! idx = Some (body st.1 p st.2).1.
Proof.
  intros Hp. unfold visit_with. rewrite Hp.
  destruct (body _ _ _). apply list_lookup_insert_eq. by eapply lookup_lt_Some.
Qed.

Lemma sweep_with_length body l st :
  length (fold_left (visit_with body) l st).1 = length st.1.
Proof.
  revert st. induction l as [|i l IH]; intros st; simpl; [done|].
  by rewrite IH, visit_with_length.
Qed.

Lemma sweep_with_untouched body l st k :
  k ∉ l → (fold_left (visit_with body) l st).1 !! k = st.1 !! k.
Proof.
  revert st. induction l as [|i l IH]; intros st Hk; simpl; [done|].
  apply not_elem_of_cons in Hk as [Hki Hkl].
  by rewrite IH, visit_with_other.
Qed.

Lemma sweep_with_inert body l st k p :
  st.1 !! k = Some p →
  (∀ c a, (body c p a).1 = p) →
  (fold_left (visit_with body) l st).1 !! k = Some p.
Proof.
  revert st. induction l as [|i l IH]; intros st Hp Hbody; simpl; [done|].
  apply IH; [|done].
  destruct (decide (k = i)) as [->|Hne].
  - by rewrite (visit_with_at _ _ _ p), Hbody.
  - by rewrite visit_with_other.
Qed.

(** Cell [i] ends as the body leaves it when the loop over [0 .. n)
    reaches it. *)
Lemma sweep_with_seq_lookup body st (n i : nat) p :
  st.1 !! i = Some p → (i < n)%nat →
  (fold_left (visit_with body) (seq 0 n) st).1 !! i =
  Some (body (fold_left (visit_with body) (seq 0 i) st).1 p
             (fold_left (visit_with body) (seq 0 i) st).2).1.
Proof.
  intros Hp Hi.
  replace n with (i + S (n - S i))%nat at 1 by lia.
  rewrite seq_app, fold_left_app. simpl.
  rewrite sweep_with_untouched.
  2: { rewrite elem_of_seq. lia. }
  apply visit_with_at. rewrite sweep_with_untouched; [done|].
  rewrite elem_of_seq. lia.
Qed.

End SweepWithProps.

(** ** Growth: [add_food] *)

Section FoodProps.
Context `{Numeric} `{!ParticleOps} `{!Platform}.

Implicit Types (s : Simulation) (p : Particle).

Lemma add_food_lookup s i p :
  cells s !! i = Some p →
  cells (add_food s) !! i =
  Some (add_food_cell (param s) (frame_num s)
          (add_food_reached s i).1 p (add_food_reached s i).2).1.
Proof.
  intros Hp. unfold add_food, add_food_reached. cbn [cells].
  apply sweep_with_seq_lookup; [done|]. by eapply lookup_lt_Some.
Qed.

Lemma add_food_length s : length (cells (add_food s)) = length (cells s).
Proof. unfold add_food. cbn [cells]. apply sweep_with_length. Qed.

Lemma add_food_inert s i p :
  cells s !! i = Some p → environs p || frozen p = true →
  cells (add_food s) !! i = Some (set_food p (of_int 0)).
Proof.
  intros Hp Hinert. rewrite (add_food_lookup s i p Hp).
  unfold add_food_cell. by rewrite Hinert.
Qed.

(** C6, as the code has it: under SHIFT a cell that is neither frozen nor
    environs receives its area on a frame numbered below 250; on a later
    frame its curvature is recomputed and, held in a [float], added as it
    is when it is not NaN and positive, and nothing is added otherwise.
    The exponent [curvature_factor] plays no part. *)
Theorem add_food_shift (s : Simulation) (i : nat) (p : Particle) :
  food_mode (param s) = SHIFT →
  cells s !! i = Some p → frozen p = false → environs p = false →
  (frame_num s < 250 →
     cells (add_food s) !! i = Some (set_food p (radd (food p) (area p)))) ∧
  (250 ≤ frame_num s →
     let p' := calculate_curvature (add_food_reached s i).1 p in
     let amount := to_float (curvature p') in
     cells (add_food s) !! i =
     Some (if negb (risnan amount) && rgtb amount (of_int 0)
           then set_food p' (radd (food p') amount) else p')).
Proof.
  intros Hmode Hp Hfrozen Henv.
  rewrite (add_food_lookup s i p Hp). unfold add_food_cell.
  rewrite Hmode, Hfrozen, Henv. simpl.
  split; intros Hframe.
  - by rewrite bool_decide_eq_true_2.
  - rewrite bool_decide_eq_false_2 by lia. simpl.
    unfold usable, feed. by destruct (_ && _).
Qed.

(** C10, as the code has it: [add_food] assigns [food = 0] to every cell
    that is frozen or environs and changes nothing else of it; any other
    cell is left as the food policy leaves it, with the cells and the
    state of [rand] as they are when the loop reaches it. *)
Theorem add_food_resets_inert (s : Simulation) (i : nat) (p : Particle) :
  cells s !! i = Some p →
  (environs p || frozen p = true →
     cells (add_food s) !! i = Some (set_food p (of_int 0)) ∧
     food (set_food p (of_int 0)) = of_int 0 ∧
     frozen (set_food p (of_int 0)) = frozen p ∧
     environs (set_food p (of_int 0)) = environs p) ∧
  (environs p || frozen p = false →
     cells (add_food s) !! i =
     Some (add_food_cell (param s) (frame_num s)
             (add_food_reached s i).1 p (add_food_reached s i).2).1).
Proof.
  intros Hp. split.
  - intros Hinert. by rewrite (add_food_inert s i p).
  - intros _. by apply add_food_lookup.
Qed.

End FoodProps.

Section FoodExamples.
Import Exact.

Lemma add_food_shift_witness :
  let s := sim (params SPHERE SHIFT 1%Q 0) curved 250 in
  food <$> cells (add_food s) !! 0%nat = Some 2%Q.
Proof.
  intros s.
  refine (eq_trans (f_equal (fmap food)
    (proj2 (add_food_shift s 0 (from_option id (cell 0 zero3 []) (curved !! 0%nat))
              eq_refl eq_refl eq_refl eq_refl) _)) _).
  - simpl. lia.
  - reflexivity.
Defined.

(** C6 fails as stated: at frame 250 a cell of curvature 2 receives 2
    under SHIFT, whereas the CURVATURE increment, with
    [curvature_factor = 3], is [2^3 = 8]. *)
Lemma add_food_shift_not_curvature :
  food <$> cells (add_food (sim (params SPHERE SHIFT 1%Q 0) curved 250)) !! 0%nat
    = Some 2%Q ∧
  food <$> cells (add_food (sim (params SPHERE CURVATURE 1%Q 0) curved 250)) !! 0%nat
    = Some 8%Q.
Proof. split; reflexivity. Qed.

Lemma add_food_resets_inert_witness :
  let s := sim (params SPHERE AREA 1%Q 0)
               [set_frozen (set_food (cell 0 zero3 []) 5%Q) true] 0 in
  food <$> cells (add_food s) !! 0%nat = Some 0%Q.
Proof.
  intros s.
  refine (eq_trans (f_equal (fmap food)
    (proj1 (proj1 (add_food_resets_inert s 0
                     (set_frozen (set_food (cell 0 zero3 []) 5%Q) true) eq_refl)
                  _))) _).
  - reflexivity.
  - reflexivity.
Defined.

(** C10 fails as stated: the cell below goes through a whole growth phase;
    [split] finds its ring bad and freezes it, and it leaves the phase
    frozen with food 5. *)
Lemma growth_leaves_frozen_cell_fed :
  ∃ p, cells (growth (sim (params SPHERE AREA 1%Q 0) ragged 0)) !! 0%nat = Some p ∧
       frozen p = true ∧ environs p = false ∧ food p = 5%Q ∧ food p ≠ of_int 0.
Proof. eexists. split; [reflexivity|]. repeat split; discriminate. Qed.

End FoodExamples.

(** ** Growth: [split] *)

Section SplitProps.
Context `{Numeric} `{!ParticleOps} `{!Platform}.

Implicit Types (prm : Parameters) (cells : list Particle) (p : Particle).

Lemma spawn_length prm cells i np : length (spawn prm cells i np) = S (length cells).
Proof. unfold spawn. rewrite length_imap, length_app. simpl. lia. Qed.

Lemma freeze_if_bad_length cells a : length (freeze_if_bad cells a) = length cells.
Proof.
  unfold freeze_if_bad. destruct (cells !! a); [|done].
  destruct (negb _); [apply length_insert | done].
Qed.

(** What an iteration can do: go on with the same population (and no new
    cell), go on with one more cell, or stop at a full population. *)
Lemma split_body_cases prm i cells np :
  (∃ cells' e, split_body prm i cells np = (Next cells' np, e) ∧
     length cells' = length cells ∧ spawned e = None ∧ event_cell e = i ∧
     (∀ k, e ≠ Full k) ∧ (np = MAX_POP → cells' = cells)) ∨
  (∃ cells', split_body prm i cells np = (Next cells' (S np), Spawned i np) ∧
     length cells' = S (length cells) ∧ np ≠ MAX_POP) ∨
  (split_body prm i cells np = (Return cells, Full i) ∧ np = MAX_POP).
Proof.
  unfold split_body.
  destruct (cells !! i) as [p|]; [|left; by eexists _, _].
  destruct (frozen p || environs p); [left; by eexists _, _|].
  destruct (wants_split prm p); [|left; by eexists _, _].
  case_bool_decide as Hfull; [by right; right|].
  destruct (negb (good_loop cells p)).
  - left. eexists _, _. split_and!; try done. apply length_insert.
  - right; left. eexists. split_and!; try done.
    by rewrite freeze_if_bad_length, spawn_length.
Qed.

(** The loop from a state in which [new_pop] is the population. *)
Lemma split_loop_spec prm todo cells :
  let out := (split_loop prm todo cells (length cells)).1 in
  let log := (split_loop prm todo cells (length cells)).2 in
  (∃ k, (k ≤ length todo)%nat ∧ event_cell <$> log = take k todo ∧
        (k = length todo ∨ ∃ pre i, log = pre ++ [Full i] ∧ length out = MAX_POP)) ∧
  omap spawned log = seq (length cells) (length out - length cells) ∧
  (length cells ≤ length out)%nat ∧
  ((length cells ≤ MAX_POP)%nat → (length out ≤ MAX_POP)%nat) ∧
  (length cells = MAX_POP → out = cells).
Proof.
  revert cells. induction todo as [|i todo IH]; intros cells; simpl.
  { split_and!; try done; [|by rewrite Nat.sub_diag].
    exists 0%nat. split_and!; [done|done|by left]. }
  destruct (split_body_cases prm i cells (length cells))
    as [(cells' & e & -> & Hlen & Hsp & Hev & Hnf & Hsame)
       |[(cells' & -> & Hlen & Hnfull)|[-> Hfull]]].
  - (* the population is as before *)
    specialize (IH cells'). rewrite <-Hlen.
    destruct (split_loop prm todo cells' (length cells')) as [out log].
    simpl in *. destruct IH as ((k & Hk & Hvis & Hend) & Hch & Hmono & Hmax & Hfix).
    split_and!; try done.
    + exists (S k). split_and!; [lia | simpl; by f_equal |].
      destruct Hend as [->|(pre & j & -> & ?)]; [by left|].
      right. by exists (e :: pre), j.
    + by rewrite Hsp.
    + intros Hcap. rewrite Hfix by done. apply Hsame. congruence.
  - (* one more cell *)
    specialize (IH cells'). rewrite <-Hlen.
    destruct (split_loop prm todo cells' (length cells')) as [out log].
    simpl in *. destruct IH as ((k & Hk & Hvis & Hend) & Hch & Hmono & Hmax & Hfix).
    split_and!.
    + exists (S k). split_and!; [lia | simpl; by f_equal |].
      destruct Hend as [->|(pre & j & -> & ?)]; [by left|].
      right. by exists (Spawned i (length cells) :: pre), j.
    + replace (length out - length cells)%nat
        with (S (length out - S (length cells))) by lia.
      simpl. f_equal. rewrite <-Hlen. exact Hch.
    + lia.
    + intros Hcap. apply Hmax. lia.
    + intros Hcap. congruence.
  - (* the population is full: return *)
    simpl. split_and!; try done; [|by rewrite Nat.sub_diag].
    exists 1%nat. split_and!; [lia | simpl; by rewrite take_0 |].
    right. by exists [], i.
Qed.

Lemma split_run_spec prm cells :
  let out := (split_run prm cells).1 in
  let log := (split_run prm cells).2 in
  (∃ k, (k ≤ length cells)%nat ∧ event_cell <$> log = seq 0 k ∧
        (k = length cells ∨
         ∃ pre i, log = pre ++ [Full i] ∧ length out = MAX_POP)) ∧
  omap spawned log = seq (length cells) (length out - length cells) ∧
  (length cells ≤ length out)%nat ∧
  ((length cells ≤ MAX_POP)%nat → (length out ≤ MAX_POP)%nat) ∧
  (length cells = MAX_POP → out = cells).
Proof.
  intros out log.
  destruct (split_loop_spec prm (seq 0 (length cells)) cells)
    as ((k & Hk & Hvis & Hend) & Hrest).
  rewrite length_seq in Hk, Hend. split; [|exact Hrest].
  exists k. split_and!; [done| |done].
  unfold log, split_run. rewrite Hvis.
  apply list_eq. intros j. destruct (decide (j < k)%nat).
  - rewrite lookup_take_lt, !lookup_seq_lt by lia. done.
  - rewrite lookup_take_ge, lookup_seq_ge by lia. done.
Qed.

End SplitProps.

(** ** One frame *)

Section FrameProps.
Context `{Numeric} `{!ParticleOps} `{!Platform} `{!Accelerators}.

Implicit Types (s : Simulation) (p : Particle).

Lemma add_cpu_forces_length s : length (cells (add_cpu_forces s)) = length (cells s).
Proof.
  unfold add_cpu_forces, parallel_cpu_forces. cbn [cells with_cells].
  apply run_workers_length.
Qed.

Lemma update_position_length s : length (cells (update_position s)) = length (cells s).
Proof. unfold update_position. cbn [cells]. apply sweep_with_length. Qed.

Lemma split_length s :
  (length (cells s) ≤ length (cells (split s)))%nat ∧
  ((length (cells s) ≤ MAX_POP)%nat → (length (cells (split s)) ≤ MAX_POP)%nat) ∧
  (length (cells s) = MAX_POP → cells (split s) = cells s).
Proof.
  destruct (split_run_spec (param s) (cells s)) as (_ & _ & Hmono & Hmax & Hfix).
  unfold split. cbn [cells with_cells]. done.
Qed.

Lemma growth_length s :
  (length (cells s) ≤ length (cells (growth s)))%nat ∧
  ((length (cells s) ≤ MAX_POP)%nat → (length (cells (growth s)) ≤ MAX_POP)%nat).
Proof.
  unfold growth. case_bool_decide as Hroom; [|done].
  destruct (split_length (add_food s)) as (Hmono & Hmax & _).
  rewrite add_food_length in Hmono, Hmax. split; [done|]. intros _. apply Hmax. lia.
Qed.

Lemma update_length s : length (cells (update s)) = length (cells (growth s)).
Proof.
  unfold update. cbn [cells].
  by rewrite update_position_length, add_cpu_forces_length, collision_tree_length.
Qed.

Lemma frames_bounded s n :
  (length (cells s) ≤ MAX_POP)%nat → (length (cells (frames n s)) ≤ MAX_POP)%nat.
Proof.
  intros Hs. induction n as [|n IH]; [done|].
  change (frames (S n) s) with (update (frames n s)).
  rewrite update_length. by apply growth_length.
Qed.

(** C3: starting from a population of at most [MAX_POP] cells, in every
    frame the number of cells does not decrease and stays at most
    [MAX_POP].  Of the phases of [update] only [split] changes the number of
    cells, and it only appends; the growth phase is skipped altogether when
    the population equals [MAX_POP]; and [split] on a population of
    [MAX_POP] cells appends nothing. *)
Theorem population_monotone_bounded (s : Simulation) (n : nat) :
  (length (cells s) ≤ MAX_POP)%nat →
  (length (cells (frames n s)) ≤ length (cells (frames (S n) s)) ≤ MAX_POP)%nat ∧
  (∀ s', length (cells (update s')) = length (cells (growth s')) ∧
         length (cells (add_food s')) = length (cells s') ∧
         (length (cells s') ≤ length (cells (split s')))%nat ∧
         length (cells (collision_tree s')) = length (cells s') ∧
         length (cells (add_cpu_forces s')) = length (cells s') ∧
         length (cells (update_position s')) = length (cells s') ∧
         (length (cells s') = MAX_POP → growth s' = s') ∧
         (length (cells s') = MAX_POP → cells (split s') = cells s')).
Proof.
  intros Hs. split.
  - pose proof (frames_bounded s n Hs) as Hn.
    change (frames (S n) s) with (update (frames n s)).
    rewrite update_length.
    destruct (growth_length (frames n s)) as [Hmono Hmax]. split; [done|by apply Hmax].
  - intros s'. split_and!.
    + apply update_length.
    + apply add_food_length.
    + apply split_length.
    + apply collision_tree_length.
    + apply add_cpu_forces_length.
    + apply update_position_length.
    + intros Hfull. unfold growth. by rewrite bool_decide_eq_false_2 by lia.
    + apply split_length.
Qed.

(** *** Frozen cells *)

Lemma force_body_frozen (prm : Parameters) (c : list Particle) i p :
  frozen p = true → force_body prm c i p = p.
Proof.
  intros Hf. unfold force_body. rewrite Hf, orb_true_r. simpl.
  by destruct (bool_decide _).
Qed.

Lemma add_cpu_forces_frozen s i p :
  cells s !! i = Some p → frozen p = true →
  cells (add_cpu_forces s) !! i = Some p.
Proof.
  intros Hp Hf. unfold add_cpu_forces, parallel_cpu_forces. cbn [cells with_cells].
  rewrite run_workers_sweep. apply sweep_inert; [done|].
  intros c. by apply force_body_frozen.
Qed.

Lemma update_position_frozen s i p :
  cells s !! i = Some p → frozen p = true →
  cells (update_position s) !! i = Some p.
Proof.
  intros Hp Hf. unfold update_position. cbn [cells].
  apply sweep_with_inert; [done|].
  intros c a. unfold update_position_cell. by rewrite Hf.
Qed.

Lemma split_body_frozen (prm : Parameters) (c : list Particle) i p np :
  c !! i = Some p → frozen p = true →
  split_body prm i c np = (Next c np, Skipped i).
Proof. intros Hp Hf. unfold split_body. by rewrite Hp, Hf. Qed.

Lemma collision_finalize_frozen (prm : Parameters) p :
  frozen (collision_finalize prm p) = frozen p.
Proof. unfold collision_finalize. by destruct (bool_decide _). Qed.

End FrameProps.

Section FrameExamples.
Import Exact.

Lemma population_monotone_bounded_witness :
  let s := sim (params SPHERE AREA 1%Q 0) (fed 2%Q triangle) 0 in
  (length (cells (frames 1 s)) ≤ length (cells (frames 2 s)) ≤ MAX_POP)%nat.
Proof.
  intros s. refine (proj1 (population_monotone_bounded s 1 _)).
  simpl. lia.
Defined.

(** C4 fails as stated: the finalization of the collision phase assigns
    the [delta] of a frozen cell that has a neighbour within the radius. *)
Lemma collision_tree_moves_frozen_delta :
  ∃ p p',
    cells (sim (params SPHERE AREA 1%Q 0) frozen_crowd 0) !! 0%nat = Some p ∧
    cells (collision_tree (sim (params SPHERE AREA 1%Q 0) frozen_crowd 0)) !! 0%nat
      = Some p' ∧
    frozen p = true ∧ frozen p' = true ∧
    delta p = (0, 0, 0)%Q ∧ collisions p' = 1 ∧
    delta p' = (- 3 # 4, 0, 0)%Q ∧ delta p' ≠ delta p.
Proof. eexists _, _. split_and!; try reflexivity. discriminate. Qed.

End FrameExamples.

Section SplitExamples.
Import Exact.

(** A fed triangle under [MAX_POP = 4]: the first cell splits, the second
    finds the population full and the phase returns. *)
Example split_run_fed_triangle :
  (split_run (params SPHERE AREA 1%Q 0) (fed 2%Q triangle)).2
  = [Spawned 0 3; Full 1] ∧
  length (split_run (params SPHERE AREA 1%Q 0) (fed 2%Q triangle)).1 = 4%nat.
Proof. split; reflexivity. Qed.

End SplitExamples.

(** * Further properties *)

(** ** The partition of the cells among the workers *)

Section WorkerProps.
Context `{Numeric}.

Lemma worker_low_mono (n W i j : nat) :
  (i ≤ j)%nat → (worker_low n W i ≤ worker_low n W j)%nat.
Proof.
  intros Hij. unfold worker_low, worker_range. simpl.
  apply Nat.Div0.div_le_mono. nia.
Qed.

Lemma worker_high_low (n W i : nat) : worker_high n W i = worker_low n W (S i).
Proof.
  unfold worker_high, worker_low, worker_range. simpl.
  by replace (i + 1)%nat with (S i) by lia.
Qed.

Lemma worker_covering (n W j k : nat) :
  (j < worker_low n W k)%nat →
  ∃ i, (i < k)%nat ∧ (worker_low n W i ≤ j < worker_high n W i)%nat.
Proof.
  induction k as [|k IH]; intros Hj.
  { unfold worker_low, worker_range in Hj. simpl in Hj.
    rewrite Nat.Div0.div_0_l in Hj. lia. }
  destruct (decide (j < worker_low n W k)%nat) as [Hlt|Hge].
  - destruct (IH Hlt) as (i & Hi & Hin). exists i. split; [lia|done].
  - exists k. rewrite worker_high_low. split; lia.
Qed.

(** With [W ≥ 1] workers over [n] cells, the ranges
    [[i·n/W, (i+1)·n/W)] start at 0, end at [n], follow one another without
    gap or overlap, and every cell lies in the range of exactly one worker;
    so a parallel phase runs its body on the cells [0 .. n) once each. *)
Theorem worker_ranges_tile (n W : nat) :
  (0 < W)%nat →
  worker_low n W 0 = 0%nat ∧
  worker_high n W (W - 1) = n ∧
  (∀ i, worker_high n W i = worker_low n W (S i)) ∧
  (∀ i, (worker_low n W i ≤ worker_high n W i)%nat) ∧
  (∀ j, (j < n)%nat →
     ∃ i, (i < W)%nat ∧ (worker_low n W i ≤ j < worker_high n W i)%nat ∧
       ∀ i', (worker_low n W i' ≤ j < worker_high n W i')%nat → i' = i) ∧
  (∀ body (cells : list Particle),
     run_workers (for_range body) W cells = for_each body cells).
Proof.
  intros HW.
  assert (worker_low n W W = n) as Hend.
  { unfold worker_low, worker_range. simpl.
    by rewrite (Nat.mul_comm W n), Nat.div_mul by lia. }
  split_and!.
  - unfold worker_low, worker_range. simpl. by rewrite Nat.Div0.div_0_l.
  - rewrite worker_high_low. by replace (S (W - 1)) with W by lia.
  - apply worker_high_low.
  - intros i. rewrite worker_high_low. apply worker_low_mono. lia.
  - intros j Hj. rewrite <-Hend in Hj.
    destruct (worker_covering n W j W Hj) as (i & Hi & Hin).
    exists i. split_and!; try done; try lia.
    intros i' Hin'. rewrite !worker_high_low in *.
    destruct (decide (i' = i)) as [|Hne]; [done|]. exfalso.
    destruct (decide (i' < i)%nat).
    + pose proof (worker_low_mono n W (S i') i). lia.
    + pose proof (worker_low_mono n W (S i) i'). lia.
  - intros body cells. by apply run_workers_for_each.
Qed.

End WorkerProps.

Lemma worker_ranges_tile_witness :
  worker_low 10 3 0 = 0%nat ∧ worker_high 10 3 2 = 10%nat.
Proof.
  pose proof (@worker_ranges_tile Exact.numeric 10 3 ltac:(lia)) as (H0 & Hn & _).
  split; [exact H0 | exact Hn].
Defined.

(** ** Loops whose body looks at the visited cell only *)

Section ThreadProps.
Context `{Numeric} {A : Type}.

Implicit Types (f : Particle → A → Particle * A) (l pre todo : list Particle).

Lemma thread_length f l a : length (thread f l a).1 = length l.
Proof.
  revert a. induction l as [|p l IH]; intros a; simpl; [done|].
  destruct (f p a) as [p' a']. specialize (IH a').
  destruct (thread f l a') as [l' a'']. simpl in *. by rewrite IH.
Qed.

Lemma thread_lookup_frame f (g : Particle → Particle) l a i p :
  (∀ q b, g (f q b).1 = g q) →
  l !! i = Some p → g <$> (thread f l a).1 !! i = Some (g p).
Proof.
  intros Hg. revert a i. induction l as [|q l IH]; intros a i Hp; [done|].
  simpl. destruct (f q a) as [q' a'] eqn:Hf. specialize (IH a').
  destruct (thread f l a') as [l' a'']. simpl in *.
  destruct i as [|i]; simpl in *.
  - injection Hp as <-. f_equal. by rewrite <-(Hg q a), Hf.
  - by apply IH.
Qed.

Lemma sweep_with_thread body f pre todo a :
  (∀ c p b, body c p b = f p b) →
  fold_left (visit_with body) (seq (length pre) (length todo)) (pre ++ todo, a)
  = (pre ++ (thread f todo a).1, (thread f todo a).2).
Proof.
  intros Hbody. revert pre a.
  induction todo as [|p todo IH]; intros pre a; [done|].
  cbn [length seq fold_left thread].
  unfold visit_with at 2. cbn [fst snd].
  rewrite list_lookup_middle by done. rewrite Hbody.
  destruct (f p a) as [p' a'].
  rewrite insert_app_r_alt, Nat.sub_diag by done. simpl.
  specialize (IH (pre ++ [p']) a').
  rewrite length_app, Nat.add_1_r, <-app_assoc in IH. simpl in IH.
  rewrite IH. destruct (thread f todo a') as [l' a'']. simpl.
  by rewrite <-app_assoc.
Qed.

Lemma sweep_with_thread_all body f l a :
  (∀ c p b, body c p b = f p b) →
  fold_left (visit_with body) (seq 0 (length l)) (l, a) = thread f l a.
Proof.
  intros Hbody.
  pose proof (sweep_with_thread body f [] l a Hbody) as Hsweep.
  simpl in Hsweep. rewrite Hsweep. by destruct (thread f l a).
Qed.

End ThreadProps.

(** ** Integration, forces and freezing *)

Section PhaseProps.
Context `{Numeric} `{!ParticleOps} `{!Platform} `{!Accelerators}.

Implicit Types (s : Simulation) (p : Particle) (prm : Parameters).

Lemma thread_update_position prm (l : list Particle) (n : Z) :
  thread (λ p n, update_position_cell prm [] p n) l n =
  ((λ p, if frozen p then p else Particle_update (dampening prm) p) <$> l,
   n + Z.of_nat (length (filter (λ p, frozen p = true) l))).
Proof.
  revert n. induction l as [|p l IH]; intros n.
  { simpl. f_equal. lia. }
  cbn [thread]. unfold update_position_cell at 1.
  destruct (frozen p) eqn:Hf.
  - rewrite IH, filter_cons_True by done. simpl. rewrite Hf. f_equal. lia.
  - rewrite IH, filter_cons_False by (by rewrite Hf). simpl. by rewrite Hf.
Qed.

(** [update_position] calls [update(dampening)] on exactly the cells that
    are not frozen, leaves the frozen ones as they are, and sets
    [frozen_num] to the number of frozen cells, whatever it held before;
    nothing else of the engine changes. *)
Theorem update_position_counts_frozen (s : Simulation) :
  cells (update_position s) =
    (λ p, if frozen p then p else Particle_update (dampening (param s)) p) <$> cells s ∧
  frozen_num (update_position s) =
    Z.of_nat (length (filter (λ p, frozen p = true) (cells s))) ∧
  param (update_position s) = param s ∧
  frame_num (update_position s) = frame_num s ∧
  num_threads (update_position s) = num_threads s ∧
  rng (update_position s) = rng s.
Proof.
  unfold update_position. cbn [cells frozen_num param frame_num num_threads rng].
  rewrite (sweep_with_thread_all _ (λ p n, update_position_cell (param s) [] p n))
    by done.
  rewrite thread_update_position. done.
Qed.

Lemma force_body_cases prm (c : list Particle) i p :
  force_body prm c i p =
  if frozen p || (bool_decide (init_shape prm = ENVIRONMENT) && environs p)
  then p
  else calculate (spring_factor prm) (planar_factor prm) (bulge_factor prm)
                 (spring_length prm) c p.
Proof.
  unfold force_body.
  by destruct (frozen p), (environs p), (bool_decide _).
Qed.

(** In the force phase with at least one worker, [calculate] runs once on
    every cell that is not frozen, on the cells as the workers before it
    left them; frozen cells are skipped, and environs cells are skipped
    when, and only when, the initial shape is ENVIRONMENT. *)
Theorem add_cpu_forces_each_cell (s : Simulation) (i : nat) (p : Particle) :
  (0 < num_threads s)%nat →
  cells s !! i = Some p →
  let prm := param s in
  let reached := for_range (force_body prm) 0 i (cells s) in
  cells (add_cpu_forces s) !! i =
  Some (if frozen p || (bool_decide (init_shape prm = ENVIRONMENT) && environs p)
        then p
        else calculate (spring_factor prm) (planar_factor prm) (bulge_factor prm)
                       (spring_length prm) reached p).
Proof.
  intros HW Hp prm reached.
  unfold add_cpu_forces, parallel_cpu_forces. cbn [cells with_cells].
  rewrite run_workers_for_each by done.
  rewrite (for_each_lookup _ _ _ p Hp). f_equal.
  apply force_body_cases.
Qed.

(** *** [freeze_bad_particles] *)

Lemma ring_of_links (c c' : list Particle) a :
  links <$> c !! a = links <$> c' !! a → ring_of c a = ring_of c' a.
Proof.
  intros Hl. unfold ring_of.
  destruct (c !! a), (c' !! a); simpl in *; congruence.
Qed.

Lemma good_loop_links (c c' : list Particle) p :
  (∀ a, links <$> c !! a = links <$> c' !! a) →
  good_loop c p = good_loop c' p.
Proof.
  intros Hl. unfold good_loop.
  generalize (seq 0 (length (links p))) as slots. intros slots.
  induction slots as [|i slots IH]; [done|].
  simpl. rewrite IH. f_equal.
  destruct (links p !! i) as [a|]; [|done].
  destruct (links p !! _) as [b|]; [|done].
  by rewrite (ring_of_links c c' a).
Qed.

Lemma freeze_bad_links (c : list Particle) i p : links (freeze_bad c i p) = links p.
Proof. unfold freeze_bad. by destruct (negb _). Qed.

Lemma freeze_bad_particles_lookup s i p :
  cells s !! i = Some p →
  cells (freeze_bad_particles s) !! i = Some (freeze_bad (cells s) i p).
Proof.
  intros Hp. unfold freeze_bad_particles. cbn [cells with_cells].
  rewrite (for_each_lookup _ _ _ p Hp). f_equal.
  unfold freeze_bad at 1 3.
  rewrite (good_loop_links _ (cells s)); [done|].
  intros a. unfold for_range.
  apply sweep_preserves. intros. apply freeze_bad_links.
Qed.

(** [freeze_bad_particles] freezes exactly the cells that are neither
    environs nor frozen and whose ring, among the cells as they are when
    the routine starts, is not a good loop; it changes nothing but the
    flag [frozen], never clears it, and running it a second time changes
    nothing. *)
Theorem freeze_bad_particles_idempotent (s : Simulation) :
  (∀ i p, cells s !! i = Some p →
     cells (freeze_bad_particles s) !! i =
     Some (if environs p || frozen p || good_loop (cells s) p then p
           else set_frozen p true)) ∧
  length (cells (freeze_bad_particles s)) = length (cells s) ∧
  (∀ i p, cells s !! i = Some p → frozen p = true →
     cells (freeze_bad_particles s) !! i = Some p) ∧
  cells (freeze_bad_particles (freeze_bad_particles s)) =
    cells (freeze_bad_particles s).
Proof.
  assert (∀ i p, cells s !! i = Some p →
     cells (freeze_bad_particles s) !! i =
     Some (if environs p || frozen p || good_loop (cells s) p then p
           else set_frozen p true)) as Hchar.
  { intros i p Hp. rewrite (freeze_bad_particles_lookup s i p Hp).
    unfold freeze_bad. by destruct (_ || _ || _). }
  assert (length (cells (freeze_bad_particles s)) = length (cells s)) as Hlen.
  { unfold freeze_bad_particles. cbn [cells with_cells]. apply for_each_length. }
  split_and!; try done.
  - intros i p Hp Hf. rewrite (Hchar i p Hp). by rewrite Hf, orb_true_r.
  - apply list_eq. intros i.
    destruct (cells (freeze_bad_particles s) !! i) as [q|] eqn:Hq.
    2: { apply lookup_ge_None. apply lookup_ge_None in Hq.
         unfold freeze_bad_particles at 1. cbn [cells with_cells].
         by rewrite for_each_length. }
    rewrite (freeze_bad_particles_lookup _ i q Hq). f_equal.
    destruct (cells s !! i) as [p|] eqn:Hp.
    2: { apply lookup_ge_None in Hp. apply lookup_lt_Some in Hq. lia. }
    rewrite (Hchar i p Hp) in Hq. injection Hq as <-.
    assert (∀ q, good_loop (cells (freeze_bad_particles s)) q = good_loop (cells s) q)
      as Hgood.
    { intros q. apply good_loop_links. intros a.
      unfold freeze_bad_particles. cbn [cells with_cells]. unfold for_each, for_range.
      apply sweep_preserves. intros. apply freeze_bad_links. }
    destruct (environs p || frozen p || good_loop (cells s) p) eqn:Hc.
    + unfold freeze_bad. by rewrite Hgood, Hc.
    + unfold freeze_bad. simpl. by rewrite orb_true_r.
Qed.

End PhaseProps.

(** ** The three collision routines *)

Section MoreCollisionProps.
Context `{Numeric} `{!ParticleOps} `{!Platform} `{!Accelerators}.

Implicit Types (s : Simulation) (p : Particle) (cells : list Particle).

Lemma fold_collide_grid_position c_sq cells i nb p :
  position (fold_left (collide_grid c_sq cells i) nb p) = position p.
Proof.
  revert p. induction nb as [|n nb IH]; intros p; [done|].
  simpl. by rewrite IH, collide_grid_position.
Qed.

Lemma fold_collide_grid_positions c_sq cells cells' i nb p :
  (∀ q, position <$> cells !! q = position <$> cells' !! q) →
  fold_left (collide_grid c_sq cells i) nb p =
  fold_left (collide_grid c_sq cells' i) nb p.
Proof.
  intros Hpos. revert p. induction nb as [|n nb IH]; intros p; [done|].
  simpl. by rewrite IH, (collide_grid_positions _ cells cells').
Qed.

(** A neighbour outside the ball, the cell itself and a linked cell leave
    the accumulators alone. *)
Lemma collide_grid_miss c_sq cells i p n :
  in_ball c_sq cells (position p) n = false ∨ n = i ∨ n ∈ links p →
  collide_grid c_sq cells i p n = p.
Proof.
  unfold collide_grid, in_ball, connected_to. intros Hmiss.
  destruct (cells !! n) as [qc|]; [|done].
  destruct Hmiss as [->|[->|Hl]].
  - by rewrite andb_false_r.
  - by rewrite bool_decide_eq_false_2 by (by intros ?).
  - rewrite (bool_decide_eq_true_2 _ Hl). simpl. by rewrite andb_false_r.
Qed.

Lemma fold_collide_grid_in_ball c_sq cells i nb p :
  fold_left (collide_grid c_sq cells i) nb p =
  fold_left (collide_grid c_sq cells i)
            (filter (λ n, Is_true (in_ball c_sq cells (position p) n)) nb) p.
Proof.
  revert p. induction nb as [|n nb IH]; intros p; [done|].
  simpl. destruct (in_ball c_sq cells (position p) n) eqn:Hin.
  - rewrite filter_cons_True by (by apply Is_true_true). simpl.
    rewrite IH. by rewrite collide_grid_position.
  - rewrite filter_cons_False by (by apply Is_true_false).
    rewrite collide_grid_miss by (by left). apply IH.
Qed.

Lemma brute_force_lookup s i p :
  cells s !! i = Some p →
  let c_sq := to_float (rmul (collision_radius (param s)) (collision_radius (param s))) in
  cells (brute_force_collision s) !! i =
  Some (collision_finalize (param s) (brute_scan c_sq (cells s) i p)).
Proof.
  intros Hp c_sq. unfold brute_force_collision. cbn [cells with_cells]. fold c_sq.
  assert (∀ c k q, position (brute_scan c_sq c k q) = position q) as Hpos.
  { intros. apply fold_collide_grid_position. }
  erewrite for_each_lookup; [done|].
  rewrite (for_each_lookup _ _ _ p) by done. f_equal.
  unfold brute_scan, for_range. rewrite sweep_length.
  apply fold_collide_grid_positions. intros q. by apply sweep_preserves.
Qed.

(** [collision_grid] and [brute_force_collision] leave a cell that is not
    older than [collision_age_threshold] in the same state whenever the
    grid returns, in the order of their positions, every cell that lies
    within the radius of it (it may return others as well); no assumption
    on rounding is needed, the two loops having the same body.  When this
    holds for all cells and none is older than the threshold, the two
    routines agree on the whole population. *)
Theorem brute_force_agrees_with_grid (s : Simulation) :
  let prm := param s in
  let c_sq := to_float (rmul (collision_radius prm) (collision_radius prm)) in
  let near p nb :=
    filter (λ n, Is_true (in_ball c_sq (cells s) (position p) n)) nb in
  (∀ i p, cells s !! i = Some p → age p ≤ collision_age_threshold prm →
     near p (get_neighbors (prepare_grid prm (cells s)) p)
     = near p (seq 0 (length (cells s)))) →
  (∀ i p, cells s !! i = Some p → age p ≤ collision_age_threshold prm →
     cells (collision_grid s) !! i = cells (brute_force_collision s) !! i) ∧
  (Forall (λ p, age p ≤ collision_age_threshold prm) (cells s) →
     cells (collision_grid s) = cells (brute_force_collision s)).
Proof.
  intros prm c_sq near Hsame.
  assert (∀ i p, cells s !! i = Some p → age p ≤ collision_age_threshold prm →
     cells (collision_grid s) !! i = cells (brute_force_collision s) !! i) as Hyoung.
  { intros i p Hp Hage.
    rewrite (collision_grid_lookup s i p Hp), (brute_force_lookup s i p Hp).
    do 2 f_equal. unfold grid_scan, brute_scan.
    rewrite bool_decide_eq_false_2 by (fold prm; lia). fold prm c_sq.
    rewrite fold_collide_grid_in_ball.
    rewrite (fold_collide_grid_in_ball _ _ _ (seq _ _)).
    unfold near in Hsame. by rewrite (Hsame i p Hp Hage). }
  split; [done|].
  intros Hall. apply list_eq. intros i.
  destruct (cells s !! i) as [p|] eqn:Hp.
  - apply (Hyoung i p Hp). exact (Forall_lookup_1 _ _ _ _ Hall Hp).
  - apply lookup_ge_None in Hp.
    rewrite !lookup_ge_None_2; [done| |].
    + unfold brute_force_collision. cbn [cells with_cells].
      by rewrite !for_each_length.
    + by rewrite collision_grid_length.
Qed.

(** *** What collision leaves alone *)

Lemma collide_outside c_sq cells i p q :
  outside_collision (collide c_sq cells i p q) = outside_collision p.
Proof.
  unfold collide. destruct (cells !! q); [|done]. by destruct (_ && _).
Qed.

Lemma collide_grid_outside c_sq cells i p n :
  outside_collision (collide_grid c_sq cells i p n) = outside_collision p.
Proof.
  unfold collide_grid. destruct (cells !! n); [|done]. by destruct (_ && _).
Qed.

Lemma fold_outside (step : Particle → nat → Particle) (l : list nat) p :
  (∀ q n, outside_collision (step q n) = outside_collision q) →
  outside_collision (fold_left step l p) = outside_collision p.
Proof.
  intros Hstep. revert p. induction l as [|n l IH]; intros p; [done|].
  simpl. by rewrite IH, Hstep.
Qed.

Lemma collision_finalize_outside (prm : Parameters) p :
  outside_collision (collision_finalize prm p) = outside_collision p.
Proof. unfold collision_finalize. by destruct (bool_decide _). Qed.

(** None of the three collision routines moves a cell or touches its
    ring, food, flags, age or index: for any number of workers, they write
    [collision_target], [collisions] and [delta] and nothing else, and keep
    the number of cells and the other fields of the engine. *)
Theorem collision_writes_accumulators_only (s : Simulation) (i : nat) :
  outside_collision <$> cells (collision_tree s) !! i
    = outside_collision <$> cells s !! i ∧
  outside_collision <$> cells (collision_grid s) !! i
    = outside_collision <$> cells s !! i ∧
  outside_collision <$> cells (brute_force_collision s) !! i
    = outside_collision <$> cells s !! i ∧
  length (cells (brute_force_collision s)) = length (cells s) ∧
  length (cells (collision_grid s)) = length (cells s) ∧
  length (cells (collision_tree s)) = length (cells s) ∧
  (param (collision_tree s), frame_num (collision_tree s),
   frozen_num (collision_tree s), num_threads (collision_tree s))
  = (param s, frame_num s, frozen_num s, num_threads s).
Proof.
  split_and!.
  - rewrite collision_tree_unfold, run_workers_sweep.
    unfold for_each, for_range. rewrite !sweep_preserves; [done| |].
    + intros. apply fold_outside. intros. apply collide_outside.
    + intros. apply collision_finalize_outside.
  - unfold collision_grid. cbn [cells with_cells].
    unfold for_each, for_range. rewrite !sweep_preserves; [done| |].
    + intros c k p. unfold grid_scan. destruct (bool_decide _); [done|].
      apply fold_outside. intros. apply collide_grid_outside.
    + intros. apply collision_finalize_outside.
  - unfold brute_force_collision. cbn [cells with_cells].
    unfold for_each, for_range. rewrite !sweep_preserves; [done| |].
    + intros. apply fold_outside. intros. apply collide_grid_outside.
    + intros. apply collision_finalize_outside.
  - unfold brute_force_collision. cbn [cells with_cells].
    by rewrite !for_each_length.
  - apply collision_grid_length.
  - apply collision_tree_length.
  - done.
Qed.

End MoreCollisionProps.

(** ** Cells that are linked do not repel *)

Section LinkedProps.
Context `{Numeric} `{!ParticleOps} `{!Platform} `{!Accelerators}.

Implicit Types (s : Simulation) (p : Particle) (cells : list Particle).

Lemma same_cells cells cells' :
  length cells' = length cells →
  (∀ i p, cells !! i = Some p → cells' !! i = Some p) →
  cells' = cells.
Proof.
  intros Hlen Hsame. apply list_eq. intros i.
  destruct (cells !! i) as [p|] eqn:Hp; [by apply Hsame|].
  apply lookup_ge_None. apply lookup_ge_None in Hp. lia.
Qed.

Lemma colliders_all_linked cells i p found :
  (∀ q, (q < length cells)%nat → q ≠ i → q ∈ links p) →
  colliders cells i p found = [].
Proof.
  intros Hlinked. unfold colliders.
  induction found as [|q found IH]; [done|].
  simpl. destruct (decide (q ≠ i ∧ q ∉ links p)) as [[Hqi Hql]|_]; [|exact IH].
  destruct (cells !! q) as [qc|] eqn:Hq; [|exact IH].
  destruct Hql. apply Hlinked; [|done]. by eapply lookup_lt_Some.
Qed.

Lemma fold_collide_grid_all_linked c_sq cells i p nb :
  (∀ q, (q < length cells)%nat → q ≠ i → q ∈ links p) →
  fold_left (collide_grid c_sq cells i) nb p = p.
Proof.
  intros Hlinked. induction nb as [|n nb IH]; [done|].
  simpl. rewrite collide_grid_miss; [done|].
  destruct (decide (n = i)) as [|Hne]; [by right; left|].
  destruct (decide (n < length cells)%nat) as [Hlt|Hge].
  - right; right. by apply Hlinked.
  - left. unfold in_ball. by rewrite lookup_ge_None_2 by lia.
Qed.

(** In a population in which every cell is linked to every other cell, and
    whose collision counters are all 0, each of the three collision
    routines leaves all the cells exactly as they are: whatever the
    neighbour query returns and however close the cells are, linked cells
    and the cell itself never contribute. *)
Theorem linked_cells_do_not_collide (s : Simulation) :
  (0 < num_threads s)%nat →
  (∀ i p, cells s !! i = Some p →
     collisions p = 0 ∧
     ∀ q, (q < length (cells s))%nat → q ≠ i → q ∈ links p) →
  cells (collision_tree s) = cells s ∧
  cells (collision_grid s) = cells s ∧
  cells (brute_force_collision s) = cells s.
Proof.
  intros HW Hfull.
  assert (∀ p, collisions p = 0 → collision_finalize (param s) p = p) as Hfin.
  { intros p Hp. unfold collision_finalize. by rewrite bool_decide_eq_false_2 by lia. }
  split_and!.
  - apply same_cells; [apply collision_tree_length|].
    intros i p Hp. destruct (Hfull i p Hp) as [Hzero Hlinked].
    rewrite (collision_tree_lookup s i p HW Hp).
    rewrite colliders_all_linked by done. unfold pushed. simpl.
    rewrite Z.add_0_r, set_collision_same. by rewrite Hfin.
  - apply same_cells; [apply collision_grid_length|].
    intros i p Hp. destruct (Hfull i p Hp) as [Hzero Hlinked].
    rewrite (collision_grid_lookup s i p Hp). unfold grid_scan.
    destruct (bool_decide _); [by rewrite Hfin|].
    rewrite fold_collide_grid_all_linked by done. by rewrite Hfin.
  - apply same_cells.
    { unfold brute_force_collision. cbn [cells with_cells]. by rewrite !for_each_length. }
    intros i p Hp. destruct (Hfull i p Hp) as [Hzero Hlinked].
    rewrite (brute_force_lookup s i p Hp). unfold brute_scan.
    rewrite fold_collide_grid_all_linked by done. by rewrite Hfin.
Qed.

End LinkedProps.

Section MoreCollisionExamples.
Import Exact.

Lemma linked_cells_do_not_collide_witness :
  cells (collision_tree (sim (params SPHERE AREA 1%Q 0) triangle 0)) = triangle.
Proof.
  refine (proj1 (linked_cells_do_not_collide
                   (sim (params SPHERE AREA 1%Q 0) triangle 0) _ _)).
  - simpl. lia.
  - intros i p Hp. destruct i as [|[|[|i]]]; simpl in Hp; try discriminate;
      injection Hp as <-; (split; [reflexivity|]);
      intros q Hq Hne; simpl in Hq;
      destruct q as [|[|[|q]]]; try lia; try done; simpl;
      repeat first [apply list_elem_of_here | apply list_elem_of_further].
Defined.

Lemma brute_force_agrees_with_grid_witness :
  cells (collision_grid (sim (params SPHERE AREA 1%Q 0) crowd 0))
  = cells (brute_force_collision (sim (params SPHERE AREA 1%Q 0) crowd 0)).
Proof.
  refine (proj2 (brute_force_agrees_with_grid
                   (sim (params SPHERE AREA 1%Q 0) crowd 0) _) _).
  - intros i p Hp _. destruct i as [|[|i]]; simpl in Hp.
    + injection Hp as <-. vm_compute. reflexivity.
    + injection Hp as <-. vm_compute. reflexivity.
    + discriminate.
  - repeat constructor; simpl; lia.
Defined.

End MoreCollisionExamples.

(** ** More on the growth phase *)

Section MoreGrowthProps.
Context `{Numeric} `{!ParticleOps} `{!Platform} `{!Accelerators}.

Implicit Types (s : Simulation) (p : Particle) (prm : Parameters).

Lemma set_food_same p : set_food p (food p) = p.
Proof. by destruct p. Qed.

(** Under the policies that do not recompute the curvature and are not
    TENTACLE (RANDOM, AREA, X_COORD, RADIAL, COLLISIONS and INHERIT),
    [add_food] changes no field of any cell other than [food]. *)
Theorem add_food_writes_food_only (s : Simulation) (i : nat) (p : Particle) :
  food_mode (param s) ≠ CURVATURE → food_mode (param s) ≠ HYBRID →
  food_mode (param s) ≠ SHIFT → food_mode (param s) ≠ TENTACLE →
  cells s !! i = Some p →
  ∃ x, cells (add_food s) !! i = Some (set_food p x).
Proof.
  intros Hc Hh Hs Ht Hp. rewrite (add_food_lookup s i p Hp).
  unfold add_food_cell, feed.
  destruct (environs p || frozen p); [by eexists|].
  destruct (food_mode (param s)); try done; try (by eexists).
  - destruct (rand _). by eexists.
  - case_bool_decide; [by eexists|]. exists (food p). by rewrite set_food_same.
Qed.

Lemma sweep_with_carried {A} (body : list Particle → Particle → A → Particle * A)
    (l : list nat) (st : list Particle * A) :
  (∀ c p a, (body c p a).2 = a) →
  (fold_left (visit_with body) l st).2 = st.2.
Proof.
  intros Hbody. revert st. induction l as [|i l IH]; intros st; [done|].
  simpl. rewrite IH. unfold visit_with.
  destruct (st.1 !! i) as [p|]; [|done].
  specialize (Hbody st.1 p st.2). by destruct (body _ _ _).
Qed.

Lemma thread_random_rng (f : Particle → rand_state → Particle * rand_state)
    (l : list Particle) (r : rand_state) :
  (∀ p r, (f p r).2 = if environs p || frozen p then r else (rand r).2) →
  (thread f l r).2 =
  Nat.iter (length (filter (λ p, environs p || frozen p = false) l))
           (λ r, (rand r).2) r.
Proof.
  intros Hf. revert r. induction l as [|p l IH]; intros r; [done|].
  cbn [thread]. specialize (Hf p r). destruct (f p r) as [p' r']. simpl in Hf.
  specialize (IH r'). destruct (thread f l r') as [l' r'']. simpl in *.
  rewrite IH, Hf. destruct (environs p || frozen p) eqn:Hinert.
  - by rewrite filter_cons_False by (by rewrite Hinert).
  - rewrite filter_cons_True by done. simpl length. by rewrite Nat.iter_succ_r.
Qed.

(** [add_food] calls [std::rand] only under RANDOM, and then once for each
    cell that is neither environs nor frozen, cell after cell; under every
    other policy the generator is left in the state it was in. *)
Theorem add_food_rand_use (s : Simulation) :
  (food_mode (param s) ≠ RANDOM → rng (add_food s) = rng s) ∧
  (food_mode (param s) = RANDOM →
     rng (add_food s) =
     Nat.iter (length (filter (λ p, environs p || frozen p = false) (cells s)))
              (λ r, (rand r).2) (rng s)).
Proof.
  unfold add_food. cbn [rng cells]. split.
  - intros Hmode. rewrite sweep_with_carried; [done|].
    intros c p a. unfold add_food_cell.
    destruct (environs p || frozen p); [done|].
    destruct (food_mode (param s)); try done;
      try destruct (special p); repeat case_bool_decide;
      try destruct (usable _); done.
  - intros Hmode.
    rewrite (sweep_with_thread_all _ (add_food_cell (param s) (frame_num s) [])).
    2: { intros c p b. unfold add_food_cell. by rewrite Hmode. }
    apply thread_random_rng. intros p r. unfold add_food_cell.
    destruct (environs p || frozen p); [done|].
    rewrite Hmode. by destruct (rand r).
Qed.

(** *** When no cell asks for a split *)

Lemma split_loop_idle prm (todo : list nat) (cells : list Particle) (np : nat) :
  Forall (λ p, frozen p || environs p || negb (wants_split prm p) = true) cells →
  (split_loop prm todo cells np).1 = cells ∧
  event_cell <$> (split_loop prm todo cells np).2 = todo ∧
  omap spawned (split_loop prm todo cells np).2 = [].
Proof.
  intros Hidle. induction todo as [|i todo IH]; [done|].
  cbn [split_loop].
  assert (∃ e, split_body prm i cells np = (Next cells np, e) ∧
               event_cell e = i ∧ spawned e = None) as (e & -> & Hev & Hsp).
  { unfold split_body. destruct (cells !! i) as [p|] eqn:Hp; [|by eexists].
    pose proof (Forall_lookup_1 _ _ _ _ Hidle Hp) as Hq. simpl in Hq.
    destruct (frozen p || environs p); [by eexists|].
    simpl in Hq. apply negb_true_iff in Hq. rewrite Hq. by eexists. }
  destruct (split_loop prm todo cells np) as [out log]. simpl in *.
  destruct IH as (-> & Hvis & Hch).
  split_and!; [done|by f_equal|by rewrite Hsp].
Qed.

(** When every cell is frozen, environs, or has neither [food > threshold]
    nor [|links| > max_degree], [split] visits all the cells and changes
    nothing: no cell is appended, none is frozen, [Particle::split] is not
    called. *)
Theorem split_idle (prm : Parameters) (cells : list Particle) :
  Forall (λ p, frozen p || environs p || negb (wants_split prm p) = true) cells →
  (split_run prm cells).1 = cells ∧
  event_cell <$> (split_run prm cells).2 = seq 0 (length cells) ∧
  omap spawned (split_run prm cells).2 = [].
Proof. intros Hidle. by apply split_loop_idle. Qed.

(** *** What a frame keeps of the engine *)

Lemma update_engine s :
  frame_num (update s) = frame_num s + 1 ∧ param (update s) = param s ∧
  num_threads (update s) = num_threads s.
Proof.
  unfold update. cbn [frame_num param num_threads].
  unfold update_position, add_cpu_forces, collision_tree.
  cbn [frame_num param num_threads with_cells].
  unfold growth. destruct (bool_decide _); done.
Qed.

End MoreGrowthProps.

Section MoreGrowthExamples.
Import Exact.

Lemma add_food_writes_food_only_witness :
  ∃ x, cells (add_food (sim (params SPHERE AREA 1%Q 0) curved 0)) !! 0%nat
       = Some (set_food (from_option id (cell 0 zero3 []) (curved !! 0%nat)) x).
Proof.
  apply (add_food_writes_food_only (sim (params SPHERE AREA 1%Q 0) curved 0) 0);
    try discriminate. reflexivity.
Defined.

Lemma split_idle_witness :
  (split_run (params SPHERE AREA 1%Q 0) triangle).1 = triangle.
Proof.
  refine (proj1 (split_idle (params SPHERE AREA 1%Q 0) triangle _)).
  repeat constructor.
Defined.

End MoreGrowthExamples.

(** ** [init] *)

Section InitProps.
Context `{Numeric} `{!ParticleOps} `{!Platform} `{!Accelerators}.

Implicit Types (s : Simulation) (p : Particle) (prm : Parameters).

Lemma generation_99 (l : list Particle) :
  Forall (λ p, generation p = 99) ((λ p, set_generation p 99) <$> l).
Proof. induction l; by constructor. Qed.

Lemma init_num_threads_positive (hw : Z) : (0 < Z.to_nat (init_num_threads hw))%nat.
Proof. unfold init_num_threads. lia. Qed.

(** [init] succeeds unless the policy is TENTACLE and the geometry is
    empty (it then reads [cells[0]]).  When it succeeds: the parameters are
    stored, the frame counter is 0, there is at least one worker (so that
    the parallel phases reach every cell), and [hardware_concurrency - 2]
    workers from 3 hardware threads on; there are as many cells as the
    geometry has; outside INHERIT and TENTACLE the cells are the geometry
    and [rand] is not called; under TENTACLE every cell has generation 99
    and the first one is special; under INHERIT only the field [inherited]
    of the cells changes. *)
Theorem init_engine (geometry : list Particle) (hw : Z) (prm : Parameters)
    (s : Simulation) :
  (is_Some (init geometry hw prm s) ↔ geometry ≠ [] ∨ food_mode prm ≠ TENTACLE) ∧
  ∀ s', init geometry hw prm s = Some s' →
    param s' = prm ∧ frame_num s' = 0 ∧
    (0 < num_threads s')%nat ∧
    (3 ≤ hw < uint_max → num_threads s' = Z.to_nat (hw - 2)) ∧
    (∀ body, run_workers (for_range body) (num_threads s') (cells s')
             = for_each body (cells s')) ∧
    length (cells s') = length geometry ∧
    (food_mode prm ≠ INHERIT → food_mode prm ≠ TENTACLE →
       cells s' = geometry ∧ rng s' = rng s) ∧
    (food_mode prm = TENTACLE →
       Forall (λ p, generation p = 99) (cells s') ∧
       special <$> head (cells s') = Some true ∧ rng s' = rng s) ∧
    (food_mode prm = INHERIT →
       ∀ i p, geometry !! i = Some p →
         ∃ x, cells s' !! i = Some (set_inherited p x)).
Proof.
  pose proof (init_num_threads_positive hw) as Hpos.
  assert (3 ≤ hw < uint_max → Z.to_nat (init_num_threads hw) = Z.to_nat (hw - 2))
    as Hreg.
  { intros Hhw. f_equal. rewrite init_num_threads_regular by lia. lia. }
  unfold init. destruct (decide (food_mode prm = TENTACLE)) as [Ht|Ht].
  - rewrite decide_False by (by rewrite Ht). cbn [fst snd].
    destruct geometry as [|p0 rest].
    + split; [|done]. split; [by intros [? ?]|]. by intros [|].
    + split; [split; [by left|by eexists]|].
      intros s' [= <-]. cbn [param frame_num num_threads cells rng].
      split_and!; try done.
      * intros body. by apply run_workers_for_each.
      * simpl. f_equal. apply length_fmap.
      * intros _. split_and!; try done.
        exact (generation_99 (set_special p0 true :: rest)).
      * intros Hi. by rewrite Ht in Hi.
  - destruct (decide (food_mode prm = INHERIT)) as [Hi|Hi].
    + cbn [mbind option_bind]. split; [split; [by right|by eexists]|].
      intros s' [= <-]. cbn [param frame_num num_threads cells rng].
      split_and!; try done.
      * intros body. by apply run_workers_for_each.
      * by rewrite sweep_with_length.
      * intros _ i p Hp.
        rewrite (sweep_with_seq_lookup _ _ _ _ p); [| done | by eapply lookup_lt_Some].
        unfold seed_inherited. destruct (rand _). by eexists.
    + cbn [mbind option_bind fst snd]. split; [split; [by right|by eexists]|].
      intros s' [= <-]. cbn [param frame_num num_threads cells rng].
      split_and!; try done.
      intros body. by apply run_workers_for_each.
Qed.

Lemma init_tentacle geometry hw prm s s' :
  init geometry hw prm s = Some s' → food_mode prm = TENTACLE →
  param s' = prm ∧ Forall (λ p, generation p = 99) (cells s').
Proof.
  unfold init. intros Hinit Ht.
  destruct (decide (food_mode prm = INHERIT)) as [Hi|_]; [by rewrite Ht in Hi|].
  destruct (decide (food_mode prm = TENTACLE)); [|done]. cbn [fst snd] in Hinit.
  destruct geometry as [|p0 rest]; [done|].
  injection Hinit as <-. split; [done|].
  exact (generation_99 (set_special p0 true :: rest)).
Qed.

(** After [init] under TENTACLE every cell has generation 99, so the first
    [add_food] feeds the special cells only: a cell that is not special is
    left as it is (its food is reset to 0 if it is frozen or environs). *)
Theorem tentacle_feeds_special_only (geometry : list Particle) (hw : Z)
    (prm : Parameters) (s s' : Simulation) (i : nat) (p : Particle) :
  init geometry hw prm s = Some s' →
  food_mode prm = TENTACLE →
  cells s' !! i = Some p → special p = false →
  cells (add_food s') !! i =
  Some (if environs p || frozen p then set_food p (of_int 0) else p).
Proof.
  intros Hinit Hmode Hp Hsp.
  destruct (init_tentacle geometry hw prm s s' Hinit Hmode) as [Hprm Hgen].
  pose proof (Forall_lookup_1 _ _ _ _ Hgen Hp) as Hg. simpl in Hg.
  rewrite (add_food_lookup s' i p Hp). unfold add_food_cell.
  destruct (environs p || frozen p); [done|].
  rewrite Hprm, Hmode, Hsp, Hg. by rewrite bool_decide_eq_false_2 by lia.
Qed.

End InitProps.

(** ** The snapshot of a well-indexed population *)

Section MoreSnapshotProps.
Context `{Numeric}.

Implicit Types (cells : list Particle) (p : Particle).

Lemma indices_in_order cells :
  (∀ i p, cells !! i = Some p → index p = Z.of_nat i) →
  Forall (λ p, 0 ≤ index p < Z.of_nat (length cells)) cells ∧
  NoDup (index <$> cells).
Proof.
  intros Hidx. split.
  - apply Forall_lookup_2. intros i p Hp. rewrite (Hidx i p Hp).
    apply lookup_lt_Some in Hp. lia.
  - assert (index <$> cells = Z.of_nat <$> seq 0 (length cells)) as ->.
    { apply list_eq. intros i. rewrite !list_lookup_fmap.
      destruct (cells !! i) as [p|] eqn:Hp; simpl.
      - rewrite lookup_seq_lt by (by eapply lookup_lt_Some). simpl.
        by rewrite (Hidx i p Hp).
      - by rewrite lookup_seq_ge by (by apply lookup_ge_None). }
    apply NoDup_fmap_2; [apply _|apply NoDup_seq].
Qed.

Lemma fan_rows_valid cells p (r : list (Z * Z * Z)) :
  Forall (λ q, 0 ≤ index q < Z.of_nat (length cells)) cells →
  p ∈ cells →
  Forall (λ a, a < length cells)%nat (links p) →
  fan_of cells p r →
  Forall (λ f, (0 ≤ f.1.1 < Z.of_nat (length cells)) ∧
               (0 ≤ f.1.2 < Z.of_nat (length cells)) ∧
               (0 ≤ f.2 < Z.of_nat (length cells))) r.
Proof.
  intros Hidx Hp Hring [Hlen Hfan].
  apply Forall_lookup_2. intros i f Hf.
  assert (i < length (links p))%nat as Hi
    by (rewrite <-Hlen; by eapply lookup_lt_Some).
  assert ((i + 1) mod length (links p) < length (links p))%nat as Hi'
    by (apply Nat.mod_upper_bound; lia).
  destruct (lookup_lt_is_Some_2 _ _ Hi) as [c Hc].
  destruct (lookup_lt_is_Some_2 _ _ Hi') as [b Hb].
  destruct (lookup_lt_is_Some_2 cells c) as [qc Hqc].
  { exact (Forall_lookup_1 _ _ _ _ Hring Hc). }
  destruct (lookup_lt_is_Some_2 cells b) as [qb Hqb].
  { exact (Forall_lookup_1 _ _ _ _ Hring Hb). }
  rewrite (Hfan i c b qc qb Hc Hb Hqc Hqb) in Hf. injection Hf as <-. simpl.
  pose proof (proj1 (Forall_forall _ _) Hidx) as Hall.
  split; [|split].
  - by apply (Hall p).
  - apply (Hall qb). by eapply list_elem_of_lookup_2.
  - apply (Hall qc). by eapply list_elem_of_lookup_2.
Qed.

Lemma snapshot_ordered (cells : list Particle) :
  (∀ i p, cells !! i = Some p → index p = Z.of_nat i) →
  Forall (λ p, Forall (λ a, a < length cells)%nat (links p)) cells →
  ∃ M, set_matrices cells = Some M ∧
    mat_V M = (λ p, Some (position p)) <$> cells ∧
    mat_N M = (λ p, Some (normal p)) <$> cells ∧
    Forall (λ f, (0 ≤ f.1.1 < Z.of_nat (length (mat_V M))) ∧
                 (0 ≤ f.1.2 < Z.of_nat (length (mat_V M))) ∧
                 (0 ≤ f.2 < Z.of_nat (length (mat_V M)))) (mat_F M).
Proof.
  intros Hidx Hring.
  destruct (indices_in_order cells Hidx) as [Hrange Hnd].
  assert (is_Some (mapM (faces_of cells) cells)) as [rows Hrows].
  { apply mapM_is_Some_2. eapply Forall_impl; [exact Hring|].
    intros p Hp. simpl. destruct (faces_of_Some cells p Hp) as (r & -> & _).
    by eexists. }
  assert (Forall2 (fan_of cells) cells rows) as Hfans.
  { apply mapM_Some_1 in Hrows. by apply fans_of_faces. }
  assert (∀ sel : Particle → vec3,
            rows_written sel (replicate (length cells) None) cells
            = (λ p, Some (sel p)) <$> cells) as Hrowseq.
  { intros sel. apply list_eq. intros i. rewrite list_lookup_fmap.
    destruct (cells !! i) as [p|] eqn:Hp; simpl.
    - rewrite <-(Nat2Z.id i), <-(Hidx i p Hp).
      apply rows_written_lookup; rewrite ?length_replicate; try done.
      by eapply list_elem_of_lookup_2.
    - apply lookup_ge_None. rewrite rows_written_length, length_replicate.
      by apply lookup_ge_None. }
  exists {| mat_V := (λ p, Some (position p)) <$> cells;
            mat_N := (λ p, Some (normal p)) <$> cells;
            mat_F := concat rows |}.
  cbn [mat_V mat_N mat_F]. split; [|split; [done|split; [done|]]].
  - unfold set_matrices.
    rewrite write_rows_Some; [| done | by rewrite length_replicate].
    simpl. rewrite Hrows. simpl. by rewrite !Hrowseq.
  - rewrite length_fmap. apply Forall_concat.
    assert (∀ (l : list Particle) rs,
              Forall2 (fan_of cells) l rs → l ⊆ cells →
              Forall (λ p, Forall (λ a, a < length cells)%nat (links p)) l →
              Forall (Forall (λ f, (0 ≤ f.1.1 < Z.of_nat (length cells)) ∧
                                   (0 ≤ f.1.2 < Z.of_nat (length cells)) ∧
                                   (0 ≤ f.2 < Z.of_nat (length cells)))) rs)
      as Hgen.
    { induction 1 as [|p r l rs Hfan _ IH]; intros Hsub Hr; constructor.
      - apply Forall_cons in Hr as [Hp _].
        apply (fan_rows_valid cells p); try done.
        apply Hsub. apply list_elem_of_here.
      - apply IH; [|by apply Forall_cons in Hr as [_ ?]].
        intros x Hx. apply Hsub. by apply list_elem_of_further. }
    by apply (Hgen cells rows).
Qed.

(** When every cell carries its position in [cells] as index and ring
    members are cells, the snapshot lists the positions and the normals in
    the order of the cells, every row of [V] and [N] is written, and every
    entry of [F] is the number of a row of [V]. *)
Theorem set_matrices_in_order (cells : list Particle) :
  (∀ i p, cells !! i = Some p → index p = Z.of_nat i) →
  Forall (λ p, Forall (λ a, a < length cells)%nat (links p)) cells →
  ∃ M, set_matrices cells = Some M ∧
    mat_V M = (λ p, Some (position p)) <$> cells ∧
    mat_N M = (λ p, Some (normal p)) <$> cells ∧
    Forall (λ f, (0 ≤ f.1.1 < Z.of_nat (length (mat_V M))) ∧
                 (0 ≤ f.1.2 < Z.of_nat (length (mat_V M))) ∧
                 (0 ≤ f.2 < Z.of_nat (length (mat_V M)))) (mat_F M).
Proof. apply snapshot_ordered. Qed.

End MoreSnapshotProps.

Lemma set_matrices_in_order_witness :
  ∃ M, set_matrices Exact.triangle = Some M ∧
    mat_V M = (λ p, Some (position p)) <$> Exact.triangle ∧
    mat_N M = (λ p, Some (normal p)) <$> Exact.triangle ∧
    Forall (λ f, (0 ≤ f.1.1 < Z.of_nat (length (mat_V M))) ∧
                 (0 ≤ f.1.2 < Z.of_nat (length (mat_V M))) ∧
                 (0 ≤ f.2 < Z.of_nat (length (mat_V M)))) (mat_F M).
Proof.
  apply (set_matrices_in_order Exact.triangle).
  - intros i p Hp. destruct i as [|[|[|i]]]; simpl in Hp; try discriminate;
      by injection Hp as <-.
  - repeat constructor; simpl; lia.
Defined.

(** ** [PlyLoader::connect] and [PlyLoader::create_sim] on whole meshes *)

Section LoaderProps.
Context `{Numeric} `{!ParticleOps}.
Import PlyLoader.

Implicit Types (cells : list Particle) (p : Particle).

Lemma link_fmap {A} (g : Particle → A) cells i j :
  (∀ p k, g (add_link p k) = g p) → g <$> link cells i j = g <$> cells.
Proof.
  intros Hg. apply list_eq. intros k. rewrite !list_lookup_fmap. unfold link.
  destruct (decide (k = i)) as [->|Hne].
  - rewrite list_lookup_alter, decide_True by done. destruct (cells !! i) as [q|]; simpl; [|done].
    by rewrite Hg.
  - by rewrite list_lookup_alter_ne.
Qed.

Lemma connected_fmap {A} (g : Particle → A) cells i j :
  (∀ p k, g (add_link p k) = g p) → g <$> connected cells i j = g <$> cells.
Proof.
  intros Hg. unfold connected.
  repeat (destruct (negb _); rewrite ?link_fmap by done); done.
Qed.

(** Every ring after [connect(i, j)]. *)
Lemma connected_ring cells i j a :
  (i < length cells)%nat → (j < length cells)%nat →
  ring_of (connected cells i j) a =
  if decide (a = i) then
    (if bool_decide (j ∈ ring_of cells i) then ring_of cells i
     else ring_of cells i ++ [j])
  else if decide (a = j) then
    (if bool_decide (i ∈ ring_of cells j) then ring_of cells j
     else ring_of cells j ++ [i])
  else ring_of cells a.
Proof.
  intros Hi Hj. destruct (decide (a = i)) as [->|Hai].
  - by apply connected_ring_l.
  - destruct (decide (a = j)) as [->|Haj].
    + rewrite connected_comm. by apply connected_ring_l.
    + unfold ring_of. by rewrite connected_other.
Qed.

Lemma connected_elem cells i j a b :
  (i < length cells)%nat → (j < length cells)%nat →
  b ∈ ring_of (connected cells i j) a ↔
  b ∈ ring_of cells a ∨ (a = i ∧ b = j) ∨ (a = j ∧ b = i).
Proof.
  intros Hi Hj. rewrite connected_ring by done.
  destruct (decide (a = i)) as [->|Hai].
  - case_bool_decide as Hin.
    + split; [by left|]. intros [?|[[_ ->]|[-> ->]]]; done.
    + rewrite elem_of_app, list_elem_of_singleton.
      split.
      * intros [?| ->]; [by left|]. right; by left.
      * intros [?|[[_ ->]|[-> ->]]]; [by left|by right|by right].
  - destruct (decide (a = j)) as [->|Haj].
    + case_bool_decide as Hin.
      * split; [by left|]. intros [?|[[? _]|[_ ->]]]; done.
      * rewrite elem_of_app, list_elem_of_singleton.
        split.
        -- intros [?| ->]; [by left|]. right; by right.
        -- intros [?|[[? _]|[_ ->]]]; [by left|done|by right].
    + split; [by left|]. intros [?|[[? _]|[? _]]]; done.
Qed.

Lemma connected_NoDup cells i j :
  (i < length cells)%nat → (j < length cells)%nat →
  (∀ a, NoDup (ring_of cells a)) →
  ∀ a, NoDup (ring_of (connected cells i j) a).
Proof.
  intros Hi Hj Hnd a. rewrite connected_ring by done.
  repeat (case_decide || case_bool_decide); try apply Hnd;
    (apply NoDup_app; split_and!; [apply Hnd| |apply NoDup_singleton];
     by intros x Hx ->%list_elem_of_singleton).
Qed.

(** [connect] keeps a mesh wired: rings stay symmetric, free of repeated
    members and within the population; the only memberships it adds are
    those of [i] and [j] in each other's ring. *)
Theorem connect_keeps_wiring (cells cells' : list Particle) (i j : nat) :
  connect i j cells = Some cells' →
  wired cells →
  wired cells' ∧
  length cells' = length cells ∧
  (∀ a b, b ∈ ring_of cells' a ↔
          b ∈ ring_of cells a ∨ (a = i ∧ b = j) ∨ (a = j ∧ b = i)) ∧
  (i ≠ j → no_self_loop cells → no_self_loop cells').
Proof.
  unfold connect. intros Hc (Hsym & Hnd & Hin).
  destruct (decide (i < length cells ∧ j < length cells)%nat) as [[Hi Hj]|];
    [|done].
  injection Hc as <-. fold (connected cells i j).
  pose proof (λ a b, connected_elem cells i j a b Hi Hj) as Helem.
  split_and!.
  - split_and!.
    + intros a b. rewrite !Helem.
      intros [?|[[-> ->]|[-> ->]]]; [left; by apply Hsym|right; by right|right; by left].
    + by apply connected_NoDup.
    + intros a b. rewrite connected_length, Helem.
      intros [?|[[_ ->]|[_ ->]]]; [by eapply Hin|done|done].
  - apply connected_length.
  - done.
  - intros Hne Hno a. rewrite Helem.
    intros [?|[[-> ?]|[-> ?]]]; [by eapply Hno|congruence|congruence].
Qed.

(** The first loop of [create_sim]. *)
Lemma load_vertices (V N : list (real * real * real)) :
  (N = [] ∨ length V ≤ length N)%nat →
  ∃ fresh,
    mapM id (imap (load_vertex N) V) = Some fresh ∧
    position <$> fresh = row_vec <$> V ∧
    normal <$> fresh =
      (λ r, normalized (row_vec r)) <$>
        (match N with [] => V | _ => take (length V) N end) ∧
    index <$> fresh =
      (λ i, index (Particle_new (Z.of_nat i))) <$> seq 0 (length V) ∧
    links <$> fresh =
      (λ i, links (Particle_new (Z.of_nat i))) <$> seq 0 (length V).
Proof.
  intros HN.
  assert (∀ i v, V !! i = Some v →
            ∃ n, (match N with [] => V | _ => take (length V) N end) !! i = Some n ∧
                 load_vertex N i v =
                 Some (place (Particle_new (Z.of_nat i)) (row_vec v)
                         (normalized (row_vec n)))) as Hload.
  { intros i v Hv. unfold load_vertex. destruct N as [|n0 N'] eqn:EN.
    - by exists v.
    - rewrite <-EN in *. destruct HN as [?|HN]; [congruence|].
      pose proof (lookup_lt_Some _ _ _ Hv) as Hi.
      destruct (lookup_lt_is_Some_2 N i ltac:(lia)) as [n Hn].
      exists n. rewrite lookup_take_lt by done. by rewrite Hn. }
  assert (is_Some (mapM id (imap (load_vertex N) V))) as [fresh Hfresh].
  { apply mapM_is_Some_2, Forall_lookup_2. intros i o.
    rewrite list_lookup_imap. destruct (V !! i) as [v|] eqn:Hv; [|done].
    simpl. intros [= <-]. destruct (Hload i v Hv) as (n & _ & ->). by eexists. }
  exists fresh. split; [done|].
  apply mapM_Some_1 in Hfresh.
  assert (length fresh = length V) as Hlen.
  { apply Forall2_length in Hfresh. by rewrite length_imap in Hfresh. }
  assert (∀ i v, V !! i = Some v →
            ∃ n, (match N with [] => V | _ => take (length V) N end) !! i = Some n ∧
                 fresh !! i =
                 Some (place (Particle_new (Z.of_nat i)) (row_vec v)
                         (normalized (row_vec n)))) as Hat.
  { intros i v Hv. destruct (Hload i v Hv) as (n & Hn & Hl). exists n.
    split; [done|].
    destruct (Forall2_lookup_l _ _ _ i (Some (place (Particle_new (Z.of_nat i))
                (row_vec v) (normalized (row_vec n)))) Hfresh) as (p & Hp & Hid).
    { by rewrite list_lookup_imap, Hv, <-Hl. }
    simpl in Hid. by rewrite Hp, Hid. }
  assert (length (match N with [] => V | _ => take (length V) N end) = length V)
    as Hlen'.
  { destruct N; [done|]. destruct HN as [?|HN]; [done|].
    rewrite length_take. lia. }
  split_and!; apply list_eq; intros i; rewrite !list_lookup_fmap;
    (destruct (V !! i) as [v|] eqn:Hv;
     [ destruct (Hat i v Hv) as (n & Hn & ->);
       rewrite ?Hn, ?lookup_seq_lt by (by eapply lookup_lt_Some); done
     | apply lookup_ge_None in Hv;
       rewrite ?lookup_seq_ge by done;
       rewrite (proj2 (lookup_ge_None fresh i)) by lia;
       rewrite ?(proj2 (lookup_ge_None _ i)) by lia; done ]).
Qed.

Lemma face_index_in_range (n : nat) (z : Z) :
  0 ≤ z < Z.of_nat n →
  face_index z = Some (Z.to_nat z) ∧ (Z.to_nat z < n)%nat.
Proof. intros. unfold face_index. rewrite decide_True by lia. split; [done|lia]. Qed.

Lemma connect_entries_in_range cells (x y : Z) :
  0 ≤ x < Z.of_nat (length cells) → 0 ≤ y < Z.of_nat (length cells) →
  connect_entries x y cells = Some (connected cells (Z.to_nat x) (Z.to_nat y)).
Proof.
  intros Hx Hy. unfold connect_entries.
  destruct (face_index_in_range _ _ Hx) as [-> ?].
  destruct (face_index_in_range _ _ Hy) as [-> ?]. simpl.
  by apply connect_in_range.
Qed.

Lemma connect_entries_out_of_range cells (x y : Z) :
  ¬ (0 ≤ x < Z.of_nat (length cells) ∧ 0 ≤ y < Z.of_nat (length cells)) →
  connect_entries x y cells = None.
Proof.
  intros Hn. unfold connect_entries, face_index.
  destruct (decide (0 ≤ x)) as [Hx|]; [|done]. simpl.
  destruct (decide (0 ≤ y)) as [Hy|]; [|done]. simpl.
  unfold connect. rewrite decide_False; [done|]. lia.
Qed.

Lemma connected_pair cells (x y : Z) (a b : nat) :
  0 ≤ x < Z.of_nat (length cells) → 0 ≤ y < Z.of_nat (length cells) →
  b ∈ ring_of (connected cells (Z.to_nat x) (Z.to_nat y)) a ↔
  b ∈ ring_of cells a ∨ pair_of x y a b.
Proof.
  intros Hx Hy. rewrite connected_elem by lia. unfold pair_of.
  split; (intros [?|[[? ?]|[? ?]]]; [by left|right; left; lia|right; right; lia]).
Qed.

(** What the second loop maintains. *)
Lemma connect_face_step (cells : list Particle) (f : Z * Z * Z) :
  in_rows (length cells) f →
  ∃ cells',
    connect_face (Some cells) f = Some cells' ∧
    length cells' = length cells ∧
    position <$> cells' = position <$> cells ∧
    normal <$> cells' = normal <$> cells ∧
    index <$> cells' = index <$> cells ∧
    ((∀ a, NoDup (ring_of cells a)) → ∀ a, NoDup (ring_of cells' a)) ∧
    (∀ a b, b ∈ ring_of cells' a ↔ b ∈ ring_of cells a ∨ edge_of f a b).
Proof.
  intros (H1 & H2 & H3).
  set (c1 := connected cells (Z.to_nat f.1.1) (Z.to_nat f.1.2)).
  set (c2 := connected c1 (Z.to_nat f.1.1) (Z.to_nat f.2)).
  set (c3 := connected c2 (Z.to_nat f.1.2) (Z.to_nat f.2)).
  assert (length c1 = length cells) as L1 by apply connected_length.
  assert (length c2 = length cells) as L2
    by (unfold c2; by rewrite connected_length).
  exists c3. split_and!.
  - unfold connect_face. simpl.
    rewrite connect_entries_in_range by done. simpl. fold c1.
    rewrite connect_entries_in_range by (by rewrite L1). simpl. fold c2.
    by rewrite connect_entries_in_range by (by rewrite L2).
  - unfold c3. by rewrite connected_length.
  - unfold c3, c2, c1. by rewrite !connected_fmap.
  - unfold c3, c2, c1. by rewrite !connected_fmap.
  - unfold c3, c2, c1. by rewrite !connected_fmap.
  - intros Hnd. unfold c3. apply connected_NoDup; [lia|lia|].
    unfold c2. apply connected_NoDup; [lia|lia|].
    unfold c1. apply connected_NoDup; [lia|lia|done].
  - intros a b. unfold c3. rewrite connected_pair by (by rewrite L2).
    unfold c2. rewrite connected_pair by (by rewrite L1).
    unfold c1. rewrite connected_pair by done.
    unfold edge_of. tauto.
Qed.

Lemma connect_faces (F : list (Z * Z * Z)) (cells : list Particle) :
  Forall (in_rows (length cells)) F →
  ∃ cells',
    foldl connect_face (Some cells) F = Some cells' ∧
    length cells' = length cells ∧
    position <$> cells' = position <$> cells ∧
    normal <$> cells' = normal <$> cells ∧
    index <$> cells' = index <$> cells ∧
    ((∀ a, NoDup (ring_of cells a)) → ∀ a, NoDup (ring_of cells' a)) ∧
    (∀ a b, b ∈ ring_of cells' a ↔
            b ∈ ring_of cells a ∨ ∃ f, f ∈ F ∧ edge_of f a b).
Proof.
  revert cells. induction F as [|f F IH]; intros cells HF.
  - exists cells. split_and!; try done.
    intros a b. split; [by left|]. intros [?|(f & Hf & _)]; [done|].
    by apply elem_of_nil in Hf.
  - apply Forall_cons in HF as [Hf HF].
    destruct (connect_face_step cells f Hf)
      as (c1 & Hc1 & L1 & P1 & N1 & I1 & D1 & E1).
    rewrite <-L1 in HF.
    destruct (IH c1 HF) as (c' & Hc' & L' & P' & N' & I' & D' & E').
    exists c'. split_and!.
    + change (foldl connect_face (connect_face (Some cells) f) F = Some c').
      by rewrite Hc1.
    + congruence.
    + congruence.
    + congruence.
    + congruence.
    + auto.
    + intros a b. rewrite E', E1. split.
      * intros [[?|?]|(g & Hg & ?)]; [by left| |].
        -- right. exists f. split; [apply list_elem_of_here|done].
        -- right. exists g. split; [by apply list_elem_of_further|done].
      * intros [?|(g & Hg & ?)]; [left; by left|].
        apply elem_of_cons in Hg as [->|Hg]; [left; by right|].
        right. by exists g.
Qed.

Lemma connect_face_None (F : list (Z * Z * Z)) :
  foldl connect_face None F = None.
Proof. by induction F. Qed.

(** A file whose faces name rows of [V], and whose [N] is empty or has a
    row for every vertex, yields one cell per vertex, in the order of the
    file, at the vertex's position and with its unit normal; the rings
    hold no cell twice, and two cells are linked exactly when they are
    corners of a common face. *)
Theorem create_sim_builds_mesh (m : Ply) :
  (∀ n, links (Particle_new n) = []) →
  (ply_N m = [] ∨ length (ply_V m) ≤ length (ply_N m))%nat →
  Forall (in_rows (length (ply_V m))) (ply_F m) →
  ∃ cells,
    create_sim (Some m) [] = Cells cells ∧
    position <$> cells = row_vec <$> ply_V m ∧
    normal <$> cells =
      (λ r, normalized (row_vec r)) <$>
        (match ply_N m with
         | [] => ply_V m
         | _ => take (length (ply_V m)) (ply_N m)
         end) ∧
    index <$> cells =
      (λ i, index (Particle_new (Z.of_nat i))) <$> seq 0 (length (ply_V m)) ∧
    (∀ a, NoDup (ring_of cells a)) ∧
    (∀ a b, b ∈ ring_of cells a ↔ ∃ f, f ∈ ply_F m ∧ edge_of f a b).
Proof.
  intros Hnew HN HF.
  destruct (load_vertices (ply_V m) (ply_N m) HN)
    as (fresh & Hfresh & Hpos & Hnor & Hidx & Hlinks).
  assert (length fresh = length (ply_V m)) as Hlen.
  { by rewrite <-(length_fmap position), Hpos, length_fmap. }
  assert (∀ a, ring_of fresh a = []) as Hempty.
  { intros a. unfold ring_of.
    pose proof (f_equal (λ l, l !! a) Hlinks) as Ha. simpl in Ha.
    rewrite !list_lookup_fmap in Ha.
    destruct (fresh !! a) as [p|]; [|done]. simpl in *.
    destruct (seq 0 (length (ply_V m)) !! a); simpl in Ha; [|done].
    injection Ha as ->. apply Hnew. }
  rewrite <-Hlen in HF.
  destruct (connect_faces (ply_F m) fresh HF)
    as (cells & Hc & L & P & Nn & I & D & E).
  exists cells. split_and!.
  - unfold create_sim. rewrite Hfresh. simpl. by rewrite Hc.
  - congruence.
  - congruence.
  - congruence.
  - apply D. intros a. rewrite Hempty. apply NoDup_nil_2.
  - intros a b. rewrite E, Hempty. split.
    + intros [Hb|?]; [by apply elem_of_nil in Hb|done].
    + by right.
Qed.

(** A face that names a row beyond [V], or a negative one, makes
    [create_sim] read past the end of [cells]; so does a non-empty [N]
    with fewer rows than [V]. *)
Theorem create_sim_out_of_range (m : Ply) :
  (ply_N m ≠ [] ∧ length (ply_N m) < length (ply_V m))%nat ∨
  Exists (λ f, ¬ in_rows (length (ply_V m)) f) (ply_F m) →
  create_sim (Some m) [] = OutOfRange.
Proof.
  intros Hbad. unfold create_sim.
  destruct (mapM id (imap (load_vertex (ply_N m)) (ply_V m)))
    as [fresh|] eqn:Hfresh; [|done].
  apply mapM_Some_1 in Hfresh.
  assert (length fresh = length (ply_V m)) as Hlen.
  { apply Forall2_length in Hfresh. by rewrite length_imap in Hfresh. }
  destruct Hbad as [[HN Hshort]|Hbad].
  { exfalso.
    destruct (lookup_lt_is_Some_2 (ply_V m) (length (ply_N m)) Hshort) as [v Hv].
    destruct (Forall2_lookup_l _ _ _ (length (ply_N m))
                (load_vertex (ply_N m) (length (ply_N m)) v) Hfresh)
      as (p & _ & Hp).
    { by rewrite list_lookup_imap, Hv. }
    simpl in Hp. unfold load_vertex in Hp.
    destruct (ply_N m) as [|n0 N'] eqn:EN; [done|]. rewrite <-EN in Hp.
    by rewrite (proj2 (lookup_ge_None (ply_N m) (length (ply_N m)))) in Hp
      by (rewrite EN; lia). }
  simpl.
  assert (∀ F (c : list Particle),
            length c = length (ply_V m) →
            Exists (λ f, ¬ in_rows (length (ply_V m)) f) F →
            foldl connect_face (Some c) F = None) as Hgen.
  { induction F as [|f F IH]; intros c Lc HE; [by apply Exists_nil in HE|].
    change (foldl connect_face (connect_face (Some c) f) F = None).
    destruct (connect_face (Some c) f) as [c'|] eqn:Hc';
      [|apply connect_face_None].
    destruct (decide (in_rows (length c) f)) as [Hin|Hout].
    - destruct (connect_face_step c f Hin) as (c1 & Hc1 & L1 & _).
      rewrite Hc1 in Hc'. injection Hc' as <-.
      apply IH; [congruence|].
      apply Exists_cons in HE as [Hf|HE]; [|done].
      by rewrite Lc in Hin.
    - exfalso. unfold connect_face in Hc'. simpl in Hc'.
      destruct (connect_entries f.1.1 f.1.2 c) as [c1|] eqn:E1; [|done].
      simpl in Hc'.
      destruct (connect_entries f.1.1 f.2 c1) as [c2|] eqn:E2; [|done].
      simpl in Hc'.
      destruct (decide (0 ≤ f.1.1 < Z.of_nat (length c) ∧
                        0 ≤ f.1.2 < Z.of_nat (length c))) as [[? ?]|Hn];
        [|by rewrite connect_entries_out_of_range in E1].
      rewrite connect_entries_in_range in E1 by done. injection E1 as <-.
      destruct (decide (0 ≤ f.2 < Z.of_nat (length c))) as [?|Hn].
      + apply Hout. unfold in_rows. lia.
      + rewrite connect_entries_out_of_range in E2; [done|].
        rewrite connected_length. tauto. }
  by rewrite (Hgen (ply_F m) fresh Hlen Hbad).
Qed.

(** Loading a file and taking the snapshot gives the file back: [V] holds
    the vertices of the file in their order, [N] their unit normals, and
    every row of [F] names rows of [V].  The constructor of [Particle] is
    taken to store the index it is given and to leave the ring empty. *)
Theorem loaded_mesh_snapshot (m : Ply) :
  (∀ n, links (Particle_new n) = []) →
  (∀ n, index (Particle_new n) = n) →
  (ply_N m = [] ∨ length (ply_V m) ≤ length (ply_N m))%nat →
  Forall (in_rows (length (ply_V m))) (ply_F m) →
  ∃ cells M,
    create_sim (Some m) [] = Cells cells ∧
    set_matrices cells = Some M ∧
    mat_V M = (λ v, Some (row_vec v)) <$> ply_V m ∧
    mat_N M =
      (λ r, Some (normalized (row_vec r))) <$>
        (match ply_N m with
         | [] => ply_V m
         | _ => take (length (ply_V m)) (ply_N m)
         end) ∧
    Forall (in_rows (length (ply_V m))) (mat_F M).
Proof.
  intros Hnew Hindex HN HF.
  destruct (load_vertices (ply_V m) (ply_N m) HN)
    as (fresh & Hfresh & Hpos & Hnor & Hidx & Hlinks).
  assert (length fresh = length (ply_V m)) as Hlen.
  { by rewrite <-(length_fmap position), Hpos, length_fmap. }
  assert (∀ a, ring_of fresh a = []) as Hempty.
  { intros a. unfold ring_of.
    pose proof (f_equal (λ l, l !! a) Hlinks) as Ha. simpl in Ha.
    rewrite !list_lookup_fmap in Ha.
    destruct (fresh !! a) as [p|]; [|done]. simpl in *.
    destruct (seq 0 (length (ply_V m)) !! a); simpl in Ha; [|done].
    injection Ha as ->. apply Hnew. }
  pose proof HF as HF'. rewrite <-Hlen in HF'.
  destruct (connect_faces (ply_F m) fresh HF')
    as (cells & Hc & L & P & Nn & I & _ & E).
  assert (∀ i p, cells !! i = Some p → index p = Z.of_nat i) as Hord.
  { intros i p Hp.
    pose proof (f_equal (λ l, l !! i) (eq_trans I Hidx)) as Hi. simpl in Hi.
    rewrite !list_lookup_fmap, Hp in Hi.
    rewrite lookup_seq_lt in Hi
      by (rewrite <-Hlen, <-L; by eapply lookup_lt_Some).
    simpl in Hi. injection Hi as ->. apply Hindex. }
  assert (Forall (λ p, Forall (λ a, a < length cells)%nat (links p)) cells)
    as Hring.
  { apply Forall_lookup_2. intros a p Hp. apply Forall_forall. intros b Hb.
    assert (b ∈ ring_of cells a) as Hb' by (unfold ring_of; by rewrite Hp).
    apply E in Hb' as [Hb'|(f & Hf & Hedge)].
    { rewrite Hempty in Hb'. by apply elem_of_nil in Hb'. }
    pose proof (proj1 (Forall_forall _ _) HF f Hf) as Hin.
    rewrite L, Hlen. unfold in_rows, edge_of, pair_of in *. lia. }
  destruct (snapshot_ordered cells Hord Hring) as (M & HM & HV & HNn & HFm).
  exists cells, M. split_and!.
  - unfold create_sim. rewrite Hfresh. simpl. by rewrite Hc.
  - done.
  - rewrite HV. transitivity (Some <$> (position <$> cells));
      [by rewrite <-list_fmap_compose|].
    by rewrite P, Hpos, <-list_fmap_compose.
  - rewrite HNn. transitivity (Some <$> (normal <$> cells));
      [by rewrite <-list_fmap_compose|].
    by rewrite Nn, Hnor, <-list_fmap_compose.
  - rewrite HV, length_fmap, L, Hlen in HFm. exact HFm.
Qed.

End LoaderProps.

Section LoaderExamples.
Import Exact PlyLoader.

Lemma connect_keeps_wiring_witness :
  wired (connected loose 0 1) ∧
  length (connected loose 0 1) = length loose ∧
  (∀ a b, b ∈ ring_of (connected loose 0 1) a ↔
          b ∈ ring_of loose a ∨ (a = 0%nat ∧ b = 1%nat) ∨ (a = 1%nat ∧ b = 0%nat)) ∧
  (0%nat ≠ 1%nat → no_self_loop loose → no_self_loop (connected loose 0 1)).
Proof.
  assert (∀ a, ring_of loose a = []) as Hempty
    by (intros [|[|[|a]]]; reflexivity).
  apply (connect_keeps_wiring loose (connected loose 0 1) 0 1); [reflexivity|].
  split_and!.
  - intros a b Hb. rewrite Hempty in Hb. by apply elem_of_nil in Hb.
  - intros a. rewrite Hempty. apply NoDup_nil_2.
  - intros a b Hb. rewrite Hempty in Hb. by apply elem_of_nil in Hb.
Defined.

Lemma create_sim_builds_mesh_witness :
  ∃ cells,
    create_sim (Some sheet) [] = Cells cells ∧
    position <$> cells = row_vec <$> ply_V sheet ∧
    normal <$> cells = (λ r, normalized (row_vec r)) <$> ply_V sheet ∧
    index <$> cells =
      (λ i, index (Particle_new (Z.of_nat i))) <$> seq 0 (length (ply_V sheet)) ∧
    (∀ a, NoDup (ring_of cells a)) ∧
    (∀ a b, b ∈ ring_of cells a ↔ ∃ f, f ∈ ply_F sheet ∧ edge_of f a b).
Proof.
  apply (create_sim_builds_mesh sheet).
  - intros n. reflexivity.
  - by left.
  - repeat constructor; simpl; lia.
Defined.

Lemma create_sim_out_of_range_witness :
  create_sim (Some torn) [] = OutOfRange.
Proof.
  apply (create_sim_out_of_range torn). right.
  apply Exists_cons_hd. unfold in_rows. simpl. lia.
Defined.

Lemma add_cpu_forces_each_cell_witness :
  let s := sim (params SPHERE AREA 1%Q 0) triangle 0 in
  let p := cell 0 (0, 0, 0)%Q [1; 2]%nat in
  cells (add_cpu_forces s) !! 0%nat =
  Some (calculate 1%Q 1%Q 1%Q 1%Q triangle p).
Proof.
  intros s p.
  exact (add_cpu_forces_each_cell s 0 p ltac:(simpl; lia) eq_refl).
Defined.

Lemma tentacle_feeds_special_only_witness :
  let prm := params SPHERE TENTACLE 1%Q 0 in
  ∃ s', init triangle 8 prm (sim prm [] 0) = Some s' ∧
        cells (add_food s') !! 1%nat =
        Some (set_generation (cell 1 (1, 0, 0)%Q [2; 0]%nat) 99).
Proof.
  intros prm. eexists. split; [reflexivity|].
  exact (tentacle_feeds_special_only triangle 8 prm (sim prm [] 0) _ 1
           (set_generation (cell 1 (1, 0, 0)%Q [2; 0]%nat) 99)
           eq_refl eq_refl eq_refl eq_refl).
Defined.

Lemma loaded_mesh_snapshot_witness :
  ∃ cells M,
    create_sim (Some sheet) [] = Cells cells ∧
    set_matrices cells = Some M ∧
    mat_V M = (λ v, Some (row_vec v)) <$> ply_V sheet ∧
    mat_N M = (λ r, Some (normalized (row_vec r))) <$> ply_V sheet ∧
    Forall (in_rows (length (ply_V sheet))) (mat_F M).
Proof.
  apply (loaded_mesh_snapshot sheet).
  - intros n. reflexivity.
  - intros n. reflexivity.
  - by left.
  - repeat constructor; simpl; lia.
Defined.

End LoaderExamples.

(** * The run of [split], frozen cells and the two collision routines *)

(** ** The loop of [split], iteration by iteration *)


Section SplitRunProps.
Context `{Numeric} `{!ParticleOps} `{!Platform}.

Implicit Types (prm : Parameters) (cells : list Particle) (p : Particle).

Lemma split_prefix_app prm a b cells np :
  split_prefix prm (a ++ b) cells np =
  match split_prefix prm a cells np with
  | Some (c, n) => split_prefix prm b c n
  | None => None
  end.
Proof.
  revert cells np. induction a as [|i a IH]; intros cells np; simpl; [done|].
  destruct (split_body prm i cells np).1; [apply IH|done].
Qed.

(** The run up to a state that the loop reaches, and from there on. *)
Lemma split_loop_app prm a b cells np c n :
  split_prefix prm a cells np = Some (c, n) →
  (split_loop prm (a ++ b) cells np).1 = (split_loop prm b c n).1 ∧
  (split_loop prm (a ++ b) cells np).2 =
    (split_loop prm a cells np).2 ++ (split_loop prm b c n).2 ∧
  length (split_loop prm a cells np).2 = length a ∧
  (split_loop prm a cells np).1 = c.
Proof.
  revert cells np. induction a as [|i a IH]; intros cells np; simpl.
  { intros [= -> ->]. done. }
  destruct (split_body prm i cells np) as [[c1 n1|c1] e]; simpl; [|done].
  intros Hpre. destruct (IH c1 n1 Hpre) as (IH1 & IH2 & IH3 & IH4).
  destruct (split_loop prm (a ++ b) c1 n1) as [o l].
  destruct (split_loop prm a c1 n1) as [o' l']. simpl in *.
  split_and!; [done|by rewrite IH2|by rewrite IH3|done].
Qed.

(** Once an iteration has returned, no later index is visited. *)
Lemma split_loop_returned prm a b cells np :
  split_prefix prm a cells np = None →
  split_loop prm (a ++ b) cells np = split_loop prm a cells np ∧
  (length (split_loop prm a cells np).2 ≤ length a)%nat.
Proof.
  revert cells np. induction a as [|i a IH]; intros cells np; simpl; [done|].
  destruct (split_body prm i cells np) as [[c1 n1|c1] e]; simpl.
  - intros Hpre. destruct (IH c1 n1 Hpre) as [-> Hlen].
    destruct (split_loop prm a c1 n1) as [o l]. simpl in *. split; [done|lia].
  - intros _. split; [done|simpl; lia].
Qed.

Lemma split_prefix_population prm todo cells c n :
  split_prefix prm todo cells (length cells) = Some (c, n) →
  n = length c ∧ (length cells ≤ length c)%nat.
Proof.
  revert cells. induction todo as [|i todo IH]; intros cells; simpl.
  { intros [= -> ->]. done. }
  destruct (split_body_cases prm i cells (length cells))
    as [(cells' & e & -> & Hlen & _)|[(cells' & -> & Hlen & _)|[-> _]]]; simpl.
  - rewrite <-Hlen. intros Hpre. destruct (IH _ Hpre). split; [done|lia].
  - rewrite <-Hlen. intros Hpre. destruct (IH _ Hpre). split; [done|lia].
  - done.
Qed.

(** The iteration at index [i], the loop having reached it in the state
    [(c, n)]. *)
Lemma split_run_at prm cells i c n :
  (i < length cells)%nat →
  split_reached prm cells i = Some (c, n) →
  let log := (split_run prm cells).2 in
  let out := (split_run prm cells).1 in
  log !! i = Some (split_body prm i c n).2 ∧
  split_reached prm cells (S i) =
    match (split_body prm i c n).1 with
    | Next c' n' => Some (c', n')
    | Return _ => None
    end ∧
  (∀ c', (split_body prm i c n).1 = Return c' → out = c' ∧ length log = S i).
Proof.
  intros Hi Hreach log out. unfold split_reached in *.
  assert (seq 0 (length cells) = seq 0 i ++ i :: seq (S i) (length cells - S i))
    as Hseq.
  { replace (length cells) with (i + S (length cells - S i))%nat at 1 by lia.
    by rewrite seq_app. }
  destruct (split_loop_app prm (seq 0 i) (i :: seq (S i) (length cells - S i))
              cells (length cells) c n Hreach) as (Ea & Eb & Ec & _).
  rewrite length_seq in Ec.
  unfold log, out, split_run. rewrite Hseq, Ea, Eb. clear Ea Eb.
  split_and!.
  - rewrite lookup_app_r by lia. rewrite Ec, Nat.sub_diag. simpl.
    destruct (split_body prm i c n) as [[c1 n1|c1] e]; simpl; [|done].
    by destruct (split_loop prm _ c1 n1).
  - rewrite seq_S, split_prefix_app, Hreach. simpl.
    by destruct (split_body prm i c n).1.
  - intros c' Hret. simpl.
    destruct (split_body prm i c n) as [[c1 n1|c1] e]; simpl in *; [done|].
    injection Hret as ->. split; [done|]. rewrite length_app, Ec. simpl. lia.
Qed.

(** After the return of the loop no index is visited. *)
Lemma split_run_unreached prm cells i :
  split_reached prm cells i = None → (split_run prm cells).2 !! i = None.
Proof.
  intros Hnone. unfold split_reached in Hnone. apply lookup_ge_None.
  destruct (decide (i < length cells)%nat) as [Hi|Hi].
  - assert (seq 0 (length cells) = seq 0 i ++ seq i (length cells - i)) as Hseq.
    { replace (length cells) with (i + (length cells - i))%nat at 1 by lia.
      by rewrite seq_app. }
    destruct (split_loop_returned prm (seq 0 i) (seq i (length cells - i)) cells
                (length cells) Hnone) as [Heq Hlen].
    rewrite length_seq in Hlen. unfold split_run. by rewrite Hseq, Heq.
  - destruct (split_run_spec prm cells) as ((k & Hk & Hvis & _) & _).
    pose proof (f_equal length Hvis) as Hlen.
    rewrite length_fmap, length_seq in Hlen. lia.
Qed.

(** C2: [split] visits the cells at positions [0, 1, ...] below the
    population [N0] it starts with, in this order, each once, and all of
    them unless it returns at a full population; no appended cell is
    visited; the appended cells sit at the tail, at positions
    [N0, N0 + 1, ...], one per split.  Iteration by iteration, in the state
    [(c, np)] in which the loop reaches index [i]: [np] is the population;
    a frozen or environs cell is passed over; for any other cell, while the
    population differs from [MAX_POP], a cell is appended iff
    ([food > threshold] or [|links| > max_degree]) and the ring is a good
    loop, the loop then going on with the cells that [Particle::split]
    leaves, the new cell, created with the next index, at position [np];
    a cell that asks for a split with a ring that is not a good loop is
    frozen, any other is left alone; when the population equals
    [MAX_POP], the first cell that asks for a split makes the phase
    return with the cells as they are, and no later cell is visited. *)
Theorem split_visits_initial_cells (s : Simulation) :
  let prm := param s in
  let N0 := length (cells s) in
  let out := cells (split s) in
  let log := (split_run prm (cells s)).2 in
  (∃ k, (k ≤ N0)%nat ∧ event_cell <$> log = seq 0 k ∧
        (k = N0 ∨ ∃ pre i, log = pre ++ [Full i] ∧ length out = MAX_POP)) ∧
  Forall (λ e, (event_cell e < N0)%nat) log ∧
  omap spawned log = seq N0 (length out - N0) ∧
  (N0 ≤ length out)%nat ∧
  (∀ i c np, (i < N0)%nat → split_reached prm (cells s) i = Some (c, np) →
     np = length c ∧ (N0 ≤ np)%nat ∧
     ∃ p, c !! i = Some p ∧
       (frozen p || environs p = true →
          log !! i = Some (Skipped i) ∧
          split_reached prm (cells s) (S i) = Some (c, np)) ∧
       (frozen p = false → environs p = false →
          let asks := rgtb (food p) (threshold prm) = true ∨
                      Z.of_nat (length (links p)) > max_degree prm in
          (np ≠ MAX_POP →
             (log !! i = Some (Spawned i np) ↔ asks ∧ good_loop c p = true) ∧
             (asks → good_loop c p = true →
                let c' := freeze_if_bad (spawn prm c i np) np in
                split_reached prm (cells s) (S i) = Some (c', S np) ∧
                length c' = S np ∧
                (c' !! np = Some (newborn prm c i np) ∨
                 c' !! np = Some (set_frozen (newborn prm c i np) true))) ∧
             (asks → good_loop c p = false →
                log !! i = Some (Froze i) ∧
                split_reached prm (cells s) (S i)
                  = Some (<[i := set_frozen p true]> c, np)) ∧
             (¬ asks →
                log !! i = Some (Passed i) ∧
                split_reached prm (cells s) (S i) = Some (c, np))) ∧
          (np = MAX_POP →
             (asks →
                log !! i = Some (Full i) ∧ length log = S i ∧ out = c ∧
                split_reached prm (cells s) (S i) = None) ∧
             (¬ asks →
                log !! i = Some (Passed i) ∧
                split_reached prm (cells s) (S i) = Some (c, np))))) ∧
  (∀ i, split_reached prm (cells s) i = None → log !! i = None) ∧
  (∀ c np, split_reached prm (cells s) N0 = Some (c, np) →
     out = c ∧ length log = N0).
Proof.
  intros prm N0 out log.
  destruct (split_run_spec prm (cells s)) as ((k & Hk & Hvis & Hend) & Hch & Hmono & _).
  split_and!; try done.
  - by exists k.
  - apply Forall_forall. intros e He.
    assert (event_cell e ∈ seq 0 k) as Hin.
    { rewrite <-Hvis. by apply list_elem_of_fmap_2. }
    apply elem_of_seq in Hin. unfold N0. lia.
  - intros i c np Hi Hreach.
    destruct (split_prefix_population prm _ _ _ _ Hreach) as [Hnp Hle].
    destruct (split_run_at prm (cells s) i c np Hi Hreach) as (Hlog & Hnext & Hret).
    fold log in Hlog. change (split_run prm (cells s)).1 with out in Hret.
    fold log in Hret.
    split; [done|]. split; [unfold N0; lia|].
    destruct (lookup_lt_is_Some_2 c i) as [p Hp]; [unfold N0 in Hi; lia|].
    exists p. split; [done|].
    assert (wants_split prm p = true ↔
            rgtb (food p) (threshold prm) = true ∨
            Z.of_nat (length (links p)) > max_degree prm) as Hwants.
    { unfold wants_split, get_num_links.
      rewrite orb_true_iff, bool_decide_eq_true. done. }
    unfold split_body in Hlog, Hnext, Hret. rewrite Hp in Hlog, Hnext, Hret.
    split.
    { intros Hskip. rewrite Hskip in Hlog, Hnext. done. }
    intros Hfrozen Henv asks.
    rewrite Hfrozen, Henv in Hlog, Hnext, Hret. simpl in Hlog, Hnext, Hret.
    destruct (wants_split prm p) eqn:Hw.
    2: { assert (¬ asks) as Hno by (intros Ha; apply Hwants in Ha; done).
         split; intros Hpop; split_and!; try done.
         split; [by rewrite Hlog|]. by intros [? _]. }
    assert asks as Hyes by (by apply Hwants).
    split; intros Hpop.
    + rewrite bool_decide_eq_false_2 in Hlog, Hnext, Hret by done.
      destruct (good_loop c p) eqn:Hg; simpl in Hlog, Hnext, Hret.
      * split_and!; try done.
        intros _ _ c'. split; [done|].
        assert (length (spawn prm c i np) = S np) as Hlen
          by (rewrite spawn_length; lia).
        split; [unfold c'; by rewrite freeze_if_bad_length|].
        assert (spawn prm c i np !! np = Some (newborn prm c i np)) as Hnew.
        { unfold spawn, newborn. rewrite list_lookup_imap.
          rewrite lookup_app_r by lia. rewrite Hnp, Nat.sub_diag, length_app.
          simpl. by rewrite Nat.add_sub. }
        unfold c', freeze_if_bad. rewrite Hnew.
        destruct (negb _).
        -- right. apply list_lookup_insert_eq. lia.
        -- by left.
      * split_and!; try done.
        split; [by rewrite Hlog|]. by intros [_ ?].
    + rewrite bool_decide_eq_true_2 in Hlog, Hnext, Hret by done.
      simpl in *. destruct (Hret c eq_refl) as [-> Hlen].
      split_and!; done.
  - intros i Hnone. by apply split_run_unreached.
  - intros c np Hreach. unfold split_reached in Hreach.
    destruct (split_loop_app prm (seq 0 N0) [] (cells s) (length (cells s)) c np Hreach)
      as (_ & _ & Hlen & Hout).
    rewrite length_seq in Hlen. split; [exact Hout|exact Hlen].
Qed.


End SplitRunProps.

(** ** Frozen cells through the frames *)

Section FrozenRunProps.
Context `{Numeric} `{!ParticleOps} `{!Platform} `{!Accelerators}.

Implicit Types (prm : Parameters) (s : Simulation) (p q : Particle).

Lemma freeze_if_bad_keeps_frozen (c : list Particle) a i q :
  c !! i = Some q → frozen q = true →
  ∃ q', freeze_if_bad c a !! i = Some q' ∧ frozen q' = true.
Proof.
  intros Hq Hf. unfold freeze_if_bad.
  destruct (c !! a) as [ca|] eqn:Ha; [|by exists q].
  destruct (negb _); [|by exists q].
  destruct (decide (a = i)) as [->|Hne].
  - exists (set_frozen ca true). split; [|done].
    apply list_lookup_insert_eq. by eapply lookup_lt_Some.
  - exists q. by rewrite list_lookup_insert_ne.
Qed.

(** One iteration of the loop of [split] keeps a frozen cell frozen, and
    leaves it as it is unless a cell is appended. *)
Lemma split_body_keeps_frozen prm j (c : list Particle) np i q :
  split_preserves_frozen →
  c !! i = Some q → frozen q = true →
  ∃ q', step_cells (split_body prm j c np).1 !! i = Some q' ∧ frozen q' = true ∧
        (spawned (split_body prm j c np).2 = None → q' = q).
Proof.
  intros Hsplit Hq Hf. unfold split_body.
  destruct (c !! j) as [pj|] eqn:Hpj; [|by exists q].
  destruct (frozen pj || environs pj) eqn:Hskip; [by exists q|].
  destruct (wants_split prm pj); [|by exists q].
  case_bool_decide; [by exists q|].
  destruct (negb (good_loop c pj)); simpl.
  - exists q. split_and!; [|done|done].
    rewrite list_lookup_insert_ne; [done|].
    intros ->. rewrite Hq in Hpj. injection Hpj as <-.
    by rewrite Hf in Hskip.
  - destruct (freeze_if_bad_keeps_frozen (spawn prm c j np) np i
                (Particle_split (c ++ [Particle_new (Z.of_nat np)]) j
                   (length (c ++ [Particle_new (Z.of_nat np)]) - 1)
                   (bool_decide (split_mode prm = LONG)) i q))
      as (q' & Hq' & Hf').
    + unfold spawn. rewrite list_lookup_imap.
      rewrite lookup_app_l by (by eapply lookup_lt_Some). by rewrite Hq.
    + by apply Hsplit.
    + exists q'. split_and!; done.
Qed.

Lemma split_loop_keeps_frozen prm todo (c : list Particle) np i q :
  split_preserves_frozen →
  c !! i = Some q → frozen q = true →
  ∃ q', (split_loop prm todo c np).1 !! i = Some q' ∧ frozen q' = true ∧
        (omap spawned (split_loop prm todo c np).2 = [] → q' = q).
Proof.
  intros Hsplit. revert c np q.
  induction todo as [|j todo IH]; intros c np q Hq Hf; simpl; [by exists q|].
  destruct (split_body_keeps_frozen prm j c np i q Hsplit Hq Hf)
    as (q1 & Hq1 & Hf1 & Hsame1).
  destruct (split_body prm j c np) as [[c1 n1|c1] e]; simpl in *.
  - destruct (IH c1 n1 q1 Hq1 Hf1) as (q2 & Hq2 & Hf2 & Hsame2).
    destruct (split_loop prm todo c1 n1) as [o l]. simpl in *.
    exists q2. split_and!; [done|done|].
    destruct (spawned e); [done|]. intros Hl.
    rewrite Hsame2 by done. by apply Hsame1.
  - exists q1. split_and!; [done|done|].
    destruct (spawned e); [done|]. intros _. by apply Hsame1.
Qed.

Lemma split_prefix_keeps_frozen prm todo (c c' : list Particle) np n' i q :
  split_preserves_frozen →
  split_prefix prm todo c np = Some (c', n') →
  c !! i = Some q → frozen q = true →
  ∃ q', c' !! i = Some q' ∧ frozen q' = true.
Proof.
  intros Hsplit. revert c np q.
  induction todo as [|j todo IH]; intros c np q; simpl.
  { intros [= -> ->] ? ?. by exists q. }
  intros Hpre Hq Hf.
  destruct (split_body_keeps_frozen prm j c np i q Hsplit Hq Hf)
    as (q1 & Hq1 & Hf1 & _).
  destruct (split_body prm j c np).1 as [c1 n1|c1]; simpl in *; [|done].
  by apply (IH c1 n1 q1).
Qed.

(** The loop of [split] passes over a frozen cell. *)
Lemma split_run_skips_frozen prm (c : list Particle) i q :
  split_preserves_frozen →
  c !! i = Some q → frozen q = true →
  (∀ e, (split_run prm c).2 !! i = Some e → e = Skipped i) ∧
  (∀ c' np, split_reached prm c i = Some (c', np) →
     split_body prm i c' np = (Next c' np, Skipped i)).
Proof.
  intros Hsplit Hq Hf.
  assert (∀ c' np, split_reached prm c i = Some (c', np) →
            split_body prm i c' np = (Next c' np, Skipped i)) as Hbody.
  { intros c' np Hreach.
    destruct (split_prefix_keeps_frozen prm _ _ _ _ _ i q Hsplit Hreach Hq Hf)
      as (q' & Hq' & Hf').
    by apply (split_body_frozen _ _ _ q'). }
  split; [|done]. intros e He.
  destruct (split_reached prm c i) as [[c' np]|] eqn:Hreach.
  - destruct (split_run_at prm c i c' np) as (Hlog & _); [by eapply lookup_lt_Some|done|].
    rewrite (Hbody c' np eq_refl) in Hlog. simpl in Hlog. congruence.
  - rewrite (split_run_unreached prm c i Hreach) in He. done.
Qed.

Lemma growth_keeps_frozen s i q :
  split_preserves_frozen →
  cells s !! i = Some q → frozen q = true →
  ∃ g, cells (growth s) !! i = Some g ∧ frozen g = true ∧
       ((length (cells s) < MAX_POP)%nat →
        omap spawned (split_run (param s) (cells (add_food s))).2 = [] →
        g = set_food q (of_int 0)) ∧
       (¬ (length (cells s) < MAX_POP)%nat → g = q).
Proof.
  intros Hsplit Hq Hf. unfold growth. case_bool_decide as Hroom.
  - assert (cells (add_food s) !! i = Some (set_food q (of_int 0))) as Hfed.
    { apply add_food_inert; [done|]. by rewrite Hf, orb_true_r. }
    destruct (split_loop_keeps_frozen (param s) (seq 0 (length (cells (add_food s))))
                (cells (add_food s)) (length (cells (add_food s))) i
                (set_food q (of_int 0)) Hsplit Hfed Hf) as (g & Hg & Hfg & Hsame).
    exists g. split_and!; [exact Hg|done| |done].
    intros _ Hnone. by apply Hsame.
  - exists q. split_and!; done.
Qed.

Lemma collision_tree_keeps_frozen s i g :
  (0 < num_threads s)%nat →
  cells s !! i = Some g → frozen g = true →
  ∃ left, cells (collision_tree s) !! i = Some left ∧ frozen left = true.
Proof.
  intros HW Hg Hf. eexists. split; [exact (collision_tree_lookup s i g HW Hg)|].
  by rewrite collision_finalize_frozen.
Qed.

Lemma update_keeps_frozen s i q :
  split_preserves_frozen →
  (0 < num_threads s)%nat →
  cells s !! i = Some q → frozen q = true →
  ∃ q', cells (update s) !! i = Some q' ∧ frozen q' = true.
Proof.
  intros Hsplit HW Hq Hf.
  destruct (growth_keeps_frozen s i q Hsplit Hq Hf) as (g & Hg & Hfg & _).
  assert (num_threads (growth s) = num_threads s) as HWg.
  { unfold growth. by case_bool_decide. }
  destruct (collision_tree_keeps_frozen (growth s) i g) as (l & Hl & Hfl);
    [by rewrite HWg|done|done|].
  exists l. split; [|done]. unfold update. cbn [cells].
  apply update_position_frozen; [|done]. by apply add_cpu_forces_frozen.
Qed.

Lemma frames_keep_frozen s i q n :
  split_preserves_frozen →
  (0 < num_threads s)%nat →
  cells s !! i = Some q → frozen q = true →
  (0 < num_threads (frames n s))%nat ∧
  ∃ q', cells (frames n s) !! i = Some q' ∧ frozen q' = true.
Proof.
  intros Hsplit HW Hq Hf. induction n as [|n [HWn (q' & Hq' & Hf')]].
  { split; [done|]. by exists q. }
  change (frames (S n) s) with (update (frames n s)).
  destruct (update_engine (frames n s)) as (_ & _ & ->). split; [done|].
  by apply (update_keeps_frozen _ i q').
Qed.

(** C4, as the code has it: a cell that is frozen stays frozen in every
    later frame, provided that [Particle::split] does not clear the flag
    of the cells it rewires.  In every later frame [add_food] only resets
    its food to 0; the loop of [split] passes over it: it is neither split
    nor frozen again, and the phase leaves it as [add_food] left it unless
    some other cell splits, in which case it is what [Particle::split]
    made of it; [calculate] and [update] are not called on it, so that the
    force phase and the integration leave it exactly as it is.  The
    collision phase makes no difference between frozen and other cells: it
    scans the neighbours of the frozen cell and, when its [collisions] is
    not 0, assigns its [delta]; the cell ends the frame as the collision
    phase left it, at its old position. *)
Theorem frozen_cell_ignored (s : Simulation) (i : nat) (p : Particle) (n : nat) :
  split_preserves_frozen →
  (0 < num_threads s)%nat →
  cells s !! i = Some p → frozen p = true →
  let t := frames n s in
  ∃ q g,
    cells t !! i = Some q ∧ frozen q = true ∧
    cells (add_food t) !! i = Some (set_food q (of_int 0)) ∧
    (∀ e, (split_run (param t) (cells (add_food t))).2 !! i = Some e →
          e = Skipped i) ∧
    (∀ c np, split_reached (param t) (cells (add_food t)) i = Some (c, np) →
             split_body (param t) i c np = (Next c np, Skipped i)) ∧
    cells (growth t) !! i = Some g ∧ frozen g = true ∧
    ((length (cells t) < MAX_POP)%nat →
     omap spawned (split_run (param t) (cells (add_food t))).2 = [] →
     g = set_food q (of_int 0)) ∧
    (¬ (length (cells t) < MAX_POP)%nat → g = q) ∧
    let u := growth t in
    let c_sq := rmul (collision_radius (param u)) (collision_radius (param u)) in
    let scanned :=
      pushed c_sq g
        (colliders (cells u) i g
           (searchCapacityLimitedBall (build_tree (cells u)) (position g) c_sq 10)) in
    let left := collision_finalize (param u) scanned in
    cells (collision_tree u) !! i = Some left ∧
    frozen left = true ∧
    position left = position g ∧
    (collisions scanned ≠ 0 →
       delta left =
       vscale (vdiv (collision_target scanned) (to_float (of_int (collisions scanned))))
              (collision_factor (param u))) ∧
    cells (add_cpu_forces (collision_tree u)) !! i = Some left ∧
    cells (update_position (add_cpu_forces (collision_tree u))) !! i = Some left ∧
    cells (frames (S n) s) !! i = Some left.
Proof.
  intros Hsplit HW Hp Hf t.
  destruct (frames_keep_frozen s i p n Hsplit HW Hp Hf) as (HWt & q & Hq & Hfq).
  fold t in HWt, Hq.
  destruct (growth_keeps_frozen t i q Hsplit Hq Hfq) as (g & Hg & Hfg & Hsame & Hfull).
  assert (cells (add_food t) !! i = Some (set_food q (of_int 0))) as Hfed.
  { apply add_food_inert; [done|]. by rewrite Hfq, orb_true_r. }
  destruct (split_run_skips_frozen (param t) (cells (add_food t)) i
              (set_food q (of_int 0)) Hsplit Hfed Hfq) as [Hlog Hbody].
  exists q, g. split_and!; try done.
  intros u c_sq scanned left.
  assert (num_threads u = num_threads t) as HWu.
  { unfold u, growth. by case_bool_decide. }
  assert (cells (collision_tree u) !! i = Some left) as Hleft.
  { apply (collision_tree_lookup u i g); [by rewrite HWu|done]. }
  assert (frozen left = true) as Hfl
    by (unfold left; by rewrite collision_finalize_frozen).
  assert (cells (update_position (add_cpu_forces (collision_tree u))) !! i = Some left)
    as Hend.
  { apply update_position_frozen; [|done]. by apply add_cpu_forces_frozen. }
  split_and!; try done.
  - unfold left, collision_finalize. by destruct (bool_decide _).
  - intros Hn. unfold left, collision_finalize. by rewrite bool_decide_eq_true_2.
  - by apply add_cpu_forces_frozen.
Qed.

End FrozenRunProps.

(** ** [collision_grid] against [collision_tree] *)


Section GridTreeProps.
Context `{Numeric} `{!ParticleOps} `{!Platform} `{!Accelerators}.

Implicit Types (s : Simulation) (p : Particle) (cells : list Particle).







End GridTreeProps.

(** ** Examples *)

Section RunExamples.
Import Exact.

(** A fed triangle under [MAX_POP = 4]: the loop reaches the first cell
    with the population 3, and the cell splits. *)
Lemma split_visits_initial_cells_witness :
  let s := sim (params SPHERE AREA 1%Q 0) (fed 2%Q triangle) 0 in
  (split_run (param s) (cells s)).2 !! 0%nat = Some (Spawned 0 3) ∧
  (split_run (param s) (cells s)).2 !! 1%nat = Some (Full 1) ∧
  length (cells (split s)) = 4%nat.
Proof.
  intros s.
  pose proof (split_visits_initial_cells s) as (_ & _ & _ & _ & Hrun & _).
  split_and!.
  - destruct (Hrun 0%nat (cells s) 3%nat ltac:(simpl; lia) eq_refl)
      as (_ & _ & p & Hp & _ & Hlive).
    injection Hp as <-.
    destruct (Hlive eq_refl eq_refl) as [Hroom _].
    destruct (Hroom ltac:(simpl; lia)) as (Hiff & _).
    apply Hiff. split; [left; reflexivity|reflexivity].
  - destruct (Hrun 1%nat (split_run (param s) (cells s)).1 4%nat
                ltac:(simpl; lia) eq_refl)
      as (_ & _ & p & Hp & _ & Hlive).
    injection Hp as <-.
    destruct (Hlive eq_refl eq_refl) as [_ Hfull].
    destruct (Hfull eq_refl) as [Hreturn _].
    apply Hreturn. left; reflexivity.
  - reflexivity.
Defined.

Lemma bud_preserves_frozen : split_preserves_frozen.
Proof.
  intros grown parent child long_axis k q Hq. simpl. unfold bud.
  destruct (grown !! parent); [|done].
  repeat case_bool_decide; done.
Defined.

Lemma frozen_cell_ignored_witness :
  let s := sim (params SPHERE AREA 1%Q 0) frozen_crowd 0 in
  ∃ q left,
    cells (frames 1 s) !! 0%nat = Some q ∧ frozen q = true ∧
    cells (add_food (frames 1 s)) !! 0%nat = Some (set_food q 0%Q) ∧
    (∀ e, (split_run (param (frames 1 s)) (cells (add_food (frames 1 s)))).2 !! 0%nat
            = Some e → e = Skipped 0) ∧
    cells (frames 2 s) !! 0%nat = Some left ∧ frozen left = true ∧
    cells (update_position
             (add_cpu_forces (collision_tree (growth (frames 1 s))))) !! 0%nat
      = Some left.
Proof.
  intros s.
  destruct (frozen_cell_ignored s 0 (set_frozen (cell 0 (0, 0, 0)%Q []) true) 1
              bud_preserves_frozen ltac:(simpl; lia) eq_refl eq_refl)
    as (q & g & Hq & Hfq & Hfed & Hlog & _ & _ & _ & _ & _ & Hrest).
  cbv zeta in Hrest. destruct Hrest as (_ & Hfl & _ & _ & _ & Hend & Hnext).
  eexists q, _.
  split_and!; [exact Hq|exact Hfq|exact Hfed|exact Hlog|exact Hnext|exact Hfl|exact Hend].
Defined.

(** The same two cells, the first one frozen or not: after one frame the
    frozen cell is where it was, with the [delta] that the collision phase
    assigned; the cell that is not frozen has moved. *)
Example frozen_cell_stays_where_it_is :
  let prm := params SPHERE AREA 1%Q 0 in
  (λ p, (position p, delta p)) <$> cells (frames 1 (sim prm frozen_crowd 0)) !! 0%nat
    = Some ((0, 0, 0)%Q, (- 3 # 4, 0, 0)%Q) ∧
  (λ p, (position p, delta p)) <$> cells (frames 1 (sim prm crowd 0)) !! 0%nat
    = Some ((- 3 # 4, 0, 0)%Q, (0, 0, 0)%Q).
Proof. split; vm_compute; reflexivity. Qed.


(** C5, second divergence: the ball query is limited to 10 points, the
    grid is not.  With twelve unlinked cells within the radius of one
    another, [collision_tree] counts 9 collisions for the first cell (the
    ten points returned include the cell itself) and [collision_grid]
    counts 11. *)
Example collision_tree_caps_neighbours :
  let s := sim (params SPHERE AREA 1%Q 0) cluster 0 in
  length (cells s) = 12%nat ∧
  collisions <$> cells (collision_tree s) !! 0%nat = Some 9 ∧
  collisions <$> cells (collision_grid s) !! 0%nat = Some 11.
Proof. split_and!; vm_compute; reflexivity. Qed.

End RunExamples.

Section RoundingExamples.
Import Binary.

(** C5, third divergence: the factor is computed in [double] by
    [collision_tree] and in [float] by [collision_grid].  With the radius
    3/2 and two unlinked cells half a unit apart, both routines find the
    same neighbour and count one collision; the factor is
    [(2.25 − 0.25) / 2.25 = 8/9], which [collision_tree] rounds to 53 bits
    and [collision_grid] to 24 bits, and the two values of [delta]
    differ. *)
Example collision_grid_rounds_in_float :
  let s := Binary.sim (Binary.params (3 # 2)) Binary.crowd in
  (λ p, (collisions p, delta p)) <$> cells (collision_tree s) !! 0%nat
    = Some (1, (- 2001599834386887 # 2251799813685248, 0, 0)%Q) ∧
  (λ p, (collisions p, delta p)) <$> cells (collision_grid s) !! 0%nat
    = Some (1, (- 14913081 # 16777216, 0, 0)%Q).
Proof. split; vm_compute; reflexivity. Qed.

End RoundingExamples.
